(** * Schema detection and the generic analytics engine

    A shallow embedding of [src/lib/generic-analytics-engine.ts]
    (class [GenericAnalyticsEngine]) and of the best-match selection of
    [detectSchema] in the CSV import dialog, together with the properties
    the specification states about them.  The embedding also covers the
    evaluation analytics ([analytics.ts]), the evaluation criteria, the
    key of the audio store and the audio URL the import dialog gives a
    record.

    Conventions of the embedding.

    - A JavaScript number is a value of [num]: [NaN], the two infinities,
      or a finite number held as a rational ([Qc], rationals in lowest
      terms).  Everything the engine does to special values ([NaN]
      propagation, [Infinity] arithmetic, comparisons with [NaN] being
      false) is written out.  Zero carries no sign.
    - The engine is embedded at two levels of arithmetic.  At the first
      level arithmetic on finite numbers is exact.  It carries the
      properties that rounding does not touch: which records are
      grouped, counted, filtered or paired, in which order results come,
      what the guards do and which exceptions are thrown.  At the second
      level, the module [Binary64], every arithmetic operation of the
      source is rounded to binary64 ([round64]: nearest number with a
      53-bit significand, ties to even, overflow to an infinity, gradual
      underflow).  It carries the properties in which rounding,
      cancellation or overflow decide (C2, C6, C9, X10, X11, X23) and
      the evaluations at the end of the file, which show results the
      first level does not have.
    - What the host provides and cannot be computed on rationals or is
      not part of this repository (string/number conversion, [Math.sqrt],
      [toFixed], date parsing, case mapping) is collected in the class
      [Host]; every theorem holds for every host.  [SampleHost] is one
      host, used to run the engine on sample data.
    - A thrown exception is a result [Throw e]; normal completion is
      [Ok v].  [console.warn] output is not part of the result and is
      only marked by a comment where the source emits it.
    - A JavaScript [Map] and the metadata object are association lists in
      insertion order; [Array.prototype.sort] is a stable insertion
      sort.

    The file has the model first (numbers, binary64 rounding, values,
    data model, the engine at both levels, detection), then the notions
    the properties are stated with and the sample data, then the
    proofs: general facts, the accuracy and the order of binary64
    rounding, one section per property of the specification (C1 to
    C10), further properties of the code (X1 to X25), and evaluations
    of the binary64 engine. *)

From Stdlib Require Import List String Ascii Bool Arith ZArith QArith Qcanon Qround Lia Permutation.
From Stdlib Require Import DecimalString Qabs Sorted Qpower Lqa.
From Stdlib Require PrimFloat FloatOps.
Import ListNotations.

Set Implicit Arguments.

Open Scope string_scope.
Open Scope list_scope.
Open Scope nat_scope.

(* ================================================================== *)
(** * JavaScript numbers *)
(* ================================================================== *)

Inductive num : Type :=
| NaN
| PInf
| NInf
| Fin (q : Qc).

Definition Qcltb (a b : Qc) : bool :=
  match (a ?= b)%Qc with Lt => true | _ => false end.

Definition Qceqb (a b : Qc) : bool :=
  match (a ?= b)%Qc with Eq => true | _ => false end.

Definition of_Z (z : Z) : num := Fin (Q2Qc (inject_Z z)).
Definition of_nat (n : nat) : num := of_Z (Z.of_nat n).

(** The decimal literal [n/d], e.g. [lit 667 10] for [66.7]. *)
Definition lit (n : Z) (d : positive) : num := Fin (Q2Qc (n # d)).

Definition zero : num := of_Z 0.

Definition isNaN (x : num) : bool :=
  match x with NaN => true | _ => false end.

Definition isFinite (x : num) : bool :=
  match x with Fin _ => true | _ => false end.

(** Sign of a finite number, used by the rules for infinities. *)
Definition Qcsgn (a : Qc) : comparison := (a ?= 0)%Qc.

Definition nneg (x : num) : num :=
  match x with
  | NaN => NaN
  | PInf => NInf
  | NInf => PInf
  | Fin a => Fin (- a)%Qc
  end.

Definition nadd (x y : num) : num :=
  match x, y with
  | NaN, _ | _, NaN => NaN
  | PInf, NInf | NInf, PInf => NaN
  | PInf, _ | _, PInf => PInf
  | NInf, _ | _, NInf => NInf
  | Fin a, Fin b => Fin (a + b)%Qc
  end.

Definition nsub (x y : num) : num := nadd x (nneg y).

(** An infinity with the sign of [s]; [0 * Infinity] is [NaN]. *)
Definition inf_signed (s : comparison) (pos : bool) : num :=
  match s with
  | Eq => NaN
  | Gt => if pos then PInf else NInf
  | Lt => if pos then NInf else PInf
  end.

Definition nmul (x y : num) : num :=
  match x, y with
  | NaN, _ | _, NaN => NaN
  | PInf, PInf | NInf, NInf => PInf
  | PInf, NInf | NInf, PInf => NInf
  | PInf, Fin a | Fin a, PInf => inf_signed (Qcsgn a) true
  | NInf, Fin a | Fin a, NInf => inf_signed (Qcsgn a) false
  | Fin a, Fin b => Fin (a * b)%Qc
  end.

(** Division; a zero divisor is the positive zero. *)
Definition ndiv (x y : num) : num :=
  match x, y with
  | NaN, _ | _, NaN => NaN
  | (PInf | NInf), (PInf | NInf) => NaN
  | PInf, Fin b => if Qcltb b 0%Qc then NInf else PInf
  | NInf, Fin b => if Qcltb b 0%Qc then PInf else NInf
  | Fin _, (PInf | NInf) => zero
  | Fin a, Fin b =>
      if Qceqb b 0%Qc then inf_signed (Qcsgn a) true else Fin (a / b)%Qc
  end.

(** [x < y]; any comparison with [NaN] is false. *)
Definition nlt (x y : num) : bool :=
  match x, y with
  | NaN, _ | _, NaN => false
  | _, NInf => false
  | NInf, _ => true
  | PInf, _ => false
  | _, PInf => true
  | Fin a, Fin b => Qcltb a b
  end.

(** [x === y] on numbers. *)
Definition neqb (x y : num) : bool :=
  match x, y with
  | PInf, PInf | NInf, NInf => true
  | Fin a, Fin b => Qceqb a b
  | _, _ => false
  end.

Definition ngt (x y : num) : bool := nlt y x.
Definition nle (x y : num) : bool := nlt x y || neqb x y.
Definition nge (x y : num) : bool := nle y x.

(** Truthiness of a number: [0] and [NaN] are falsy. *)
Definition num_truthy (x : num) : bool :=
  match x with
  | NaN => false
  | Fin a => negb (Qceqb a 0%Qc)
  | _ => true
  end.

(** [x || d] on numbers. *)
Definition num_or (x d : num) : num := if num_truthy x then x else d.

Definition Math_floor (x : num) : num :=
  match x with Fin a => of_Z (Qfloor a) | _ => x end.

Definition Math_ceil (x : num) : num :=
  match x with Fin a => of_Z (Qceiling a) | _ => x end.

(** [Math.round] rounds half up: [floor (x + 1/2)]. *)
Definition Math_round (x : num) : num :=
  match x with Fin a => of_Z (Qfloor (a + Q2Qc (1 # 2))%Qc) | _ => x end.

Definition Math_abs (x : num) : num :=
  match x with
  | NaN => NaN
  | PInf | NInf => PInf
  | Fin a => if Qcltb a 0%Qc then Fin (- a)%Qc else Fin a
  end.

(** [Math.min(...xs)]: [Infinity] for no argument, [NaN] if any argument
    is [NaN]. *)
Definition min2 (x y : num) : num :=
  match x, y with
  | NaN, _ | _, NaN => NaN
  | _, _ => if nlt y x then y else x
  end.

Definition max2 (x y : num) : num :=
  match x, y with
  | NaN, _ | _, NaN => NaN
  | _, _ => if nlt x y then y else x
  end.

Definition Math_min (xs : list num) : num := fold_left min2 xs PInf.
Definition Math_max (xs : list num) : num := fold_left max2 xs NInf.

(** [Math.pow(x, n)] for a natural exponent. *)
Fixpoint Math_pow (x : num) (n : nat) : num :=
  match n with
  | O => of_Z 1
  | S n' => nmul x (Math_pow x n')
  end.

(** A number used as an array index: the position if it is a
    non-negative integer, nothing otherwise (the element is then
    [undefined]). *)
Definition index_of (x : num) : option nat :=
  match x with
  | Fin a =>
      let z := Qfloor a in
      if Qceqb a (Q2Qc (inject_Z z)) && (0 <=? z)%Z then Some (Z.to_nat z) else None
  | _ => None
  end.

(* ================================================================== *)
(** * Binary64 numbers *)
(* ================================================================== *)

(** The engine runs on binary64 numbers.  An arithmetic operation on
    finite numbers returns the exact result rounded to the nearest
    number [m * 2^e] with an integer [m] of at most 53 bits and
    [e >= -1074], ties going to the even [m]; a rounded result of
    magnitude [2^1024] or more is an infinity.  [round64] is this
    rounding, and [fadd], [fsub], [fmul] and [fdiv] are the rounded
    operations.  Zero carries no sign. *)

Definition pow2 (z : Z) : Q := Qpower 2 z.

(** [floor (log2 q)] for a positive rational [q]. *)
Definition ilog2 (q : Q) : Z :=
  let e := (Z.log2 (Qnum q) - Z.log2 (Zpos (Qden q)))%Z in
  if Qle_bool (pow2 e) q then e else (e - 1)%Z.

(** The nearest integer, ties to the even one. *)
Definition roundHalfEven (s : Q) : Z :=
  let f := Qfloor s in
  match (s - inject_Z f ?= 1 # 2)%Q with
  | Lt => f
  | Gt => (f + 1)%Z
  | Eq => if Z.even f then f else (f + 1)%Z
  end.

(** The spacing of the binary64 numbers around [q]: [2^(e-52)] for
    [2^e <= |q| < 2^(e+1)], and [2^-1074] below [2^-1022]. *)
Definition ulp (q : Q) : Q := pow2 (Z.max (ilog2 (Qabs q) - 52) (-1074)).

Definition nearest64 (q : Q) : Q :=
  (inject_Z (roundHalfEven (q / ulp q)) * ulp q)%Q.

Definition round64 (x : num) : num :=
  match x with
  | Fin a =>
      let r := nearest64 a in
      if Qle_bool (pow2 1024) r then PInf
      else if Qle_bool r (- pow2 1024)%Q then NInf
      else Fin (Q2Qc r)
  | _ => x
  end.

Definition fadd (x y : num) : num := round64 (nadd x y).
Definition fsub (x y : num) : num := round64 (nsub x y).
Definition fmul (x y : num) : num := round64 (nmul x y).
Definition fdiv (x y : num) : num := round64 (ndiv x y).

(** The binary64 number a decimal literal [n/d] denotes. *)
Definition lit64 (n : Z) (d : positive) : num := round64 (lit n d).

(** [Math.pow(x, n)] for a natural exponent, by repeated
    multiplication. *)
Fixpoint Math_pow64 (x : num) (n : nat) : num :=
  match n with
  | O => of_Z 1
  | S n' => fmul x (Math_pow64 x n')
  end.

(** A binary64 number: rounding returns it. *)
Definition binary64 (v : num) : bool := neqb (round64 v) v.

(** A function on numbers that keeps the order. *)
Definition monotone (f : num -> num) : Prop :=
  forall x y, nle x y = true -> nle (f x) (f y) = true.

(** The number a binary64 value of the processor stands for, to
    compare the rounded operations above with the processor's. *)
Module Processor.
Import PrimFloat FloatOps.
Definition of_float (f : float) : num :=
  match Prim2SF f with
  | SpecFloat.S754_zero _ => Fin (Q2Qc 0)
  | SpecFloat.S754_infinity false => PInf
  | SpecFloat.S754_infinity true => NInf
  | SpecFloat.S754_nan => NaN
  | SpecFloat.S754_finite s m e =>
      Fin (Q2Qc (inject_Z (if s then Zneg m else Zpos m) * pow2 e)%Q)
  end.
End Processor.

(* ================================================================== *)
(** * Values, exceptions and the host *)
(* ================================================================== *)

(** The values a metadata cell can hold.  [VUndefined] is also what a
    lookup of an absent key yields. *)
Inductive value : Type :=
| VUndefined
| VNull
| VBool (b : bool)
| VNum (n : num)
| VStr (s : string).

Class Host : Type := {
  (** [Number(s)] for a string [s] *)
  StringToNumber : string -> num;
  (** [String(n)] for a number [n] *)
  NumberToString : num -> string;
  Math_sqrt : num -> num;
  (** [n.toFixed(1)] *)
  toFixed1 : num -> string;
  (** [new Date(v).toISOString()]; [None] when the date is invalid, in
      which case [toISOString] throws a [RangeError] *)
  Date_toISOString : value -> option string;
  toLowerCase : string -> string
}.

Inductive exn : Type := TypeError | RangeError.

Inductive res (A : Type) : Type :=
| Ok (a : A)
| Throw (e : exn).
Arguments Ok {A} a.
Arguments Throw {A} e.

Definition bind {A B : Type} (m : res A) (k : A -> res B) : res B :=
  match m with
  | Ok a => k a
  | Throw e => Throw e
  end.

Notation "x <- m ;; k" := (bind m (fun x => k))
  (at level 61, m at next level, right associativity).

Fixpoint mapM {A B : Type} (f : A -> res B) (l : list A) : res (list B) :=
  match l with
  | [] => Ok []
  | x :: l' => y <- f x ;; ys <- mapM f l' ;; Ok (y :: ys)
  end.

Fixpoint foldM {A B : Type} (f : B -> A -> res B) (l : list A) (acc : B) : res B :=
  match l with
  | [] => Ok acc
  | x :: l' => acc' <- f acc x ;; foldM f l' acc'
  end.

Definition returns {A : Type} (m : res A) : Prop := exists a, m = Ok a.

Section Conversions.
Context {host : Host}.

(** [Number(v)] *)
Definition Number (v : value) : num :=
  match v with
  | VUndefined => NaN
  | VNull => zero
  | VBool b => if b then of_Z 1 else zero
  | VNum n => n
  | VStr s => StringToNumber s
  end.

(** [String(v)] *)
Definition String_ (v : value) : string :=
  match v with
  | VUndefined => "undefined"
  | VNull => "null"
  | VBool b => if b then "true" else "false"
  | VNum n => NumberToString n
  | VStr s => s
  end.
End Conversions.

(** [v ?? d] *)
Definition nullish (v d : value) : value :=
  match v with
  | VUndefined | VNull => d
  | _ => v
  end.

Definition truthy (v : value) : bool :=
  match v with
  | VUndefined | VNull => false
  | VBool b => b
  | VNum n => num_truthy n
  | VStr s => negb (String.eqb s "")
  end.

(** [a || b] on values *)
Definition value_or (a b : value) : value := if truthy a then a else b.

(** [a === b] on values *)
Definition strict_eq (a b : value) : bool :=
  match a, b with
  | VUndefined, VUndefined | VNull, VNull => true
  | VBool x, VBool y => Bool.eqb x y
  | VNum x, VNum y => neqb x y
  | VStr x, VStr y => String.eqb x y
  | _, _ => false
  end.

(* ================================================================== *)
(** * Data model *)
(* ================================================================== *)

(** The metadata object of a call: keys in insertion order. *)
Definition Metadata : Type := list (string * value).

(** [md[k]]: the value under [k], [undefined] when [k] is absent. *)
Fixpoint md_get (md : Metadata) (k : string) : value :=
  match md with
  | [] => VUndefined
  | (k', v) :: md' => if String.eqb k' k then v else md_get md' k
  end.

(** A call record, with the fields the engine reads.  The engine
    indexes [call.metadata] by arbitrary field ids and tests
    [!call.metadata] in most operations, so the metadata is a map from
    field id to value and a record can reach the engine without it. *)
Record CallRecord : Type := {
  call_id : string;
  metadata : option Metadata;
  createdAt : string
}.

(** Modelled from the spec: the declarations of ['@/types/schema'] are
    not among the sources.  A field has an id, names used for matching,
    a data type ('text', 'number', 'date', 'boolean') and an optional
    semantic role; the engine compares the last two with string
    literals, so they are strings here. *)
Record FieldDefinition : Type := {
  field_id : string;
  name : string;
  displayName : string;
  dataType : string;
  semanticRole : option string
}.

(** Modelled from the spec: a schema has an id, a name, a version and
    an ordered list of fields; [updatedAt] is the optional time stamp
    the import dialog sets when it saves a schema. *)
Record SchemaDefinition : Type := {
  schema_id : string;
  schema_name : string;
  version : string;
  fields : list FieldDefinition;
  updatedAt : option string
}.

(** ['sum' | 'avg' | 'min' | 'max' | 'count'] *)
Inductive Aggregation : Type := agg_sum | agg_avg | agg_min | agg_max | agg_count.

(** Modelled from the spec: a view names a dimension field, optionally
    a measure field, and an aggregation. *)
Record AnalyticsView : Type := {
  dimensionField : string;
  measureField : option string;
  aggregation : Aggregation
}.

Definition has_metadata (call : CallRecord) : bool :=
  match metadata call with Some _ => true | None => false end.

(** [call.metadata[k]]: reading a property of [undefined] throws. *)
Definition prop (call : CallRecord) (k : string) : res value :=
  match metadata call with
  | Some md => Ok (md_get md k)
  | None => Throw TypeError
  end.

(** [schema.fields.find(f => f.id === id)] *)
Definition findField (schema : SchemaDefinition) (id : string) : option FieldDefinition :=
  find (fun f => String.eqb (field_id f) id) (fields schema).

(** [schema.fields.find(f => f.id === view.measureField)]: no field has
    the id [undefined]. *)
Definition findFieldOpt (schema : SchemaDefinition) (id : option string) : option FieldDefinition :=
  match id with
  | Some i => findField schema i
  | None => None
  end.

(* ================================================================== *)
(** * Arrays and insertion-ordered maps *)
(* ================================================================== *)

(** [Array.prototype.sort(comparefn)].  The sort is stable and, for a
    consistent comparator, its result is unique; it is written as the
    stable insertion sort that places an element before the first one
    it compares below ([comparefn(x, e) < 0]). *)
Section Sort.
Context {A : Type} (comparefn : A -> A -> num).

Fixpoint sort_insert (x : A) (l : list A) : list A :=
  match l with
  | [] => [x]
  | e :: l' =>
      if nlt (comparefn x e) zero then x :: e :: l' else e :: sort_insert x l'
  end.

Definition Array_sort (l : list A) : list A :=
  fold_left (fun acc x => sort_insert x acc) l [].
End Sort.

(** A [Map<string, T[]>] filled by
    [if (!m.has(k)) m.set(k, []); m.get(k).push(x)]: keys keep their
    first-insertion order, each array its push order. *)
Fixpoint group_push {A : Type} (groups : list (string * list A)) (key : string) (x : A)
  : list (string * list A) :=
  match groups with
  | [] => [(key, [x])]
  | (k, xs) :: rest =>
      if String.eqb k key then (k, xs ++ [x]) :: rest
      else (k, xs) :: group_push rest key x
  end.

(** A [Map<string, number>] filled by [m.set(k, (m.get(k) || 0) + 1)]. *)
Fixpoint count_push (counts : list (string * nat)) (key : string) : list (string * nat) :=
  match counts with
  | [] => [(key, 1)]
  | (k, n) :: rest =>
      if String.eqb k key then (k, S n) :: rest
      else (k, n) :: count_push rest key
  end.

(** [s.split('T')[0]]: the part of [s] before its first ['T']. *)
Fixpoint before_T (s : string) : string :=
  match s with
  | EmptyString => EmptyString
  | String c s' => if Ascii.eqb c "T" then EmptyString else String c (before_T s')
  end.

(** [a.localeCompare(b)] on ISO dates, where it is the ordinal order. *)
Definition localeCompare (a b : string) : num :=
  match String.compare a b with
  | Lt => of_Z (-1)
  | Eq => zero
  | Gt => of_Z 1
  end.

(** [s.includes(sub)] *)
Fixpoint includes (s sub : string) : bool :=
  String.prefix sub s ||
  match s with
  | EmptyString => false
  | String _ s' => includes s' sub
  end.

(** [xs[i]] read in an arithmetic context: an index out of range gives
    [undefined], which arithmetic turns into [NaN]. *)
Definition arr_num (xs : list num) (i : num) : num :=
  match index_of i with
  | Some k => nth k xs NaN
  | None => NaN
  end.

(* ================================================================== *)
(** * Result structures *)
(* ================================================================== *)

Record GenericAnalyticResult : Type := {
  dimension : string;
  measure : num;
  count : nat;
  percentage : num
}.

Record TrendDataPoint : Type := {
  date : string;
  trend_value : num;
  trend_count : nat
}.

Inductive Strength : Type := strong | moderate | weak | none.

Record CorrelationResult : Type := {
  field1 : string;
  field2 : string;
  coefficient : num;
  strength : Strength
}.

Record ScatterPoint : Type := {
  x : num;
  y : num;
  label : option string
}.

Record HistogramBucket : Type := {
  range : string;
  bucket_count : nat;
  bucket_percentage : num
}.

Record TopValue : Type := {
  top_value : string;
  top_count : nat;
  top_percentage : num
}.

Inductive Operator : Type := eq_ | gt | lt | gte | lte | contains.

Record Filter : Type := {
  filter_fieldId : string;
  operator : Operator;
  filter_value : value
}.

Record Statistics : Type := {
  stat_count : nat;
  stat_sum : num;
  mean : num;
  median : num;
  stat_min : num;
  stat_max : num;
  stdDev : num
}.

(* ================================================================== *)
(** * GenericAnalyticsEngine *)
(* ================================================================== *)

Section Engine.
Context {host : Host}.

(** [groupCalls.reduce((sum, call) =>
      sum + (Number(call.metadata[mf]) || 0), 0)] *)
Definition sumMeasure (mf : string) (groupCalls : list CallRecord) : res num :=
  foldM (fun sum call =>
           v <- prop call mf ;;
           Ok (nadd sum (num_or (Number v) zero)))
        groupCalls zero.

(** The [switch (view.aggregation)], which [aggregateByDimension] and
    [calculateTrends] both contain, applied to one group. *)
Definition aggregateMeasure (agg : Aggregation) (mf : string)
           (groupCalls : list CallRecord) : res num :=
  let count := List.length groupCalls in
  match agg with
  | agg_sum => sumMeasure mf groupCalls
  | agg_avg =>
      total <- sumMeasure mf groupCalls ;;
      Ok (if 0 <? count then ndiv total (of_nat count) else zero)
  | agg_min =>
      xs <- mapM (fun call => v <- prop call mf ;;
                              Ok (num_or (Number v) PInf)) groupCalls ;;
      Ok (Math_min xs)
  | agg_max =>
      xs <- mapM (fun call => v <- prop call mf ;;
                              Ok (num_or (Number v) NInf)) groupCalls ;;
      Ok (Math_max xs)
  | agg_count => Ok (of_nat count)
  end.

(** The measure of one group: the declared aggregation when the
    measure field resolves, the record count otherwise. *)
Definition groupMeasure (measureFieldDef : option FieldDefinition)
           (view : AnalyticsView) (groupCalls : list CallRecord) : res num :=
  match measureFieldDef, measureField view with
  | Some _, Some mf => aggregateMeasure (aggregation view) mf groupCalls
  | _, _ => Ok (of_nat (List.length groupCalls))
  end.

(** The [calls.forEach] that fills [groups]. *)
Definition groupByDimension (calls : list CallRecord) (dimensionField : string)
  : res (list (string * list CallRecord)) :=
  foldM (fun groups call =>
           if negb (has_metadata call) then Ok groups
           else
             dimensionValue <- prop call dimensionField ;;
             let key := String_ (nullish dimensionValue (VStr "Unknown")) in
             Ok (group_push groups key call))
        calls [].

Definition aggregateByDimension (calls : list CallRecord)
           (schema : SchemaDefinition) (view : AnalyticsView)
  : res (list GenericAnalyticResult) :=
  let dimensionFieldDef := findField schema (dimensionField view) in
  let measureFieldDef := findFieldOpt schema (measureField view) in
  match dimensionFieldDef with
  | None => (* console.warn *) Ok []
  | Some _ =>
      groups <- groupByDimension calls (dimensionField view) ;;
      let totalCalls := List.length calls in
      results <-
        mapM (fun '(dimensionValue, groupCalls) =>
                let count := List.length groupCalls in
                measure <- groupMeasure measureFieldDef view groupCalls ;;
                Ok {| dimension := dimensionValue;
                      measure := measure;
                      count := count;
                      percentage :=
                        if 0 <? totalCalls
                        then nmul (ndiv (of_nat count) (of_nat totalCalls)) (of_nat 100)
                        else zero |})
             groups ;;
      Ok (Array_sort (fun a b => nsub (measure b) (measure a)) results)
  end.

(** [schema.fields.find(f => f.semanticRole === role)] *)
Definition findRole (schema : SchemaDefinition) (role : string) : option FieldDefinition :=
  find (fun f => match semanticRole f with
                 | Some r => String.eqb r role
                 | None => false
                 end) (fields schema).

Definition orElse {A : Type} (a b : option A) : option A :=
  match a with Some _ => a | None => b end.

Definition calculateTrends (calls : list CallRecord)
           (schema : SchemaDefinition) (view : AnalyticsView)
  : res (list TrendDataPoint) :=
  let timestampField :=
    orElse (findRole schema "timestamp")
           (find (fun f => String.eqb (dataType f) "date") (fields schema)) in
  match timestampField with
  | None => (* console.warn *) Ok []
  | Some tf =>
      let measureFieldDef := findFieldOpt schema (measureField view) in
      dateGroups <-
        foldM (fun groups call =>
                 if negb (has_metadata call) then Ok groups
                 else
                   v <- prop call (field_id tf) ;;
                   let timestamp := value_or v (VStr (createdAt call)) in
                   iso <- match Date_toISOString timestamp with
                          | Some s => Ok s
                          | None => Throw RangeError
                          end ;;
                   Ok (group_push groups (before_T iso) call))
              calls [] ;;
      trendData <-
        mapM (fun '(date, dateCalls) =>
                value <- groupMeasure measureFieldDef view dateCalls ;;
                Ok {| date := date;
                      trend_value := value;
                      trend_count := List.length dateCalls |})
             dateGroups ;;
      Ok (Array_sort (fun a b => localeCompare (date a) (date b)) trendData)
  end.

(** The test both [correlate] and [generateScatterData] apply to a
    pair of converted values. *)
Definition validPair (a b : num) : bool :=
  negb (isNaN a) && negb (isNaN b) && isFinite a && isFinite b.

(** The [calls.forEach] that fills [pairs] in [correlate]. *)
Definition correlationPairs (calls : list CallRecord) (field1Id field2Id : string)
  : res (list (num * num)) :=
  foldM (fun pairs call =>
           if negb (has_metadata call) then Ok pairs
           else
             v1 <- prop call field1Id ;;
             v2 <- prop call field2Id ;;
             let val1 := Number v1 in
             let val2 := Number v2 in
             if validPair val1 val2 then Ok (pairs ++ [(val1, val2)])
             else Ok pairs)
        calls [].

(** [pairs.reduce((sum, p) => sum + f(p), 0)] *)
Definition sumOver (f : num * num -> num) (pairs : list (num * num)) : num :=
  fold_left (fun sum p => nadd sum (f p)) pairs zero.

Definition pearsonNumerator (pairs : list (num * num)) : num :=
  let n := of_nat (List.length pairs) in
  let sum1 := sumOver fst pairs in
  let sum2 := sumOver snd pairs in
  let sumProduct := sumOver (fun p => nmul (fst p) (snd p)) pairs in
  nsub (nmul n sumProduct) (nmul sum1 sum2).

(** The argument of [Math.sqrt] in the denominator. *)
Definition pearsonRadicand (pairs : list (num * num)) : num :=
  let n := of_nat (List.length pairs) in
  let sum1 := sumOver fst pairs in
  let sum2 := sumOver snd pairs in
  let sum1Sq := sumOver (fun p => nmul (fst p) (fst p)) pairs in
  let sum2Sq := sumOver (fun p => nmul (snd p) (snd p)) pairs in
  nmul (nsub (nmul n sum1Sq) (nmul sum1 sum1))
       (nsub (nmul n sum2Sq) (nmul sum2 sum2)).

Definition pearsonDenominator (pairs : list (num * num)) : num :=
  Math_sqrt (pearsonRadicand pairs).

(** [denominator !== 0 ? numerator / denominator : 0] *)
Definition pearsonCoefficient (pairs : list (num * num)) : num :=
  let numerator := pearsonNumerator pairs in
  let denominator := pearsonDenominator pairs in
  if negb (neqb denominator zero) then ndiv numerator denominator else zero.

Definition interpretStrength (coefficient : num) : Strength :=
  let absCoeff := Math_abs coefficient in
  if nge absCoeff (lit 7 10) then strong
  else if nge absCoeff (lit 4 10) then moderate
  else if nge absCoeff (lit 2 10) then weak
  else none.

Definition correlate (calls : list CallRecord) (schema : SchemaDefinition)
           (field1Id field2Id : string) : res (option CorrelationResult) :=
  match findField schema field1Id, findField schema field2Id with
  | Some f1, Some f2 =>
      pairs <- correlationPairs calls field1Id field2Id ;;
      if List.length pairs <? 3 then
        Ok (Some {| field1 := displayName f1;
                    field2 := displayName f2;
                    coefficient := zero;
                    strength := none |})
      else
        let coefficient := pearsonCoefficient pairs in
        Ok (Some {| field1 := displayName f1;
                    field2 := displayName f2;
                    coefficient :=
                      ndiv (Math_round (nmul coefficient (of_nat 1000))) (of_nat 1000);
                    strength := interpretStrength coefficient |})
  | _, _ => (* console.warn *) Ok None
  end.

Definition generateScatterData (calls : list CallRecord) (schema : SchemaDefinition)
           (xFieldId yFieldId : string) : res (list ScatterPoint) :=
  match findField schema xFieldId, findField schema yFieldId with
  | Some _, Some _ =>
      let labelField :=
        orElse (findRole schema "participant_1") (findRole schema "identifier") in
      foldM (fun data call =>
               if negb (has_metadata call) then Ok data
               else
                 vx <- prop call xFieldId ;;
                 vy <- prop call yFieldId ;;
                 let x := Number vx in
                 let y := Number vy in
                 if validPair x y then
                   label <- match labelField with
                            | Some lf => v <- prop call (field_id lf) ;;
                                         Ok (Some (String_ v))
                            | None => Ok None
                            end ;;
                   Ok (data ++ [{| x := x; y := y; label := label |}])
                 else Ok data)
            calls []
  | _, _ => (* console.warn *) Ok []
  end.

(** [calls.map(call => Number(call.metadata[fieldId]))
         .filter(val => !isNaN(val) && isFinite(val))]; the metadata
    is read without the [!call.metadata] test. *)
Definition numericValues (calls : list CallRecord) (fieldId : string) : res (list num) :=
  vs <- mapM (fun call => v <- prop call fieldId ;; Ok (Number v)) calls ;;
  Ok (filter (fun val => negb (isNaN val) && isFinite val) vs).

Definition ascending (a b : num) : num := nsub a b.

Definition calculatePercentile (calls : list CallRecord) (fieldId : string)
           (percentile : num) : res (option num) :=
  vs <- numericValues calls fieldId ;;
  let values := Array_sort ascending vs in
  if List.length values =? 0 then Ok None
  else
    let len := of_nat (List.length values) in
    let index := nmul (ndiv percentile (of_nat 100)) (nsub len (of_nat 1)) in
    let lower := Math_floor index in
    let upper := Math_ceil index in
    let weight := nsub index lower in
    if nge upper len then Ok (Some (nth (List.length values - 1) values NaN))
    else if nlt lower zero then Ok (Some (nth 0 values NaN))
    else Ok (Some (nadd (nmul (arr_num values lower) (nsub (of_nat 1) weight))
                        (nmul (arr_num values upper) weight))).

(** The bounds of bucket [i] as the loop body computes them. *)
Definition rangeStart (min bucketSize : num) (i : nat) : num :=
  nadd min (nmul (of_nat i) bucketSize).

Definition rangeEnd (min max bucketSize : num) (buckets i : nat) : num :=
  if i =? buckets - 1 then max
  else nadd min (nmul (of_nat (i + 1)) bucketSize).

(** The predicate of [values.filter] in the loop body. *)
Definition inBucket (min max bucketSize : num) (buckets i : nat) (val : num) : bool :=
  nge val (rangeStart min bucketSize i) &&
  (if i =? buckets - 1
   then nle val (rangeEnd min max bucketSize buckets i)
   else nlt val (rangeEnd min max bucketSize buckets i)).

Definition bucketSizeOf (values : list num) (buckets : nat) : num :=
  ndiv (nsub (Math_max values) (Math_min values)) (of_nat buckets).

Definition histogramBucket (values : list num) (buckets i : nat) : HistogramBucket :=
  let min := Math_min values in
  let max := Math_max values in
  let bucketSize := bucketSizeOf values buckets in
  let count := List.length (filter (inBucket min max bucketSize buckets i) values) in
  {| range := toFixed1 (rangeStart min bucketSize i) ++ "-"
              ++ toFixed1 (rangeEnd min max bucketSize buckets i);
     bucket_count := count;
     bucket_percentage :=
       nmul (ndiv (of_nat count) (of_nat (List.length values))) (of_nat 100) |}.

(** [buckets] is the number of buckets, a natural number (the
    parameter defaults to 10). *)
Definition generateHistogram (calls : list CallRecord) (fieldId : string)
           (buckets : nat) : res (list HistogramBucket) :=
  values <- numericValues calls fieldId ;;
  if List.length values =? 0 then Ok []
  else Ok (map (histogramBucket values buckets) (seq 0 buckets)).

(** [limit] is a natural number (the parameter defaults to 10). *)
Definition getTopValues (calls : list CallRecord) (fieldId : string)
           (limit : nat) : res (list TopValue) :=
  valueCounts <-
    foldM (fun counts call =>
             if negb (has_metadata call) then Ok counts
             else
               v <- prop call fieldId ;;
               Ok (count_push counts (String_ (nullish v (VStr "Unknown")))))
          calls [] ;;
  let total := List.length calls in
  let results :=
    map (fun '(value, count) =>
           {| top_value := value;
              top_count := count;
              top_percentage :=
                nmul (ndiv (of_nat count) (of_nat total)) (of_nat 100) |})
        valueCounts in
  Ok (firstn limit
        (Array_sort (fun a b => nsub (of_nat (top_count b)) (of_nat (top_count a)))
                    results)).

Definition applyFilter (fieldValue : value) (f : Filter) : bool :=
  match operator f with
  | eq_ => strict_eq fieldValue (filter_value f)
  | gt => ngt (Number fieldValue) (Number (filter_value f))
  | lt => nlt (Number fieldValue) (Number (filter_value f))
  | gte => nge (Number fieldValue) (Number (filter_value f))
  | lte => nle (Number fieldValue) (Number (filter_value f))
  | contains =>
      includes (toLowerCase (String_ fieldValue))
               (toLowerCase (String_ (filter_value f)))
  end.

(** [filters.every(...)]: stops at the first filter that fails. *)
Fixpoint everyFilter (call : CallRecord) (filters : list Filter) : res bool :=
  match filters with
  | [] => Ok true
  | f :: rest =>
      fieldValue <- prop call (filter_fieldId f) ;;
      if applyFilter fieldValue f then everyFilter call rest else Ok false
  end.

Definition filterCalls (calls : list CallRecord) (filters : list Filter)
  : res (list CallRecord) :=
  foldM (fun kept call =>
           if negb (has_metadata call) then Ok kept
           else
             keep <- everyFilter call filters ;;
             Ok (if keep then kept ++ [call] else kept))
        calls [].

(** [Math.round(x * 100) / 100] *)
Definition round2 (v : num) : num :=
  ndiv (Math_round (nmul v (of_nat 100))) (of_nat 100).

Definition medianOf (sorted : list num) : num :=
  let count := List.length sorted in
  if count mod 2 =? 0
  then ndiv (nadd (nth (count / 2 - 1) sorted NaN) (nth (count / 2) sorted NaN))
            (of_nat 2)
  else nth (count / 2) sorted NaN.

Definition calculateStatistics (calls : list CallRecord) (fieldId : string)
  : res (option Statistics) :=
  values <- numericValues calls fieldId ;;
  if List.length values =? 0 then Ok None
  else
    let count := List.length values in
    let sum := fold_left nadd values zero in
    let mean := ndiv sum (of_nat count) in
    let sorted := Array_sort ascending values in
    let median := medianOf sorted in
    let min := Math_min values in
    let max := Math_max values in
    let variance :=
      ndiv (fold_left (fun sum val => nadd sum (Math_pow (nsub val mean) 2)) values zero)
           (of_nat count) in
    let stdDev := Math_sqrt variance in
    Ok (Some {| stat_count := count;
                stat_sum := round2 sum;
                mean := round2 mean;
                median := round2 median;
                stat_min := round2 min;
                stat_max := round2 max;
                stdDev := round2 stdDev |}).
End Engine.

(* ================================================================== *)
(** * The engine on binary64 numbers *)
(* ================================================================== *)

(** The operations whose results depend on rounding, embedded once
    more with every arithmetic operation of the source rounded to
    binary64.  Grouping, pair extraction and value extraction involve
    no arithmetic and are the definitions above.  The number cells of
    the records are taken to hold binary64 numbers. *)
Module Binary64.
Section Engine.
Context {host : Host}.

(** [groupCalls.reduce((sum, call) =>
      sum + (Number(call.metadata[mf]) || 0), 0)] *)
Definition sumMeasure (mf : string) (groupCalls : list CallRecord) : res num :=
  foldM (fun sum call =>
           v <- prop call mf ;;
           Ok (fadd sum (num_or (Number v) zero)))
        groupCalls zero.

Definition aggregateMeasure (agg : Aggregation) (mf : string)
           (groupCalls : list CallRecord) : res num :=
  let count := List.length groupCalls in
  match agg with
  | agg_sum => sumMeasure mf groupCalls
  | agg_avg =>
      total <- sumMeasure mf groupCalls ;;
      Ok (if 0 <? count then fdiv total (of_nat count) else zero)
  | agg_min =>
      xs <- mapM (fun call => v <- prop call mf ;;
                              Ok (num_or (Number v) PInf)) groupCalls ;;
      Ok (Math_min xs)
  | agg_max =>
      xs <- mapM (fun call => v <- prop call mf ;;
                              Ok (num_or (Number v) NInf)) groupCalls ;;
      Ok (Math_max xs)
  | agg_count => Ok (of_nat count)
  end.

Definition groupMeasure (measureFieldDef : option FieldDefinition)
           (view : AnalyticsView) (groupCalls : list CallRecord) : res num :=
  match measureFieldDef, measureField view with
  | Some _, Some mf => aggregateMeasure (aggregation view) mf groupCalls
  | _, _ => Ok (of_nat (List.length groupCalls))
  end.

(** [(count / totalCalls) * 100] *)
Definition percentageOf (count totalCalls : nat) : num :=
  fmul (fdiv (of_nat count) (of_nat totalCalls)) (of_nat 100).

Definition aggregateByDimension (calls : list CallRecord)
           (schema : SchemaDefinition) (view : AnalyticsView)
  : res (list GenericAnalyticResult) :=
  let dimensionFieldDef := findField schema (dimensionField view) in
  let measureFieldDef := findFieldOpt schema (measureField view) in
  match dimensionFieldDef with
  | None => (* console.warn *) Ok []
  | Some _ =>
      groups <- groupByDimension calls (dimensionField view) ;;
      let totalCalls := List.length calls in
      results <-
        mapM (fun '(dimensionValue, groupCalls) =>
                let count := List.length groupCalls in
                measure <- groupMeasure measureFieldDef view groupCalls ;;
                Ok {| dimension := dimensionValue;
                      measure := measure;
                      count := count;
                      percentage :=
                        if 0 <? totalCalls
                        then percentageOf count totalCalls
                        else zero |})
             groups ;;
      Ok (Array_sort (fun a b => fsub (measure b) (measure a)) results)
  end.

(** [pairs.reduce((sum, p) => sum + f(p), 0)] *)
Definition sumOver (f : num * num -> num) (pairs : list (num * num)) : num :=
  fold_left (fun sum p => fadd sum (f p)) pairs zero.

Definition pearsonNumerator (pairs : list (num * num)) : num :=
  let n := of_nat (List.length pairs) in
  let sum1 := sumOver fst pairs in
  let sum2 := sumOver snd pairs in
  let sumProduct := sumOver (fun p => fmul (fst p) (snd p)) pairs in
  fsub (fmul n sumProduct) (fmul sum1 sum2).

(** The argument of [Math.sqrt] in the denominator. *)
Definition pearsonRadicand (pairs : list (num * num)) : num :=
  let n := of_nat (List.length pairs) in
  let sum1 := sumOver fst pairs in
  let sum2 := sumOver snd pairs in
  let sum1Sq := sumOver (fun p => fmul (fst p) (fst p)) pairs in
  let sum2Sq := sumOver (fun p => fmul (snd p) (snd p)) pairs in
  fmul (fsub (fmul n sum1Sq) (fmul sum1 sum1))
       (fsub (fmul n sum2Sq) (fmul sum2 sum2)).

Definition pearsonDenominator (pairs : list (num * num)) : num :=
  Math_sqrt (pearsonRadicand pairs).

(** [denominator !== 0 ? numerator / denominator : 0] *)
Definition pearsonCoefficient (pairs : list (num * num)) : num :=
  let numerator := pearsonNumerator pairs in
  let denominator := pearsonDenominator pairs in
  if negb (neqb denominator zero) then fdiv numerator denominator else zero.

Definition interpretStrength (coefficient : num) : Strength :=
  let absCoeff := Math_abs coefficient in
  if nge absCoeff (lit64 7 10) then strong
  else if nge absCoeff (lit64 4 10) then moderate
  else if nge absCoeff (lit64 2 10) then weak
  else none.

Definition correlate (calls : list CallRecord) (schema : SchemaDefinition)
           (field1Id field2Id : string) : res (option CorrelationResult) :=
  match findField schema field1Id, findField schema field2Id with
  | Some f1, Some f2 =>
      pairs <- correlationPairs calls field1Id field2Id ;;
      if List.length pairs <? 3 then
        Ok (Some {| field1 := displayName f1;
                    field2 := displayName f2;
                    coefficient := zero;
                    strength := none |})
      else
        let coefficient := pearsonCoefficient pairs in
        Ok (Some {| field1 := displayName f1;
                    field2 := displayName f2;
                    coefficient :=
                      fdiv (Math_round (fmul coefficient (of_nat 1000))) (of_nat 1000);
                    strength := interpretStrength coefficient |})
  | _, _ => (* console.warn *) Ok None
  end.

(** [(a, b) => a - b] *)
Definition ascending (a b : num) : num := fsub a b.

Definition calculatePercentile (calls : list CallRecord) (fieldId : string)
           (percentile : num) : res (option num) :=
  vs <- numericValues calls fieldId ;;
  let values := Array_sort ascending vs in
  if List.length values =? 0 then Ok None
  else
    let len := of_nat (List.length values) in
    let index := fmul (fdiv percentile (of_nat 100)) (fsub len (of_nat 1)) in
    let lower := Math_floor index in
    let upper := Math_ceil index in
    let weight := fsub index lower in
    if nge upper len then Ok (Some (nth (List.length values - 1) values NaN))
    else if nlt lower zero then Ok (Some (nth 0 values NaN))
    else Ok (Some (fadd (fmul (arr_num values lower) (fsub (of_nat 1) weight))
                        (fmul (arr_num values upper) weight))).

(** The bounds of bucket [i] as the loop body computes them. *)
Definition rangeStart (min bucketSize : num) (i : nat) : num :=
  fadd min (fmul (of_nat i) bucketSize).

Definition rangeEnd (min max bucketSize : num) (buckets i : nat) : num :=
  if i =? buckets - 1 then max
  else fadd min (fmul (of_nat (i + 1)) bucketSize).

(** The predicate of [values.filter] in the loop body. *)
Definition inBucket (min max bucketSize : num) (buckets i : nat) (val : num) : bool :=
  nge val (rangeStart min bucketSize i) &&
  (if i =? buckets - 1
   then nle val (rangeEnd min max bucketSize buckets i)
   else nlt val (rangeEnd min max bucketSize buckets i)).

Definition bucketSizeOf (values : list num) (buckets : nat) : num :=
  fdiv (fsub (Math_max values) (Math_min values)) (of_nat buckets).

Definition histogramBucket (values : list num) (buckets i : nat) : HistogramBucket :=
  let min := Math_min values in
  let max := Math_max values in
  let bucketSize := bucketSizeOf values buckets in
  let count := List.length (filter (inBucket min max bucketSize buckets i) values) in
  {| range := toFixed1 (rangeStart min bucketSize i) ++ "-"
              ++ toFixed1 (rangeEnd min max bucketSize buckets i);
     bucket_count := count;
     bucket_percentage := percentageOf count (List.length values) |}.

Definition generateHistogram (calls : list CallRecord) (fieldId : string)
           (buckets : nat) : res (list HistogramBucket) :=
  values <- numericValues calls fieldId ;;
  if List.length values =? 0 then Ok []
  else Ok (map (histogramBucket values buckets) (seq 0 buckets)).

(** [Math.round(x * 100) / 100] *)
Definition round2 (v : num) : num :=
  fdiv (Math_round (fmul v (of_nat 100))) (of_nat 100).

Definition medianOf (sorted : list num) : num :=
  let count := List.length sorted in
  if count mod 2 =? 0
  then fdiv (fadd (nth (count / 2 - 1) sorted NaN) (nth (count / 2) sorted NaN))
            (of_nat 2)
  else nth (count / 2) sorted NaN.

Definition calculateStatistics (calls : list CallRecord) (fieldId : string)
  : res (option Statistics) :=
  values <- numericValues calls fieldId ;;
  if List.length values =? 0 then Ok None
  else
    let count := List.length values in
    let sum := fold_left fadd values zero in
    let mean := fdiv sum (of_nat count) in
    let sorted := Array_sort ascending values in
    let median := medianOf sorted in
    let min := Math_min values in
    let max := Math_max values in
    let variance :=
      fdiv (fold_left (fun sum val => fadd sum (Math_pow64 (fsub val mean) 2)) values zero)
           (of_nat count) in
    let stdDev := Math_sqrt variance in
    Ok (Some {| stat_count := count;
                stat_sum := round2 sum;
                mean := round2 mean;
                median := round2 median;
                stat_min := round2 min;
                stat_max := round2 max;
                stdDev := round2 stdDev |}).
End Engine.
End Binary64.

(* ================================================================== *)
(** * Schema detection in the import dialog *)
(* ================================================================== *)

Section Detection.
(** A parsed row, and [SchemaMapper.calculateMatchScore], which the
    import dialog calls but does not define. *)
Variable Row : Type.
Variable calculateMatchScore : Row -> SchemaDefinition -> num.

Record ScoredSchema : Type := {
  schema : option SchemaDefinition;
  score : num
}.

Definition schemaScores (row : Row) (availableSchemas : list SchemaDefinition)
  : list ScoredSchema :=
  map (fun s => {| schema := Some s; score := calculateMatchScore row s |})
      availableSchemas.

(** [schemaScores.reduce((best, current) =>
      current.score > best.score ? current : best,
      { schema: null, score: 0 })] *)
Definition bestMatch (row : Row) (availableSchemas : list SchemaDefinition)
  : ScoredSchema :=
  fold_left (fun best current =>
               if ngt (score current) (score best) then current else best)
            (schemaScores row availableSchemas)
            {| schema := None; score := zero |}.

(** The schema [detectSchema] ends up selecting: the best match when
    there is one with a score above 30, none otherwise.  For a file
    without rows the function returns before it selects anything. *)
Definition detectSchema (rows : list Row) (availableSchemas : list SchemaDefinition)
  : option SchemaDefinition :=
  match rows with
  | [] => None
  | row0 :: _ =>
      let best := bestMatch row0 availableSchemas in
      match schema best with
      | Some s => if ngt (score best) (of_nat 30) then Some s else None
      | None => None
      end
  end.
End Detection.

(* ================================================================== *)
(** * Audio URLs of imported records *)
(* ================================================================== *)

(** [s.endsWith(suffix)] *)
Fixpoint endsWith (s suffix : string) : bool :=
  String.eqb s suffix ||
  match s with
  | EmptyString => false
  | String _ s' => endsWith s' suffix
  end.

Section ImportDialog.
Context {host : Host}.

(** The predicate of [targetSchema.fields.find] in [handleImport]. *)
Definition isAudioField (f : FieldDefinition) : bool :=
  includes (toLowerCase (name f)) "audiourl" ||
  includes (toLowerCase (name f)) "audio_url" ||
  includes (toLowerCase (name f)) "filetag" ||
  includes (toLowerCase (name f)) "file_tag" ||
  includes (toLowerCase (name f)) "file".

Definition audioUrlField (targetSchema : SchemaDefinition) : option FieldDefinition :=
  find isAudioField (fields targetSchema).

(** [audioFolderPath.endsWith('/') ? audioFolderPath : `${audioFolderPath}/`] *)
Definition basePath (audioFolderPath : string) : string :=
  if endsWith audioFolderPath "/" then audioFolderPath
  else (audioFolderPath ++ "/")%string.

(** The [audioUrl] of the record built from one row, whose mapped
    metadata is [metadata]; [None] is [undefined]. *)
Definition audioUrl (audioFolderPath : string) (audioUrlField : option FieldDefinition)
           (metadata : Metadata) : option string :=
  match audioUrlField with
  | Some f =>
      if truthy (md_get metadata (name f)) then
        let audioFileName := md_get metadata (name f) in
        Some (basePath audioFolderPath ++ String_ audioFileName)%string
      else None
  | None => None
  end.
End ImportDialog.

(* ================================================================== *)
(** * Evaluation criteria *)
(* ================================================================== *)

(** [src/lib/evaluation-criteria.ts].  A criterion keeps the fields the
    functions of this file and of [analytics.ts] read; its long texts
    ([definition], [evaluationCriteria], [examples]) are only pasted
    into prompts and are left out, and the double quotes inside a
    name are written as single quotes. *)
Inductive CriterionType : Type := MustDo | MustNotDo.

Record ScoringStandard : Type := {
  standard_passed : num;
  standard_failed : num;
  standard_partial : option num
}.

Record EvaluationCriterion : Type := {
  criterion_id : nat;
  criterion_type : CriterionType;
  criterion_name : string;
  scoringStandard : ScoringStandard
}.

Definition passFail : ScoringStandard :=
  {| standard_passed := of_nat 10; standard_failed := zero; standard_partial := None |}.

Definition passPartialFail : ScoringStandard :=
  {| standard_passed := of_nat 10; standard_failed := zero;
     standard_partial := Some (of_nat 5) |}.

Definition criterion (id : nat) (type : CriterionType) (name : string)
           (standard : ScoringStandard) : EvaluationCriterion :=
  {| criterion_id := id; criterion_type := type; criterion_name := name;
     scoringStandard := standard |}.

Definition EVALUATION_CRITERIA : list EvaluationCriterion :=
  [ criterion 1 MustDo "Introduce self and company name" passFail;
    criterion 2 MustDo "Polite and timely greeting" passFail;
    criterion 3 MustDo "Mention 'This call is recorded'" passFail;
    criterion 4 MustDo "Verify borrower's name / identity" passFail;
    criterion 5 MustDo "Disclose correct lending details (OPD days and/or amount)"
              passPartialFail;
    criterion 6 MustDo "Mark correct collection status" passFail;
    criterion 7 MustDo "Script aligned with stage" passPartialFail;
    criterion 8 MustNotDo "Avoid rude, sarcastic, or aggressive tone" passFail;
    criterion 9 MustDo "End call with summary or confirmation" passFail;
    criterion 10 MustDo "Negotiation" passFail ].

(** [EVALUATION_CRITERIA.reduce((sum, c) => sum + c.scoringStandard.passed, 0)] *)
Definition getMaxScore : num :=
  fold_left (fun sum c => nadd sum (standard_passed (scoringStandard c)))
            EVALUATION_CRITERIA zero.

(** [EVALUATION_CRITERIA.find(c => c.id === id)] *)
Definition getCriterionById (id : num) : option EvaluationCriterion :=
  find (fun c => neqb (of_nat (criterion_id c)) id) EVALUATION_CRITERIA.

(* ================================================================== *)
(** * Audio storage keys *)
(* ================================================================== *)

(** [src/lib/audio-storage.ts]: [schemaId ? `${schemaId}/${callId}` : callId].
    The functions around it talk to IndexedDB and are not modelled. *)
Definition getStorageKey (callId : string) (schemaId : option string) : string :=
  match schemaId with
  | Some s => if negb (String.eqb s "") then (s ++ "/" ++ callId)%string else callId
  | None => callId
  end.

(* ================================================================== *)
(** * Evaluation analytics *)
(* ================================================================== *)

(** [src/lib/analytics.ts].  Its call records carry the evaluation a
    language model produced; the metadata is read as [metadata.agentName]
    and only there. *)
Module Analytics.
Record EvaluationResult : Type := {
  criterionId : num;
  score : num;
  passed : bool;
  evidence : string;
  reasoning : string
}.

Record CallEvaluation : Type := {
  evaluation_id : string;
  callId : string;
  evaluatedAt : string;
  totalScore : num;
  maxScore : num;
  percentage : num;
  results : list EvaluationResult;
  overallFeedback : string
}.

(** A call record as [analytics.ts] reads it: the record of the engine
    and its optional [evaluation]. *)
Record EvaluatedCall : Type := {
  record : CallRecord;
  evaluation : option CallEvaluation
}.

Inductive Trend : Type := up | down | stable.

(** [criteriaScores] is an object keyed by criterion id; it is the list
    of its entries, which [Object.entries] yields in ascending order of
    id, the order of [EVALUATION_CRITERIA]. *)
Record AgentPerformance : Type := {
  agentName : value;
  totalCalls : nat;
  averageScore : num;
  averagePercentage : num;
  criteriaScores : list (nat * num);
  trend : Trend;
  topStrengths : list nat;
  topWeaknesses : list nat
}.

Record CriteriaAnalytics : Type := {
  analytics_criterionId : nat;
  totalEvaluations : nat;
  passRate : num;
  analytics_averageScore : num;
  commonIssues : list string
}.

Record TrendPoint : Type := {
  point_date : string;
  point_score : num;
  point_count : nat
}.

Definition evaluated (c : EvaluatedCall) : bool :=
  match evaluation c with Some _ => true | None => false end.

(** Key equality of a [Map]: as [===], except that [NaN] is itself. *)
Definition sameValueZero (a b : value) : bool :=
  match a, b with
  | VNum NaN, VNum NaN => true
  | _, _ => strict_eq a b
  end.

(** A [Map<K, T[]>] filled by
    [if (!m.has(k)) m.set(k, []); m.get(k).push(x)]. *)
Fixpoint map_push {A : Type} (groups : list (value * list A)) (key : value) (x : A)
  : list (value * list A) :=
  match groups with
  | [] => [(key, [x])]
  | (k, xs) :: rest =>
      if sameValueZero k key then (k, xs ++ [x]) :: rest
      else (k, xs) :: map_push rest key x
  end.

(** [call.evaluation?.totalScore || 0] and [call.evaluation?.percentage || 0] *)
Definition totalScoreOf (c : EvaluatedCall) : num :=
  match evaluation c with Some e => num_or (totalScore e) zero | None => zero end.

Definition percentageOf (c : EvaluatedCall) : num :=
  match evaluation c with Some e => num_or (percentage e) zero | None => zero end.

(** [call.evaluation?.results.find(r => r.criterionId === criterion.id)] *)
Definition findResult (criterion : EvaluationCriterion) (c : EvaluatedCall)
  : option EvaluationResult :=
  match evaluation c with
  | Some e => find (fun r => neqb (criterionId r) (of_nat (criterion_id criterion)))
                   (results e)
  | None => None
  end.

(** [result?.score || 0] *)
Definition scoreOf (criterion : EvaluationCriterion) (c : EvaluatedCall) : num :=
  match findResult criterion c with Some r => num_or (score r) zero | None => zero end.

(** [calls.reduce((sum, c) => sum + f(c), 0)] *)
Definition sumBy {A : Type} (f : A -> num) (l : list A) : num :=
  fold_left (fun sum c => nadd sum (f c)) l zero.

(** [l.slice(-n)] and [l.slice(0, -n)] for a positive [n]. *)
Definition slice_last {A : Type} (n : nat) (l : list A) : list A :=
  skipn (List.length l - n) l.

Definition slice_front {A : Type} (n : nat) (l : list A) : list A :=
  firstn (List.length l - n) l.

(** The entry of [criteriaScores] for one criterion:
    [scores.reduce((sum, s) => sum + s, 0) / scores.length]. *)
Definition criterionScore (agentCalls : list EvaluatedCall)
           (criterion : EvaluationCriterion) : nat * num :=
  let scores := map (scoreOf criterion) agentCalls in
  (criterion_id criterion,
   ndiv (fold_left nadd scores zero) (of_nat (List.length scores))).

(** The comparator [([, a], [, b]) => b - a]. *)
Definition byScoreDesc (a b : nat * num) : num := nsub (snd b) (snd a).

Definition trendOf (agentCalls : list EvaluatedCall) : Trend :=
  let recentCalls := slice_last 5 agentCalls in
  let olderCalls := slice_front 5 agentCalls in
  let recentAvg :=
    ndiv (sumBy percentageOf recentCalls)
         (Math_max [of_nat (List.length recentCalls); of_nat 1]) in
  let olderAvg :=
    if 0 <? List.length olderCalls
    then ndiv (sumBy percentageOf olderCalls) (of_nat (List.length olderCalls))
    else recentAvg in
  if ngt recentAvg (nadd olderAvg (of_nat 5)) then up
  else if nlt recentAvg (nsub olderAvg (of_nat 5)) then down
  else stable.

(** The body of [agentMap.forEach]: the performance of one agent. *)
Definition agentPerformance (agentName : value) (agentCalls : list EvaluatedCall)
  : AgentPerformance :=
  let totalCalls := List.length agentCalls in
  let totalScore := sumBy totalScoreOf agentCalls in
  let totalPercentage := sumBy percentageOf agentCalls in
  let criteriaScores := map (criterionScore agentCalls) EVALUATION_CRITERIA in
  let sortedCriteria := Array_sort byScoreDesc criteriaScores in
  {| agentName := agentName;
     totalCalls := totalCalls;
     averageScore := ndiv totalScore (of_nat totalCalls);
     averagePercentage := ndiv totalPercentage (of_nat totalCalls);
     criteriaScores := criteriaScores;
     trend := trendOf agentCalls;
     topStrengths := map fst (firstn 3 sortedCriteria);
     topWeaknesses := map fst (slice_last 3 sortedCriteria) |}.

Definition byAveragePercentageDesc (a b : AgentPerformance) : num :=
  nsub (averagePercentage b) (averagePercentage a).

Definition calculateAgentPerformance (calls : list EvaluatedCall)
  : res (list AgentPerformance) :=
  agentMap <-
    foldM (fun agentMap call =>
             if evaluated call then
               agent <- prop (record call) "agentName" ;;
               Ok (map_push agentMap agent call)
             else Ok agentMap)
          calls [] ;;
  Ok (Array_sort byAveragePercentageDesc
        (map (fun '(agentName, agentCalls) => agentPerformance agentName agentCalls)
             agentMap)).

(** The body of [EVALUATION_CRITERIA.map] in [calculateCriteriaAnalytics]. *)
Definition criterionAnalytics (evaluatedCalls : list EvaluatedCall)
           (criterion : EvaluationCriterion) : CriteriaAnalytics :=
  let results :=
    flat_map (fun r => match r with Some r' => [r'] | None => [] end)
             (map (findResult criterion) evaluatedCalls) in
  let totalEvaluations := List.length results in
  let passedCount := List.length (filter passed results) in
  let failedResults := filter (fun r => negb (passed r)) results in
  {| analytics_criterionId := criterion_id criterion;
     totalEvaluations := totalEvaluations;
     passRate :=
       if 0 <? totalEvaluations
       then nmul (ndiv (of_nat passedCount) (of_nat totalEvaluations)) (of_nat 100)
       else zero;
     analytics_averageScore :=
       if 0 <? totalEvaluations
       then ndiv (fold_left (fun sum r => nadd sum (num_or (score r) zero)) results zero)
                 (of_nat totalEvaluations)
       else zero;
     commonIssues :=
       firstn 3 (filter (fun s => negb (String.eqb s "")) (map reasoning failedResults)) |}.

Definition calculateCriteriaAnalytics (calls : list EvaluatedCall)
  : list CriteriaAnalytics :=
  let evaluatedCalls := filter evaluated calls in
  map (criterionAnalytics evaluatedCalls) EVALUATION_CRITERIA.

(** [calls.filter(p)] for a predicate that can throw. *)
Fixpoint filterM {A : Type} (p : A -> res bool) (l : list A) : res (list A) :=
  match l with
  | [] => Ok []
  | a :: l' => b <- p a ;; kept <- filterM p l' ;; Ok (if b then a :: kept else kept)
  end.

(** A [Map<string, { total, count }>] filled by
    [if (!m.has(k)) m.set(k, { total: 0, count: 0 });
     e = m.get(k); e.total += p; e.count += 1]. *)
Fixpoint total_push (m : list (string * (num * nat))) (key : string) (p : num)
  : list (string * (num * nat)) :=
  match m with
  | [] => [(key, (nadd zero p, 0 + 1))]
  | (k, (total, count)) :: rest =>
      if String.eqb k key then (k, (nadd total p, count + 1)) :: rest
      else (k, (total, count)) :: total_push rest key p
  end.

Definition trendPointOf (entry : string * (num * nat)) : TrendPoint :=
  let '(date, (total, count)) := entry in
  {| point_date := date;
     point_score := Math_round (ndiv total (of_nat count));
     point_count := count |}.

Section Trend.
Context {host : Host}.

(** [agentName] is an optional parameter; an empty name is falsy and
    selects every evaluated call, like a missing one. *)
Definition getPerformanceTrend (calls : list EvaluatedCall) (agentName : option string)
  : res (list TrendPoint) :=
  let everyAgent := Ok (filter evaluated calls) in
  filteredCalls <-
    match agentName with
    | Some a =>
        if negb (String.eqb a "") then
          filterM (fun c => agent <- prop (record c) "agentName" ;;
                            Ok (strict_eq agent (VStr a) && evaluated c))
                  calls
        else everyAgent
    | None => everyAgent
    end ;;
  dateMap <-
    foldM (fun dateMap call =>
             iso <- match Date_toISOString (VStr (createdAt (record call))) with
                    | Some s => Ok s
                    | None => Throw RangeError
                    end ;;
             Ok (total_push dateMap (before_T iso) (percentageOf call)))
          filteredCalls [] ;;
  Ok (Array_sort (fun a b => localeCompare (point_date a) (point_date b))
                 (map trendPointOf dateMap)).
End Trend.
End Analytics.

(* ================================================================== *)
(** * A host to evaluate the engine with *)
(* ================================================================== *)

(** A small host covering plain decimal text and ISO dates, enough to
    run the engine on sample data.  No theorem below depends on it
    except the evaluations that name it. *)
Module SampleHost.
Fixpoint split_dot (s : string) : string * option string :=
  match s with
  | EmptyString => (EmptyString, None)
  | String c s' =>
      if Ascii.eqb c "." then (EmptyString, Some s')
      else let (a, b) := split_dot s' in (String c a, b)
  end.

Definition digits (s : string) : option Z :=
  match NilEmpty.uint_of_string s with
  | Some u => Some (Z.of_uint u)
  | None => None
  end.

Definition unsignedDecimal (s : string) : option Qc :=
  let (ip, fp) := split_dot s in
  match digits ip, fp with
  | Some i, None =>
      if String.eqb ip "" then None else Some (Q2Qc (inject_Z i))
  | Some i, Some f =>
      match digits f with
      | Some fr =>
          if String.eqb ip "" && String.eqb f "" then None
          else
            let d := (10 ^ Z.of_nat (String.length f))%Z in
            Some (Q2Qc ((i * d + fr) # Z.to_pos d))
      | None => None
      end
  | None, _ => None
  end.

(** [""] is 0, [[-]digits[.digits]] its value, anything else [NaN]. *)
Definition parseDecimal (s : string) : num :=
  if String.eqb s "" then zero
  else
    match s with
    | String "-" r =>
        match unsignedDecimal r with
        | Some q => Fin (- q)%Qc
        | None => NaN
        end
    | _ =>
        match unsignedDecimal s with
        | Some q => Fin q
        | None => NaN
        end
    end.

Definition showZ (z : Z) : string := NilZero.string_of_int (Z.to_int z).

Fixpoint zeros (k : nat) : string :=
  match k with
  | O => EmptyString
  | S k' => String "0" (zeros k')
  end.

Definition pad (n : nat) (s : string) : string :=
  (zeros (n - String.length s) ++ s)%string.

Fixpoint dropLastZeros (n : nat) (z : Z) : nat * Z :=
  match n with
  | O => (O, z)
  | S n' => if (z mod 10 =? 0)%Z then dropLastZeros n' (z / 10)%Z else (n, z)
  end.

(** Integers in full, other numbers with at most 16 decimals. *)
Definition showNum (v : num) : string :=
  match v with
  | NaN => "NaN"
  | PInf => "Infinity"
  | NInf => "-Infinity"
  | Fin q =>
      let a := Qabs (this q) in
      let ip := Qfloor a in
      let fr := Qfloor ((a - inject_Z ip) * inject_Z (10 ^ 16))%Q in
      let sign := if Qcltb q 0%Qc then "-" else "" in
      if (fr =? 0)%Z then (sign ++ showZ ip)%string
      else
        let (n, z) := dropLastZeros 16 fr in
        (sign ++ showZ ip ++ "." ++ pad n (showZ z))%string
  end.

Definition showFixed1 (v : num) : string :=
  match v with
  | Fin q =>
      let n := Qfloor (Qabs (this q) * inject_Z 10 + (1 # 2))%Q in
      ((if Qcltb q 0%Qc then "-" else "")
         ++ showZ (n / 10)%Z ++ "." ++ showZ (n mod 10)%Z)%string
  | _ => showNum v
  end.

(** The square root to 15 decimals, exact on squares of rationals
    with a short denominator. *)
Definition sqrtApprox (v : num) : num :=
  match v with
  | NaN | NInf => NaN
  | PInf => PInf
  | Fin q =>
      if Qcltb q 0%Qc then NaN
      else
        let n := Qnum (this q) in
        let d := Z.pos (Qden (this q)) in
        let k := (10 ^ 15)%Z in
        Fin (Q2Qc (Z.sqrt (n * d * k * k) # Z.to_pos (d * k)))
  end.

Definition isDigit (c : ascii) : bool :=
  (48 <=? nat_of_ascii c) && (nat_of_ascii c <=? 57).

Fixpoint matches (pattern s : string) : bool :=
  match pattern, s with
  | EmptyString, _ => true
  | String p pattern', String c s' =>
      (if Ascii.eqb p "d" then isDigit c else Ascii.eqb p c) && matches pattern' s'
  | String _ _, EmptyString => false
  end.

(** Accepts text that starts with [dddd-dd-dd]; a bare date is taken
    as midnight UTC. *)
Definition isoDate (v : value) : option string :=
  match v with
  | VStr s =>
      if matches "dddd-dd-dd" s then
        if String.length s =? 10 then Some (s ++ "T00:00:00.000Z")%string else Some s
      else None
  | _ => None
  end.

Definition lowerAscii (c : ascii) : ascii :=
  let n := nat_of_ascii c in
  if (65 <=? n) && (n <=? 90) then ascii_of_nat (n + 32) else c.

Fixpoint lower (s : string) : string :=
  match s with
  | EmptyString => EmptyString
  | String c s' => String (lowerAscii c) (lower s')
  end.

Definition sample : Host := {|
  StringToNumber := parseDecimal;
  NumberToString := showNum;
  Math_sqrt := sqrtApprox;
  toFixed1 := showFixed1;
  Date_toISOString := isoDate;
  toLowerCase := lower
|}.
End SampleHost.

(* ================================================================== *)
(** * Notions used to state the properties *)
(* ================================================================== *)

(** ** What the loops of the engine compute

    Each definition below reads off, without the exception plumbing,
    what one loop of the engine builds; the lemmas named [..._pure]
    further down prove that the engine computes exactly this. *)

(** The cell of a record under a key, [undefined] without metadata. *)
Definition valueOf (call : CallRecord) (k : string) : value :=
  match metadata call with
  | Some md => md_get md k
  | None => VUndefined
  end.

Definition isFin (v : num) : Prop := exists q, v = Fin q.


(** The rational behind a natural number. *)
Definition qn (n : nat) : Qc := Q2Qc (inject_Z (Z.of_nat n)).

Definition groupSizes {A : Type} (groups : list (string * list A)) : nat :=
  list_sum (map (fun g => List.length (snd g)) groups).

Section Notions.
Context {host : Host}.

(** The numeric pairs [correlate] keeps: one per record that carries
    metadata and whose two cells convert to finite numbers. *)
Definition pairsOf (calls : list CallRecord) (field1Id field2Id : string)
  : list (num * num) :=
  flat_map (fun call =>
              let val1 := Number (valueOf call field1Id) in
              let val2 := Number (valueOf call field2Id) in
              if has_metadata call && validPair val1 val2 then [(val1, val2)] else [])
           calls.

(** The group a record falls in. *)
Definition groupKey (dimensionField : string) (call : CallRecord) : string :=
  String_ (nullish (valueOf call dimensionField) (VStr "Unknown")).

(** The records of the group [key], in input order. *)
Definition members (dimensionField key : string) (calls : list CallRecord)
  : list CallRecord :=
  filter (fun call => has_metadata call && String.eqb (groupKey dimensionField call) key)
         calls.

(** The groups [groupByDimension] builds. *)
Definition groupsOf (dimensionField : string) (calls : list CallRecord)
  : list (string * list CallRecord) :=
  fold_left (fun groups call =>
               if has_metadata call
               then group_push groups (groupKey dimensionField call) call
               else groups)
            calls [].

(** What a record contributes to an aggregate: its converted measure
    cell, or [d] when that is 0 or [NaN]. *)
Definition contribution (d : num) (mf : string) (call : CallRecord) : num :=
  num_or (Number (valueOf call mf)) d.

(** A measure cell that is 0, missing or not a number: its conversion
    is 0 or [NaN]. *)
Definition blankMeasure (mf : string) (call : CallRecord) : Prop :=
  Number (valueOf call mf) = zero \/ Number (valueOf call mf) = NaN.

(** The value [aggregateMeasure] computes on records with metadata. *)
Definition aggregateOf (agg : Aggregation) (mf : string)
           (groupCalls : list CallRecord) : num :=
  let total := fold_left (fun s c => nadd s (contribution zero mf c)) groupCalls zero in
  match agg with
  | agg_sum => total
  | agg_avg =>
      if 0 <? List.length groupCalls
      then ndiv total (of_nat (List.length groupCalls)) else zero
  | agg_min => Math_min (map (contribution PInf mf) groupCalls)
  | agg_max => Math_max (map (contribution NInf mf) groupCalls)
  | agg_count => of_nat (List.length groupCalls)
  end.

(** The measure [groupMeasure] computes on records with metadata. *)
Definition measureOf (measureFieldDef : option FieldDefinition)
           (view : AnalyticsView) (groupCalls : list CallRecord) : num :=
  match measureFieldDef, measureField view with
  | Some _, Some mf => aggregateOf (aggregation view) mf groupCalls
  | _, _ => of_nat (List.length groupCalls)
  end.

(** The result row [aggregateByDimension] pushes for one group. *)
Definition groupResult (schema : SchemaDefinition) (view : AnalyticsView)
           (totalCalls : nat) (group : string * list CallRecord)
  : GenericAnalyticResult :=
  {| dimension := fst group;
     measure := measureOf (findFieldOpt schema (measureField view)) view (snd group);
     count := List.length (snd group);
     percentage :=
       if 0 <? totalCalls
       then nmul (ndiv (of_nat (List.length (snd group))) (of_nat totalCalls)) (of_nat 100)
       else zero |}.

(** The finite numbers found under a field, in input order. *)
Definition finiteValues (calls : list CallRecord) (fieldId : string) : list num :=
  filter (fun val => negb (isNaN val) && isFinite val)
         (map (fun call => Number (valueOf call fieldId)) calls).

(** What [calculateStatistics] returns from the finite values. *)
Definition statisticsOf (values : list num) : option Statistics :=
  if List.length values =? 0 then None
  else
    let count := List.length values in
    let sum := fold_left nadd values zero in
    let mean := ndiv sum (of_nat count) in
    let variance :=
      ndiv (fold_left (fun sum val => nadd sum (Math_pow (nsub val mean) 2)) values zero)
           (of_nat count) in
    Some {| stat_count := count;
            stat_sum := round2 sum;
            mean := round2 mean;
            median := round2 (medianOf (Array_sort ascending values));
            stat_min := round2 (Math_min values);
            stat_max := round2 (Math_max values);
            stdDev := round2 (Math_sqrt variance) |}.

(** The counts [getTopValues] gathers. *)
Definition countsOf (fieldId : string) (calls : list CallRecord)
  : list (string * nat) :=
  fold_left (fun counts call =>
               if has_metadata call
               then count_push counts (groupKey fieldId call)
               else counts)
            calls [].
End Notions.

(** The comparator of the final sort of [aggregateByDimension]. *)
Definition byMeasureDesc (a b : GenericAnalyticResult) : num :=
  nsub (measure b) (measure a).

(** The row [getTopValues] builds for one counted value, and the
    comparator of its sort. *)
Definition topValueOf (total : nat) (entry : string * nat) : TopValue :=
  {| top_value := fst entry;
     top_count := snd entry;
     top_percentage :=
       nmul (ndiv (of_nat (snd entry)) (of_nat total)) (of_nat 100) |}.

Definition byCountDesc (a b : TopValue) : num :=
  nsub (of_nat (top_count b)) (of_nat (top_count a)).

(** What [calculatePercentile] returns from the sorted finite values. *)
Definition interpolate (values : list num) (percentile : num) : option num :=
  if List.length values =? 0 then None
  else
    let len := of_nat (List.length values) in
    let index := nmul (ndiv percentile (of_nat 100)) (nsub len (of_nat 1)) in
    let lower := Math_floor index in
    let upper := Math_ceil index in
    let weight := nsub index lower in
    if nge upper len then Some (nth (List.length values - 1) values NaN)
    else if nlt lower zero then Some (nth 0 values NaN)
    else Some (nadd (nmul (arr_num values lower) (nsub (of_nat 1) weight))
                    (nmul (arr_num values upper) weight)).

(** The field [calculateTrends] reads dates from, and the value it
    turns into a date for a record. *)
Definition timestampFieldOf (schema : SchemaDefinition) : option FieldDefinition :=
  orElse (findRole schema "timestamp")
         (find (fun f => String.eqb (dataType f) "date") (fields schema)).

Definition timestampOf (tf : FieldDefinition) (call : CallRecord) : value :=
  value_or (valueOf call (field_id tf)) (VStr (createdAt call)).

(** ** Totals, decimals and update times *)

Definition sumCounts (results : list GenericAnalyticResult) : nat :=
  list_sum (map count results).

(** The sum of the percentages of the rows, taken exactly. *)
Definition sumPercentages (results : list GenericAnalyticResult) : num :=
  fold_left nadd (map percentage results) zero.

(** The sum of the percentages as
    [results.reduce((sum, r) => sum + r.percentage, 0)] computes it,
    every addition rounded to binary64. *)
Definition sumPercentages64 (results : list GenericAnalyticResult) : num :=
  fold_left fadd (map percentage results) zero.

(** [x] is a finite number at most [eps] away from [target]. *)
Definition within (eps target : Q) (x : num) : Prop :=
  exists a : Qc, x = Fin a /\ (Qabs (a - target) <= eps)%Q.

(** The share of [c] records among [n]. *)
Definition share (c n : nat) : Q :=
  (inject_Z (Z.of_nat c) / inject_Z (Z.of_nat n))%Q.


(** [s] was updated after [t]: both carry an update time, ISO
    timestamps being ordered as text. *)
Definition updatedAfter (s t : SchemaDefinition) : bool :=
  match updatedAt s, updatedAt t with
  | Some a, Some b => String.ltb b a
  | _, _ => false
  end.

(** No two different schemas share the top score for [row]. *)
Definition uniqueTop {Row : Type}
           (calculateMatchScore : Row -> SchemaDefinition -> num)
           (row : Row) (schemas : list SchemaDefinition) : Prop :=
  forall s t,
    In s schemas -> In t schemas ->
    neqb (calculateMatchScore row s) (calculateMatchScore row t) = true ->
    (forall u, In u schemas ->
               ngt (calculateMatchScore row u) (calculateMatchScore row s) = false) ->
    s = t.

(** ** Statements of the specification that the code does not satisfy

    They are refuted further down, next to what holds instead. *)

(** [aggregateByDimension]: the group counts add up to the number of
    records and the group percentages to 100 up to the rounding error
    [eps]. *)
Definition countsAndPercentagesAddUp {host : Host} (eps : Q) (calls : list CallRecord)
           (schema : SchemaDefinition) (view : AnalyticsView) : Prop :=
  exists results,
    Binary64.aggregateByDimension calls schema view = Ok results /\
    sumCounts results = List.length calls /\
    within eps 100 (sumPercentages results).


(** [calculatePercentile] at 50 is the median of [calculateStatistics]. *)
Definition percentile50IsMedian {host : Host} (calls : list CallRecord)
           (fieldId : string) : Prop :=
  exists p s,
    calculatePercentile calls fieldId (of_nat 50) = Ok (Some p) /\
    calculateStatistics calls fieldId = Ok (Some s) /\
    p = median s.

(** Detection: a schema that ties with the detected one was not updated
    after it. *)
Definition recentUpdateWinsTies {Row : Type}
           (calculateMatchScore : Row -> SchemaDefinition -> num)
           (rows : list Row) (schemas : list SchemaDefinition) : Prop :=
  forall row0 rest w s,
    rows = row0 :: rest ->
    detectSchema calculateMatchScore rows schemas = Some w ->
    In s schemas ->
    neqb (calculateMatchScore row0 s) (calculateMatchScore row0 w) = true ->
    updatedAfter s w = false.

(** ** Order of first appearance, filters, dates and scatter points *)

(** The keys of a list in the order of their first appearance. *)
Definition firstSeen (keys : list string) : list string :=
  fold_left (fun seen k =>
               if existsb (fun s => String.eqb s k) seen then seen else seen ++ [k])
            keys [].

(** A group reduced to its key and its size. *)
Definition sizeOf {A : Type} (g : string * list A) : string * nat :=
  (fst g, List.length (snd g)).

Section FurtherNotions.
Context {host : Host}.

(** The keys of the records that carry metadata, in input order. *)
Definition keysOf (fieldId : string) (calls : list CallRecord) : list string :=
  map (groupKey fieldId) (filter has_metadata calls).

(** A record passes a list of filters when every filter accepts the
    cell it names. *)
Definition passes (filters : list Filter) (call : CallRecord) : bool :=
  forallb (fun f => applyFilter (valueOf call (filter_fieldId f)) f) filters.

(** The calendar date [calculateTrends] files a record under, when its
    time stamp converts to a date. *)
Definition dateOf (tf : FieldDefinition) (call : CallRecord) : option string :=
  option_map before_T (Date_toISOString (timestampOf tf call)).

(** The date groups [calculateTrends] builds from the records whose
    time stamp converts. *)
Definition dateGroupsOf (tf : FieldDefinition) (calls : list CallRecord)
  : list (string * list CallRecord) :=
  fold_left (fun groups call =>
               if has_metadata call then
                 match dateOf tf call with
                 | Some d => group_push groups d call
                 | None => groups
                 end
               else groups)
            calls [].

(** The point [calculateTrends] pushes for one date group. *)
Definition trendPoint (schema : SchemaDefinition) (view : AnalyticsView)
           (group : string * list CallRecord) : TrendDataPoint :=
  {| date := fst group;
     trend_value := measureOf (findFieldOpt schema (measureField view)) view (snd group);
     trend_count := List.length (snd group) |}.

(** The field [generateScatterData] labels points with, and the point
    it pushes for a record. *)
Definition labelFieldOf (schema : SchemaDefinition) : option FieldDefinition :=
  orElse (findRole schema "participant_1") (findRole schema "identifier").

Definition scatterPoint (labelField : option FieldDefinition)
           (xFieldId yFieldId : string) (call : CallRecord) : ScatterPoint :=
  {| x := Number (valueOf call xFieldId);
     y := Number (valueOf call yFieldId);
     label := option_map (fun lf => String_ (valueOf call (field_id lf))) labelField |}.

(** The records [generateScatterData] turns into points. *)
Definition plotted (xFieldId yFieldId : string) (call : CallRecord) : bool :=
  has_metadata call &&
  validPair (Number (valueOf call xFieldId)) (Number (valueOf call yFieldId)).
End FurtherNotions.


(** ** Evaluation analytics without the exception plumbing *)

(** The agent a call is filed under. *)
Definition agentOf (c : Analytics.EvaluatedCall) : value :=
  valueOf (Analytics.record c) "agentName".

(** The map [calculateAgentPerformance] fills from the evaluated calls. *)
Definition agentsOf (calls : list Analytics.EvaluatedCall)
  : list (value * list Analytics.EvaluatedCall) :=
  fold_left (fun agentMap c =>
               if Analytics.evaluated c then Analytics.map_push agentMap (agentOf c) c
               else agentMap)
            calls [].

(** The calls [getPerformanceTrend] selects. *)
Definition selected (agentName : option string) (c : Analytics.EvaluatedCall) : bool :=
  match agentName with
  | Some a =>
      if negb (String.eqb a "")
      then strict_eq (agentOf c) (VStr a) && Analytics.evaluated c
      else Analytics.evaluated c
  | None => Analytics.evaluated c
  end.

(** The calendar date a call was created on, when its creation time is
    a date. *)
Definition creationDate {host : Host} (c : Analytics.EvaluatedCall) : option string :=
  option_map before_T (Date_toISOString (VStr (createdAt (Analytics.record c)))).

(** The totals [getPerformanceTrend] accumulates over the calls whose
    creation time is a date. *)
Definition totalsOf {host : Host} (calls : list Analytics.EvaluatedCall)
  : list (string * (num * nat)) :=
  fold_left (fun dateMap c =>
               match creationDate c with
               | Some d => Analytics.total_push dateMap d (Analytics.percentageOf c)
               | None => dateMap
               end)
            calls [].

(** A text without the character ['/']. *)
Fixpoint noSlash (s : string) : bool :=
  match s with
  | EmptyString => true
  | String c s' => negb (Ascii.eqb c "/") && noSlash s'
  end.

(** A schema id that is missing or empty selects the key without a
    schema part. *)
Definition schemaPart (schemaId : option string) : string :=
  match schemaId with Some s => s | None => "" end.

(* ================================================================== *)
(** * Sample data *)
(* ================================================================== *)

Module Samples.
Definition record (id : string) (md : Metadata) : CallRecord :=
  {| call_id := id; metadata := Some md; createdAt := "2024-03-01T09:30:00.000Z" |}.

(** A record that reached the engine without metadata. *)
Definition bare (id : string) : CallRecord :=
  {| call_id := id; metadata := None; createdAt := "2024-03-01T09:30:00.000Z" |}.

Definition field (id type : string) (role : option string) : FieldDefinition :=
  {| field_id := id; name := id; displayName := id; dataType := type;
     semanticRole := role |}.

Definition callSchema : SchemaDefinition :=
  {| schema_id := "debt-collection";
     schema_name := "Debt collection";
     version := "1.0.0";
     fields := [field "agent" "text" (Some "participant_1");
                field "product" "text" None;
                field "amount" "number" (Some "measure");
                field "days" "number" None;
                field "time" "date" (Some "timestamp")];
     updatedAt := None |}.

(** Records whose [amount] and [days] cells are the given numbers. *)
Definition numeric (amount days : num) : CallRecord :=
  record "c" [("agent", VStr "Ann"); ("amount", VNum amount); ("days", VNum days)].

(** The pairs (1,2), (2,4), (3,6). *)
Definition linear3 : list CallRecord :=
  [numeric (of_nat 1) (of_nat 2); numeric (of_nat 2) (of_nat 4);
   numeric (of_nat 3) (of_nat 6)].

(** Three records with the same [amount]. *)
Definition constant3 : list CallRecord :=
  [numeric (of_nat 5) (of_nat 2); numeric (of_nat 5) (of_nat 4);
   numeric (of_nat 5) (of_nat 9)].

(** Two usable records and one whose [days] cell is text. *)
Definition sparse3 : list CallRecord :=
  [numeric (of_nat 1) (of_nat 2); numeric (of_nat 2) (of_nat 4);
   record "c" [("amount", VNum (of_nat 3)); ("days", VStr "n/a")]].

Definition byAgent : AnalyticsView :=
  {| dimensionField := "agent"; measureField := None; aggregation := agg_count |}.

(** Dimension values A, A, B. *)
Definition aab : list CallRecord :=
  [record "c1" [("agent", VStr "A")]; record "c2" [("agent", VStr "A")];
   record "c3" [("agent", VStr "B")]].

Definition minAmountByAgent : AnalyticsView :=
  {| dimensionField := "agent"; measureField := Some "amount"; aggregation := agg_min |}.

(** Ann: amounts 0, 7, text and 4; Bob: amount 0 and a missing cell. *)
Definition mixedAmounts : list CallRecord :=
  [record "c1" [("agent", VStr "Ann"); ("amount", VNum zero)];
   record "c2" [("agent", VStr "Ann"); ("amount", VNum (of_nat 7))];
   record "c3" [("agent", VStr "Bob"); ("amount", VNum zero)];
   record "c4" [("agent", VStr "Ann"); ("amount", VStr "n/a")];
   record "c5" [("agent", VStr "Ann"); ("amount", VNum (of_nat 4))];
   record "c6" [("agent", VStr "Bob")]].

(** One record whose amount is 1.234. *)
Definition oneAmount : list CallRecord :=
  [record "c1" [("agent", VStr "Ann"); ("amount", VNum (lit 1234 1000))]].

(** Amounts 1 to 10, in a shuffled order. *)
Definition oneToTen : list CallRecord :=
  map (fun n => record "c" [("amount", VNum (of_nat n))])
      [4; 9; 1; 7; 10; 2; 6; 3; 8; 5].

(** A stand-in for [SchemaMapper.calculateMatchScore]: the share, in
    percent, of the schema's fields whose name is a column header of
    the row. *)
Definition headerMatchScore (row : Metadata) (s : SchemaDefinition) : num :=
  let matched :=
    filter (fun f => existsb (fun cell => String.eqb (fst cell) (name f)) row)
           (fields s) in
  if List.length (fields s) =? 0 then zero
  else nmul (ndiv (of_nat (List.length matched)) (of_nat (List.length (fields s))))
            (of_nat 100).

Definition headerRow : Metadata :=
  [("agent", VStr "Ann"); ("product", VStr "Loan"); ("amount", VStr "120.50");
   ("days", VStr "14"); ("time", VStr "2024-03-01")].

(** The schema as first saved, and a variant with the same fields that
    was saved later. *)
Definition olderSchema : SchemaDefinition :=
  {| schema_id := schema_id callSchema; schema_name := schema_name callSchema;
     version := version callSchema; fields := fields callSchema;
     updatedAt := Some "2024-01-10T08:00:00.000Z" |}.

Definition newerVariant : SchemaDefinition :=
  {| schema_id := "debt-collection-emea"; schema_name := "Debt collection EMEA";
     version := "1.0.0"; fields := fields callSchema;
     updatedAt := Some "2024-06-01T08:00:00.000Z" |}.

(** A schema that matches only two of the five headers. *)
Definition surveySchema : SchemaDefinition :=
  {| schema_id := "survey"; schema_name := "Survey"; version := "1.0.0";
     fields := [field "agent" "text" None; field "product" "text" None;
                field "rating" "number" None; field "comment" "text" None];
     updatedAt := Some "2024-07-01T08:00:00.000Z" |}.

Definition amountOverTime : AnalyticsView :=
  {| dimensionField := "time"; measureField := Some "amount"; aggregation := agg_sum |}.

(** A record whose [time] cell is not a date. *)
Definition undated : CallRecord :=
  record "c7" [("agent", VStr "Ann"); ("amount", VNum (of_nat 3)); ("time", VStr "n/a")].

Definition dated (id agent time : string) (amount : num) : CallRecord :=
  record id [("agent", VStr agent); ("amount", VNum amount); ("time", VStr time)].

(** Three dated records and one without a [time] cell, which falls
    back on its creation time. *)
Definition week : list CallRecord :=
  [dated "c1" "Ann" "2024-03-02T10:00:00.000Z" (of_nat 5);
   dated "c2" "Bob" "2024-03-01" (of_nat 7);
   dated "c3" "Ann" "2024-03-02T18:30:00.000Z" (lit 25 10);
   record "c4" [("agent", VStr "Cy")]].

(** Evaluated calls: a result for one criterion, an evaluation with a
    percentage, a call of an agent created at a given time. *)
Definition result (id : nat) (points : num) (ok : bool) (why : string)
  : Analytics.EvaluationResult :=
  {| Analytics.criterionId := of_nat id; Analytics.score := points;
     Analytics.passed := ok; Analytics.evidence := ""; Analytics.reasoning := why |}.

Definition evaluation (percent : num) (rs : list Analytics.EvaluationResult)
  : Analytics.CallEvaluation :=
  {| Analytics.evaluation_id := "e"; Analytics.callId := "c";
     Analytics.evaluatedAt := "2024-03-03T08:00:00.000Z";
     Analytics.totalScore := percent; Analytics.maxScore := of_nat 100;
     Analytics.percentage := percent; Analytics.results := rs;
     Analytics.overallFeedback := "" |}.

Definition evaluatedCall (agent created : string) (percent : num)
           (rs : list Analytics.EvaluationResult) : Analytics.EvaluatedCall :=
  {| Analytics.record :=
       {| call_id := "c"; metadata := Some [("agentName", VStr agent)];
          createdAt := created |};
     Analytics.evaluation := Some (evaluation percent rs) |}.

(** A call that has not been evaluated and carries no metadata. *)
Definition pendingCall (created : string) : Analytics.EvaluatedCall :=
  {| Analytics.record := {| call_id := "c"; metadata := None; createdAt := created |};
     Analytics.evaluation := None |}.

(** Ann has two evaluated calls and Bob one; one call is pending. *)
Definition team : list Analytics.EvaluatedCall :=
  [ evaluatedCall "Ann" "2024-03-02T10:00:00.000Z" (of_nat 80)
      [result 1 (of_nat 10) true ""; result 2 zero false "No greeting"];
    pendingCall "2024-03-02T11:00:00.000Z";
    evaluatedCall "Bob" "2024-03-01T09:00:00.000Z" (of_nat 60)
      [result 1 zero false "No introduction"; result 2 (of_nat 10) true ""];
    evaluatedCall "Ann" "2024-03-02T15:00:00.000Z" (of_nat 90)
      [result 1 (of_nat 10) true ""] ].

(** Three records whose [amount] is 0.07, that is the binary64 number
    nearest to 0.07, with [days] 1, 2 and 3. *)
Definition cents3 : list CallRecord :=
  [numeric (lit64 7 100) (of_nat 1); numeric (lit64 7 100) (of_nat 2);
   numeric (lit64 7 100) (of_nat 3)].

(** Records whose [amount] cells are the given numbers. *)
Definition amounts (cells : list num) : list CallRecord :=
  map (fun n => record "c" [("amount", VNum n)]) cells.

(** Amounts -1e308, 0 and 1e308. *)
Definition extremes : list CallRecord :=
  amounts [round64 (of_Z (- 10 ^ 308)); zero; round64 (of_Z (10 ^ 308))].
End Samples.

(* ================================================================== *)
(** * Numbers: basic facts *)
(* ================================================================== *)

Lemma Qceqb_eq (a b : Qc) : Qceqb a b = true <-> a = b.
Proof.
  unfold Qceqb. rewrite Qceq_alt.
  destruct (a ?= b)%Qc; split; congruence.
Qed.

Lemma Qcltb_lt (a b : Qc) : Qcltb a b = true <-> (a < b)%Qc.
Proof.
  unfold Qcltb. rewrite Qclt_alt.
  destruct (a ?= b)%Qc; split; congruence.
Qed.

Lemma Qceqb_refl (a : Qc) : Qceqb a a = true.
Proof. now apply Qceqb_eq. Qed.

Lemma Qcltb_irrefl (a : Qc) : Qcltb a a = false.
Proof.
  destruct (Qcltb a a) eqn:E; [|reflexivity].
  apply Qcltb_lt in E. now apply Qclt_not_eq in E.
Qed.

Lemma neqb_eq (a b : num) : neqb a b = true -> a = b.
Proof.
  destruct a, b; simpl; try discriminate; try reflexivity.
  intros H. apply Qceqb_eq in H. now subst.
Qed.

Lemma neqb_zero (d : num) : neqb d zero = true <-> d = zero.
Proof.
  split.
  - apply neqb_eq.
  - intros ->. unfold zero, of_Z. simpl. apply Qceqb_refl.
Qed.

Lemma nadd_comm (a b : num) : nadd a b = nadd b a.
Proof. destruct a, b; simpl; try reflexivity. f_equal. ring. Qed.


Lemma of_nat_Fin (n : nat) : of_nat n = Fin (Q2Qc (inject_Z (Z.of_nat n))).
Proof. reflexivity. Qed.

Lemma Q2Qc_inject_Z_eq (a b : Z) : Q2Qc (inject_Z a) = Q2Qc (inject_Z b) -> a = b.
Proof.
  intros H. apply Q2Qc_eq_iff in H.
  unfold Qeq, inject_Z in H. simpl in H. lia.
Qed.

Lemma Fin_inj (a b : Qc) : Fin a = Fin b -> a = b.
Proof. intros H. now injection H. Qed.

Lemma Q2Qc_plus (a b : Q) : (Q2Qc a + Q2Qc b)%Qc = Q2Qc (a + b).
Proof.
  apply Qc_is_canon. unfold Qcplus, Q2Qc. cbn [this].
  rewrite !Qred_correct. reflexivity.
Qed.

Lemma of_nat_pos_neq0 (n : nat) : 0 < n -> Q2Qc (inject_Z (Z.of_nat n)) <> 0%Qc.
Proof.
  intros Hn H. change 0%Qc with (Q2Qc (inject_Z 0)) in H.
  apply Q2Qc_inject_Z_eq in H. lia.
Qed.

(* ================================================================== *)
(** * Sums *)
(* ================================================================== *)

Lemma nadd_assoc (a b c : num) : nadd a (nadd b c) = nadd (nadd a b) c.
Proof. destruct a, b, c; simpl; try reflexivity. f_equal. ring. Qed.

Lemma nsum_fold_right (l : list num) :
  fold_left nadd l zero = fold_right nadd zero l.
Proof.
  apply fold_symmetric.
  - apply nadd_assoc.
  - intros y. apply nadd_comm.
Qed.

Lemma qn_plus (a b : nat) : qn (a + b) = (qn a + qn b)%Qc.
Proof.
  unfold qn. rewrite Q2Qc_plus. apply Q2Qc_eq_iff.
  now rewrite Nat2Z.inj_add, inject_Z_plus.
Qed.

Lemma qn_neq0 (n : nat) : 0 < n -> qn n <> 0%Qc.
Proof. apply of_nat_pos_neq0. Qed.

Lemma ndiv_Fin (a b : Qc) : b <> 0%Qc -> ndiv (Fin a) (Fin b) = Fin (a / b)%Qc.
Proof.
  intros Hb. simpl. destruct (Qceqb b 0) eqn:E; [|reflexivity].
  apply Qceqb_eq in E. contradiction.
Qed.

(** [(count / total) * 100] on natural numbers, for a positive total. *)
Lemma percentage_Fin (c t : nat) :
  0 < t ->
  nmul (ndiv (of_nat c) (of_nat t)) (of_nat 100) = Fin (qn c / qn t * qn 100)%Qc.
Proof.
  intros Ht. rewrite !of_nat_Fin. fold (qn c) (qn t) (qn 100).
  now rewrite (ndiv_Fin _ (qn_neq0 Ht)).
Qed.

(* ================================================================== *)
(** * Integers among the numbers *)
(* ================================================================== *)

Lemma Qclt_Q2Qc (a b : Q) : (Q2Qc a < Q2Qc b)%Qc <-> (a < b)%Q.
Proof. unfold Qclt, Q2Qc. cbn [this]. now rewrite !Qred_correct. Qed.

Lemma Qcltb_of_Z (a b : Z) :
  Qcltb (Q2Qc (inject_Z a)) (Q2Qc (inject_Z b)) = (a <? b)%Z.
Proof.
  destruct (Z.ltb_spec a b) as [H|H].
  - apply Qcltb_lt, Qclt_Q2Qc. now rewrite <- Zlt_Qlt.
  - destruct (Qcltb _ _) eqn:E; [|reflexivity].
    apply Qcltb_lt in E. apply -> Qclt_Q2Qc in E. rewrite <- Zlt_Qlt in E. lia.
Qed.

Lemma Qceqb_of_Z (a b : Z) :
  Qceqb (Q2Qc (inject_Z a)) (Q2Qc (inject_Z b)) = (a =? b)%Z.
Proof.
  destruct (Z.eqb_spec a b) as [->|H].
  - apply Qceqb_refl.
  - destruct (Qceqb _ _) eqn:E; [|reflexivity].
    apply Qceqb_eq, Q2Qc_inject_Z_eq in E. contradiction.
Qed.

Lemma nlt_of_Z (a b : Z) : nlt (of_Z a) (of_Z b) = (a <? b)%Z.
Proof. apply Qcltb_of_Z. Qed.

Lemma nge_of_Z (a b : Z) : nge (of_Z a) (of_Z b) = (b <=? a)%Z.
Proof.
  unfold nge, nle, of_Z. cbn [nlt neqb]. rewrite Qcltb_of_Z, Qceqb_of_Z.
  destruct (Z.ltb_spec b a), (Z.eqb_spec b a), (Z.leb_spec b a);
    simpl; try reflexivity; lia.
Qed.

Lemma Qfloor_Q2Qc (q : Q) : Qfloor (Q2Qc q) = Qfloor q.
Proof. unfold Q2Qc. cbn [this]. apply Qfloor_comp, Qred_correct. Qed.

Lemma Qceiling_Q2Qc (q : Q) : Qceiling (Q2Qc q) = Qceiling q.
Proof. unfold Q2Qc. cbn [this]. apply Qceiling_comp, Qred_correct. Qed.

Lemma index_of_of_nat (k : nat) : index_of (of_nat k) = Some k.
Proof.
  unfold index_of, of_nat, of_Z. rewrite Qfloor_Q2Qc, Qfloor_Z, Qceqb_refl.
  cbn [andb]. replace (0 <=? Z.of_nat k)%Z with true by (symmetry; apply Z.leb_le; lia).
  now rewrite Nat2Z.id.
Qed.

Lemma arr_num_of_nat (xs : list num) (k : nat) : arr_num xs (of_nat k) = nth k xs NaN.
Proof. unfold arr_num. now rewrite index_of_of_nat. Qed.

Lemma half_of_double (a : Qc) : (Q2Qc (1 # 2) * (a + a))%Qc = a.
Proof.
  apply Qc_is_canon. unfold Qcmult, Qcplus, Q2Qc. cbn [this].
  rewrite !Qred_correct. field.
Qed.

Lemma qn_1 : qn 1 = 1%Qc.
Proof. apply Qc_is_canon. reflexivity. Qed.

Lemma qn_2 : qn 2 = (1 + 1)%Qc.
Proof. apply Qc_is_canon. reflexivity. Qed.

Lemma half_inv : Q2Qc (1 # 2) = (/ (1 + 1))%Qc.
Proof. apply Qc_is_canon. reflexivity. Qed.

Lemma two_neq0 : (1 + 1)%Qc <> 0%Qc.
Proof. intros H. apply (f_equal this) in H. vm_compute in H. discriminate. Qed.

Lemma fifty_percent : (qn 50 / qn 100)%Qc = Q2Qc (1 # 2).
Proof. apply Qc_is_canon. reflexivity. Qed.

Lemma half_odd (k : Z) : Q2Qc ((2 * k + 1) # 2) = (Q2Qc (inject_Z k) + Q2Qc (1 # 2))%Qc.
Proof.
  rewrite Q2Qc_plus. apply Q2Qc_eq_iff. unfold Qeq, Qplus, inject_Z.
  cbn [Qnum Qden]. rewrite ?Pos2Z.inj_mul. lia.
Qed.

Lemma Qfloor_half_odd (k : Z) : Qfloor ((2 * k + 1) # 2) = k.
Proof. unfold Qfloor. symmetry. apply Z.div_unique with (r := 1%Z); lia. Qed.

Lemma Qceiling_half_odd (k : Z) : Qceiling ((2 * k + 1) # 2) = (k + 1)%Z.
Proof.
  unfold Qceiling, Qfloor, Qopp. cbn [Qnum Qden].
  rewrite <- (Z.div_unique (- (2 * k + 1)) 2 (- k - 1) 1); lia.
Qed.

(** The index [0.5 * (n - 1)] for an odd and for an even length. *)
Lemma index50_odd (k : nat) :
  nmul (ndiv (of_nat 50) (of_nat 100)) (nsub (of_nat (2 * k + 1)) (of_nat 1)) = of_nat k.
Proof.
  rewrite !of_nat_Fin. fold (qn 50) (qn 100) (qn (2 * k + 1)) (qn 1) (qn k).
  rewrite ndiv_Fin by (apply qn_neq0; lia). cbn [nsub nneg nadd nmul].
  apply (f_equal Fin). rewrite fifty_percent.
  replace (2 * k + 1) with (k + k + 1) by lia. rewrite !qn_plus.
  replace (qn k + qn k + qn 1 + - qn 1)%Qc with (qn k + qn k)%Qc by ring.
  apply half_of_double.
Qed.

Lemma index50_even (k : nat) :
  nmul (ndiv (of_nat 50) (of_nat 100)) (nsub (of_nat (2 * k + 2)) (of_nat 1))
  = Fin (Q2Qc ((2 * Z.of_nat k + 1) # 2)).
Proof.
  rewrite !of_nat_Fin. fold (qn 50) (qn 100) (qn (2 * k + 2)) (qn 1).
  rewrite ndiv_Fin by (apply qn_neq0; lia). cbn [nsub nneg nadd nmul].
  apply (f_equal Fin). rewrite fifty_percent, half_odd. fold (qn k).
  replace (2 * k + 2) with (k + k + 1 + 1) by lia. rewrite !qn_plus.
  replace (qn k + qn k + qn 1 + qn 1 + - qn 1)%Qc with ((qn k + qn k) + qn 1)%Qc by ring.
  rewrite Qcmult_plus_distr_r, half_of_double, qn_1. ring.
Qed.

(* ================================================================== *)
(** * Exceptions: running loops that do not throw *)
(* ================================================================== *)

Lemma mapM_pure {A B : Type} (f : A -> res B) (g : A -> B) (l : list A) :
  (forall a, In a l -> f a = Ok (g a)) -> mapM f l = Ok (map g l).
Proof.
  induction l as [|a l IH]; intros H; simpl.
  - reflexivity.
  - rewrite (H a (or_introl eq_refl)). simpl.
    rewrite IH by (intros; apply H; now right). reflexivity.
Qed.

Lemma foldM_pure {A B : Type} (f : B -> A -> res B) (g : B -> A -> B) (l : list A) :
  (forall b a, In a l -> f b a = Ok (g b a)) ->
  forall acc, foldM f l acc = Ok (fold_left g l acc).
Proof.
  induction l as [|a l IH]; intros H acc; simpl.
  - reflexivity.
  - rewrite (H acc a (or_introl eq_refl)). simpl.
    apply IH. intros; apply H; now right.
Qed.

Lemma prop_valueOf (call : CallRecord) (k : string) :
  has_metadata call = true -> prop call k = Ok (valueOf call k).
Proof.
  unfold has_metadata, prop, valueOf. destruct (metadata call); [reflexivity|discriminate].
Qed.

Lemma prop_throws (call : CallRecord) (k : string) :
  has_metadata call = false -> prop call k = Throw TypeError.
Proof.
  unfold has_metadata, prop. destruct (metadata call); [discriminate|reflexivity].
Qed.

(* ================================================================== *)
(** * Sorting rearranges *)
(* ================================================================== *)

Section SortFacts.
Context {A : Type} (comparefn : A -> A -> num).

Lemma sort_insert_perm (a : A) (l : list A) :
  Permutation (sort_insert comparefn a l) (a :: l).
Proof.
  induction l as [|e l IH]; simpl.
  - apply Permutation_refl.
  - destruct (nlt (comparefn a e) zero).
    + apply Permutation_refl.
    + eapply Permutation_trans; [apply perm_skip, IH|apply perm_swap].
Qed.

Lemma sort_fold_perm (l acc : list A) :
  Permutation (fold_left (fun acc a => sort_insert comparefn a acc) l acc) (l ++ acc).
Proof.
  revert acc. induction l as [|a l IH]; intros acc; simpl.
  - apply Permutation_refl.
  - eapply Permutation_trans; [apply IH|].
    eapply Permutation_trans; [apply Permutation_app_head, sort_insert_perm|].
    apply Permutation_sym, Permutation_middle.
Qed.

Lemma Array_sort_perm (l : list A) : Permutation (Array_sort comparefn l) l.
Proof.
  unfold Array_sort. eapply Permutation_trans; [apply sort_fold_perm|].
  rewrite app_nil_r. apply Permutation_refl.
Qed.

Lemma Array_sort_length (l : list A) :
  List.length (Array_sort comparefn l) = List.length l.
Proof. apply Permutation_length, Array_sort_perm. Qed.

Lemma Array_sort_In (l : list A) (a : A) : In a (Array_sort comparefn l) <-> In a l.
Proof.
  split; apply Permutation_in;
    [apply Array_sort_perm|apply Permutation_sym, Array_sort_perm].
Qed.
End SortFacts.

(* ================================================================== *)
(** * Insertion-ordered groups *)
(* ================================================================== *)

(** A property of the state of a left fold that holds initially and is
    kept by every step holds at the end; the property may mention the
    elements consumed so far. *)
Lemma fold_left_seen {A B : Type} (f : B -> A -> B) (P : list A -> B -> Prop) (b0 : B) :
  P [] b0 ->
  (forall seen b a, P seen b -> P (seen ++ [a]) (f b a)) ->
  forall l, P l (fold_left f l b0).
Proof.
  intros H0 Hstep l.
  enough (G : forall l seen b, P seen b -> P (seen ++ l) (fold_left f l b))
    by exact (G l [] b0 H0).
  clear l. induction l as [|a l IH]; intros seen b Hb; simpl.
  - now rewrite app_nil_r.
  - replace (seen ++ a :: l) with ((seen ++ [a]) ++ l)
      by (rewrite <- app_assoc; reflexivity).
    apply IH, Hstep, Hb.
Qed.

Lemma group_push_sizes {A : Type} (groups : list (string * list A)) (key : string) (a : A) :
  groupSizes (group_push groups key a) = S (groupSizes groups).
Proof.
  unfold groupSizes. induction groups as [|[k xs] rest IH]; simpl.
  - reflexivity.
  - destruct (String.eqb k key); simpl.
    + rewrite length_app. simpl. lia.
    + rewrite IH. lia.
Qed.

Lemma group_push_keys {A : Type} (groups : list (string * list A)) (key : string) (a : A) :
  forall k, In k (map fst (group_push groups key a)) <-> k = key \/ In k (map fst groups).
Proof.
  induction groups as [|[k0 xs] rest IH]; intros k; simpl.
  - intuition congruence.
  - destruct (String.eqb k0 key) eqn:E; simpl.
    + apply String.eqb_eq in E. subst. intuition congruence.
    + rewrite IH. intuition congruence.
Qed.

Lemma group_push_NoDup {A : Type} (groups : list (string * list A)) (key : string) (a : A) :
  NoDup (map fst groups) -> NoDup (map fst (group_push groups key a)).
Proof.
  induction groups as [|[k0 xs] rest IH]; simpl; intros Hnd.
  - constructor; [intros []|constructor].
  - destruct (String.eqb k0 key) eqn:E; simpl.
    + exact Hnd.
    + inversion Hnd as [|? ? Hnot Hrest]; subst. constructor.
      * rewrite group_push_keys. intros [->|Hin]; [|contradiction].
        now rewrite String.eqb_refl in E.
      * now apply IH.
Qed.

Lemma group_push_In {A : Type} (groups : list (string * list A)) (key : string) (a : A) :
  NoDup (map fst groups) ->
  forall k g, In (k, g) (group_push groups key a) ->
    (k <> key /\ In (k, g) groups) \/
    (k = key /\ exists g0, In (key, g0) groups /\ g = g0 ++ [a]) \/
    (k = key /\ ~ In key (map fst groups) /\ g = [a]).
Proof.
  induction groups as [|[k0 xs] rest IH]; simpl; intros Hnd k g Hin.
  - destruct Hin as [Heq|[]]. injection Heq as <- <-. right; right. tauto.
  - inversion Hnd as [|? ? Hnot Hrest]; subst.
    destruct (String.eqb k0 key) eqn:E.
    + apply String.eqb_eq in E. subst k0.
      destruct Hin as [Heq|Hin].
      * injection Heq as <- <-. right; left. split; [reflexivity|].
        exists xs. auto.
      * left. split; [|now right].
        intros ->. apply Hnot. now apply (in_map fst) in Hin.
    + apply String.eqb_neq in E.
      destruct Hin as [Heq|Hin].
      * injection Heq as <- <-. left. split; [exact E|now left].
      * destruct (IH Hrest k g Hin) as [[Hne Hi]|[[-> [g0 [Hi ->]]]|[-> [Hni ->]]]].
        -- left. split; [exact Hne|now right].
        -- right; left. split; [reflexivity|]. exists g0. auto.
        -- right; right. split; [reflexivity|]. split; [|reflexivity].
           intros [Hk|Hk]; [now apply E|now apply Hni].
Qed.

Lemma group_push_Forall {A : Type} (P : A -> Prop) (groups : list (string * list A))
      (key : string) (a : A) :
  Forall (fun g => Forall P (snd g)) groups -> P a ->
  Forall (fun g => Forall P (snd g)) (group_push groups key a).
Proof.
  intros Hg Ha. induction groups as [|[k0 xs] rest IH]; simpl.
  - repeat constructor. exact Ha.
  - inversion Hg as [|? ? Hxs Hrest]; subst.
    destruct (String.eqb k0 key); constructor; simpl in *; auto.
    apply Forall_app. split; [exact Hxs|repeat constructor; exact Ha].
Qed.

(* ================================================================== *)
(** * Reading numeric values *)
(* ================================================================== *)


Section NumericValues.
Context {host : Host}.

Lemma numericValues_pure (calls : list CallRecord) (fieldId : string) :
  Forall (fun c => has_metadata c = true) calls ->
  numericValues calls fieldId = Ok (finiteValues calls fieldId).
Proof.
  intros Hall. unfold numericValues, finiteValues.
  rewrite (mapM_pure _ (fun call => Number (valueOf call fieldId))); [reflexivity|].
  intros a Ha. rewrite Forall_forall in Hall.
  now rewrite (prop_valueOf a fieldId (Hall a Ha)).
Qed.


Lemma finiteValues_isFin (calls : list CallRecord) (fieldId : string) :
  Forall isFin (finiteValues calls fieldId).
Proof.
  unfold finiteValues. apply Forall_forall. intros v Hv.
  apply filter_In in Hv. destruct Hv as [_ Hv].
  destruct v; try discriminate. now eexists.
Qed.
End NumericValues.

(* ================================================================== *)
(** * C1: schema detection *)
(* ================================================================== *)

Lemma Qcltb_trans (a b c : Qc) : Qcltb a b = true -> Qcltb b c = true -> Qcltb a c = true.
Proof. rewrite !Qcltb_lt. apply Qclt_trans. Qed.

Lemma Qcltb_below (b s w : Qc) :
  Qcltb b w = true -> Qcltb b s = false -> Qcltb s w = true.
Proof.
  rewrite !Qcltb_lt. intros Hbw Hbs.
  apply Qcle_lt_trans with b; [|exact Hbw].
  apply Qcnot_lt_le. intros H. apply Qcltb_lt in H. congruence.
Qed.

Lemma Qc_trichotomy (a b : Qc) :
  Qcltb a b = false -> Qcltb b a = false -> Qceqb a b = true.
Proof.
  intros Hab Hba. apply Qceqb_eq. apply Qcle_antisym; apply Qcnot_lt_le;
    intros H; apply Qcltb_lt in H; congruence.
Qed.

Lemma nlt_trans (a b c : num) : nlt a b = true -> nlt b c = true -> nlt a c = true.
Proof.
  destruct a, b, c; simpl; try discriminate; try reflexivity. apply Qcltb_trans.
Qed.

Lemma nlt_irrefl (a : num) : nlt a a = false.
Proof. destruct a; simpl; try reflexivity. apply Qcltb_irrefl. Qed.

Lemma nlt_not_NaN (a b : num) : nlt a b = true -> isNaN a = false /\ isNaN b = false.
Proof. destruct a, b; simpl; try discriminate; auto. Qed.

Lemma nlt_below (b s w : num) :
  nlt b w = true -> nlt b s = false -> isNaN s = false -> nlt s w = true.
Proof.
  destruct b, s, w; simpl; try discriminate; try reflexivity.
  intros H1 H2 _. now apply Qcltb_below with q.
Qed.

Lemma num_trichotomy (a b : num) :
  nlt a b = false -> nlt b a = false -> isNaN a = false -> isNaN b = false ->
  neqb a b = true.
Proof.
  destruct a, b; simpl; try discriminate; try reflexivity. intros. now apply Qc_trichotomy.
Qed.

Lemma nlt_asym (a b : num) : nlt a b = true -> nlt b a = false.
Proof.
  intros H. destruct (nlt b a) eqn:E; [|reflexivity].
  pose proof (nlt_trans _ _ _ H E) as C. now rewrite nlt_irrefl in C.
Qed.

Lemma nlt_NaN_r (a b : num) : isNaN b = true -> nlt a b = false.
Proof. destruct a, b; simpl; try discriminate; reflexivity. Qed.

Section DetectionFacts.
Variable Row : Type.
Variable calculateMatchScore : Row -> SchemaDefinition -> num.
Variable row : Row.

Let sc (s : SchemaDefinition) : num := calculateMatchScore row s.
Let mk (s : SchemaDefinition) : ScoredSchema := {| schema := Some s; score := sc s |}.
Let pick (best current : ScoredSchema) : ScoredSchema :=
  if ngt (score current) (score best) then current else best.

(** Where the fold of [bestMatch] ends: at its starting value when no
    schema scores above it, otherwise at the first schema, in list
    order, that no other schema outscores. *)
Lemma pick_fold (l : list SchemaDefinition) (b : ScoredSchema) :
  (fold_left pick (map mk l) b = b /\
   forall s, In s l -> ngt (sc s) (score b) = false) \/
  (exists before w after,
      l = before ++ w :: after /\
      fold_left pick (map mk l) b = mk w /\
      ngt (sc w) (score b) = true /\
      (forall s, In s before -> nlt (sc s) (sc w) = true \/ isNaN (sc s) = true) /\
      (forall s, In s after -> ngt (sc s) (sc w) = false)).
Proof.
  revert b. induction l as [|s l IH]; intros b; cbn [map fold_left].
  - left. split; [reflexivity|intros s []].
  - replace (pick b (mk s)) with (if ngt (sc s) (score b) then mk s else b)
      by reflexivity.
    destruct (ngt (sc s) (score b)) eqn:E.
    + right. destruct (IH (mk s)) as [[Hr Hall]|(before & w & after & -> & Hr & Hw & Hb & Ha)].
      * exists [], s, l. split; [reflexivity|]. split; [exact Hr|].
        split; [exact E|]. split; [intros t []|exact Hall].
      * exists (s :: before), w, after. split; [reflexivity|]. split; [exact Hr|].
        cbn [score mk] in Hw. unfold ngt in *. split; [now apply nlt_trans with (sc s)|].
        split; [|exact Ha]. intros t [<-|Ht]; [now left|now apply Hb].
    + destruct (IH b) as [[Hr Hall]|(before & w & after & -> & Hr & Hw & Hb & Ha)].
      * left. split; [exact Hr|]. intros t [<-|Ht]; [exact E|now apply Hall].
      * right. exists (s :: before), w, after. split; [reflexivity|]. split; [exact Hr|].
        split; [exact Hw|]. split; [|exact Ha].
        intros t [<-|Ht]; [|now apply Hb].
        destruct (isNaN (sc s)) eqn:En; [now right|left].
        unfold ngt in *. now apply nlt_below with (score b).
Qed.

(** [bestMatch] is none when no schema scores above 0, and otherwise the
    first schema, in list order, that no other schema outscores. *)
Lemma bestMatch_first (l : list SchemaDefinition) :
  (bestMatch calculateMatchScore row l = {| schema := None; score := zero |} /\
   forall s, In s l -> ngt (sc s) zero = false) \/
  (exists before w after,
      l = before ++ w :: after /\
      bestMatch calculateMatchScore row l = mk w /\
      ngt (sc w) zero = true /\
      (forall s, In s before -> nlt (sc s) (sc w) = true \/ isNaN (sc s) = true) /\
      (forall s, In s after -> ngt (sc s) (sc w) = false)).
Proof. exact (pick_fold l {| schema := None; score := zero |}). Qed.

Lemma bestMatch_top (l : list SchemaDefinition) :
  (bestMatch calculateMatchScore row l = {| schema := None; score := zero |} /\
   forall s, In s l -> ngt (sc s) zero = false) \/
  (exists w, In w l /\ bestMatch calculateMatchScore row l = mk w /\
             ngt (sc w) zero = true /\
             forall s, In s l -> ngt (sc s) (sc w) = false).
Proof.
  destruct (bestMatch_first l) as [H|(before & w & after & -> & Hr & Hw & Hb & Ha)].
  - now left.
  - right. exists w. split; [apply in_elt|]. split; [exact Hr|]. split; [exact Hw|].
    intros s Hs. apply in_app_or in Hs. destruct Hs as [Hs|[<-|Hs]].
    + unfold ngt. destruct (Hb s Hs) as [H|H].
      * now apply nlt_asym.
      * now apply nlt_NaN_r.
    + apply nlt_irrefl.
    + now apply Ha.
Qed.

Lemma detectSchema_cons (rest : list Row) (l : list SchemaDefinition) :
  detectSchema calculateMatchScore (row :: rest) l =
  match schema (bestMatch calculateMatchScore row l) with
  | Some s =>
      if ngt (score (bestMatch calculateMatchScore row l)) (of_nat 30)
      then Some s else None
  | None => None
  end.
Proof. reflexivity. Qed.

(** C1 (amended). Detection is a function of the first row and the
    schema list: the rows after the first play no part.  Reordering the schema collection does not change the
    detected schema when no two different schemas share the top score.
    When several schemas share the top score, the one that comes first
    in the collection wins: every schema before the winner scores
    strictly less (or has no score), and no schema after it scores
    more; the time of the last update plays no part. *)
Theorem detection_order_and_ties (rest : list Row)
        (schemas schemas' : list SchemaDefinition) :
  Permutation schemas schemas' ->
  (forall rest',
      detectSchema calculateMatchScore (row :: rest') schemas
      = detectSchema calculateMatchScore (row :: rest) schemas) /\
  (uniqueTop calculateMatchScore row schemas ->
   detectSchema calculateMatchScore (row :: rest) schemas'
   = detectSchema calculateMatchScore (row :: rest) schemas) /\
  (forall w,
      detectSchema calculateMatchScore (row :: rest) schemas = Some w ->
      ngt (calculateMatchScore row w) (of_nat 30) = true /\
      exists before after,
        schemas = before ++ w :: after /\
        (forall s, In s before ->
                   nlt (calculateMatchScore row s) (calculateMatchScore row w) = true \/
                   isNaN (calculateMatchScore row s) = true) /\
        (forall s, In s after ->
                   ngt (calculateMatchScore row s) (calculateMatchScore row w) = false)).
Proof.
  intros Hperm. split; [reflexivity|]. rewrite !detectSchema_cons. split.
  - intros Huniq.
    destruct (bestMatch_top schemas) as [[Hr Hall]|(w & Hw & Hr & Hpos & Htop)];
      destruct (bestMatch_top schemas') as [[Hr' Hall']|(w' & Hw' & Hr' & Hpos' & Htop')];
      rewrite Hr, Hr'.
    + reflexivity.
    + apply (Permutation_in _ (Permutation_sym Hperm)) in Hw'.
      rewrite (Hall _ Hw') in Hpos'. discriminate.
    + apply (Permutation_in _ Hperm) in Hw.
      rewrite (Hall' _ Hw) in Hpos. discriminate.
    + assert (Hw'in : In w' schemas) by exact (Permutation_in _ (Permutation_sym Hperm) Hw').
      assert (E : w = w').
      { apply Huniq; [exact Hw|exact Hw'in| |exact Htop].
        unfold ngt in *. apply num_trichotomy.
        - apply Htop, Hw'in.
        - apply Htop', (Permutation_in _ Hperm Hw).
        - apply (nlt_not_NaN _ _ Hpos).
        - apply (nlt_not_NaN _ _ Hpos'). }
      now subst w'.
  - intros w.
    destruct (bestMatch_first schemas)
      as [[Hr _]|(before & w0 & after & -> & Hr & _ & Hb & Ha)]; rewrite Hr.
    + discriminate.
    + cbn [schema score mk]. destruct (ngt (sc w0) (of_nat 30)) eqn:E; [|discriminate].
      intros H. injection H as <-. split; [exact E|].
      exists before, after. auto.
Qed.
End DetectionFacts.

Lemma detection_order_and_ties_witness :
  detectSchema Samples.headerMatchScore [Samples.headerRow]
    [Samples.surveySchema; Samples.olderSchema]
  = detectSchema Samples.headerMatchScore [Samples.headerRow]
      [Samples.olderSchema; Samples.surveySchema] /\
  detectSchema Samples.headerMatchScore [Samples.headerRow]
    [Samples.olderSchema; Samples.surveySchema] = Some Samples.olderSchema.
Proof.
  destruct (@detection_order_and_ties Metadata Samples.headerMatchScore
              Samples.headerRow []
              [Samples.olderSchema; Samples.surveySchema]
              [Samples.surveySchema; Samples.olderSchema]
              (perm_swap _ _ _)) as [_ [Horder _]].
  split; [|vm_compute; reflexivity].
  apply Horder. intros s t Hs Ht Heq _.
  destruct Hs as [<-|[<-|[]]], Ht as [<-|[<-|[]]];
    try reflexivity; vm_compute in Heq; discriminate.
Defined.

(** C1 as stated fails on ties.  Two schemas with the same fields score
    the same; the one listed first is detected although the other was
    updated later, and listing them the other way round changes the
    result. *)
Lemma detection_tie_counterexample :
  detectSchema Samples.headerMatchScore [Samples.headerRow]
    [Samples.olderSchema; Samples.newerVariant] = Some Samples.olderSchema /\
  detectSchema Samples.headerMatchScore [Samples.headerRow]
    [Samples.newerVariant; Samples.olderSchema] = Some Samples.newerVariant /\
  updatedAfter Samples.newerVariant Samples.olderSchema = true /\
  ~ recentUpdateWinsTies Samples.headerMatchScore [Samples.headerRow]
      [Samples.olderSchema; Samples.newerVariant].
Proof.
  split; [vm_compute; reflexivity|]. split; [vm_compute; reflexivity|].
  split; [vm_compute; reflexivity|].
  intros H.
  assert (C : updatedAfter Samples.newerVariant Samples.olderSchema = false).
  { apply (H Samples.headerRow [] Samples.olderSchema Samples.newerVariant eq_refl).
    - vm_compute. reflexivity.
    - right. left. reflexivity.
    - vm_compute. reflexivity. }
  vm_compute in C. discriminate.
Qed.

(* ================================================================== *)
(** * aggregateByDimension: what it computes *)
(* ================================================================== *)

Section AggregateFacts.
Context {host : Host}.

Local Abbreviation with_metadata := (fun c : CallRecord => has_metadata c = true).

Lemma sumMeasure_pure (mf : string) (g : list CallRecord) :
  Forall with_metadata g ->
  sumMeasure mf g = Ok (fold_left (fun s c => nadd s (contribution zero mf c)) g zero).
Proof.
  intros Hg. unfold sumMeasure. apply foldM_pure.
  intros b a Ha. rewrite Forall_forall in Hg.
  now rewrite (prop_valueOf a mf (Hg a Ha)).
Qed.

Lemma aggregateMeasure_pure (agg : Aggregation) (mf : string) (g : list CallRecord) :
  Forall with_metadata g ->
  aggregateMeasure agg mf g = Ok (aggregateOf agg mf g).
Proof.
  intros Hg. pose proof Hg as Hg'. rewrite Forall_forall in Hg'.
  destruct agg; unfold aggregateMeasure, aggregateOf.
  - now apply sumMeasure_pure.
  - now rewrite (sumMeasure_pure mf Hg).
  - rewrite (mapM_pure _ (contribution PInf mf)); [reflexivity|].
    intros a Ha. now rewrite (prop_valueOf a mf (Hg' a Ha)).
  - rewrite (mapM_pure _ (contribution NInf mf)); [reflexivity|].
    intros a Ha. now rewrite (prop_valueOf a mf (Hg' a Ha)).
  - reflexivity.
Qed.

Lemma groupMeasure_pure (fd : option FieldDefinition) (view : AnalyticsView)
      (g : list CallRecord) :
  Forall with_metadata g ->
  groupMeasure fd view g = Ok (measureOf fd view g).
Proof.
  intros Hg. unfold groupMeasure, measureOf.
  destruct fd, (measureField view); try reflexivity.
  now apply aggregateMeasure_pure.
Qed.

Lemma groupByDimension_pure (calls : list CallRecord) (d : string) :
  groupByDimension calls d = Ok (groupsOf d calls).
Proof.
  unfold groupByDimension, groupsOf. apply foldM_pure.
  intros groups call _. destruct (has_metadata call) eqn:Hm; simpl.
  - now rewrite (prop_valueOf call d Hm).
  - reflexivity.
Qed.

Lemma groupsOf_metadata (d : string) (calls : list CallRecord) :
  Forall (fun g => Forall with_metadata (snd g)) (groupsOf d calls).
Proof.
  unfold groupsOf.
  apply (fold_left_seen _ (fun _ groups =>
           Forall (fun g => Forall with_metadata (snd g)) groups)).
  - constructor.
  - intros _ groups call H. destruct (has_metadata call) eqn:Hm; [|exact H].
    now apply group_push_Forall.
Qed.

Lemma filter_snoc {A : Type} (p : A -> bool) (l : list A) (a : A) :
  filter p (l ++ [a]) = filter p l ++ (if p a then [a] else []).
Proof. rewrite filter_app. reflexivity. Qed.

Lemma groupsOf_sizes (d : string) (calls : list CallRecord) :
  groupSizes (groupsOf d calls) = List.length (filter has_metadata calls).
Proof.
  unfold groupsOf.
  apply (fold_left_seen _ (fun seen groups =>
           groupSizes groups = List.length (filter has_metadata seen))).
  - reflexivity.
  - intros seen groups call H. rewrite filter_snoc, length_app.
    destruct (has_metadata call); simpl.
    + rewrite group_push_sizes, H. lia.
    + rewrite H. lia.
Qed.

(** Each group holds exactly the records with metadata that share its
    key, in input order, and no group is empty. *)
Lemma groupsOf_members (d : string) (calls : list CallRecord) :
  NoDup (map fst (groupsOf d calls)) /\
  (forall k g, In (k, g) (groupsOf d calls) -> g = members d k calls /\ g <> []) /\
  (forall k, ~ In k (map fst (groupsOf d calls)) -> members d k calls = []).
Proof.
  unfold groupsOf.
  apply (fold_left_seen _ (fun seen groups =>
           NoDup (map fst groups) /\
           (forall k g, In (k, g) groups -> g = members d k seen /\ g <> []) /\
           (forall k, ~ In k (map fst groups) -> members d k seen = []))).
  - split; [constructor|]. split; [intros k g []|reflexivity].
  - intros seen groups call (Hnd & Hin & Hout).
    unfold members in *. destruct (has_metadata call) eqn:Hm.
    + split; [now apply group_push_NoDup|]. split.
      * intros k g Hkg. rewrite filter_snoc, Hm. simpl.
        destruct (group_push_In _ _ _ Hnd _ _ Hkg)
          as [[Hne Hi]|[[-> [g0 [Hi ->]]]|[-> [Hni ->]]]].
        -- apply String.eqb_neq in Hne. rewrite String.eqb_sym in Hne.
           rewrite Hne, app_nil_r. now apply Hin.
        -- rewrite String.eqb_refl. destruct (Hin _ _ Hi) as [<- _].
           split; [reflexivity|]. now destruct g0.
        -- rewrite String.eqb_refl, (Hout _ Hni). split; [reflexivity|discriminate].
      * intros k Hk. rewrite group_push_keys in Hk.
        rewrite filter_snoc, Hm. simpl.
        destruct (String.eqb (groupKey d call) k) eqn:E.
        -- apply String.eqb_eq in E. exfalso. apply Hk. now left.
        -- rewrite app_nil_r. apply Hout. intros Hi. apply Hk. now right.
    + split; [exact Hnd|]. split.
      * intros k g Hkg. rewrite filter_snoc, Hm. simpl. rewrite app_nil_r.
        now apply Hin.
      * intros k Hk. rewrite filter_snoc, Hm. simpl. rewrite app_nil_r.
        now apply Hout.
Qed.

Lemma aggregateByDimension_pure (calls : list CallRecord) (schema : SchemaDefinition)
      (view : AnalyticsView) (fd : FieldDefinition) :
  findField schema (dimensionField view) = Some fd ->
  aggregateByDimension calls schema view =
  Ok (Array_sort byMeasureDesc
        (map (groupResult schema view (List.length calls))
             (groupsOf (dimensionField view) calls))).
Proof.
  intros Hd. unfold aggregateByDimension. rewrite Hd, groupByDimension_pure. simpl.
  rewrite (mapM_pure _ (groupResult schema view (List.length calls))); [reflexivity|].
  intros [k g] Hin.
  pose proof (groupsOf_metadata (dimensionField view) calls) as Hmeta.
  rewrite Forall_forall in Hmeta. specialize (Hmeta _ Hin). simpl in Hmeta.
  now rewrite (groupMeasure_pure _ view Hmeta).
Qed.

Lemma aggregateByDimension_unresolved (calls : list CallRecord)
      (schema : SchemaDefinition) (view : AnalyticsView) :
  findField schema (dimensionField view) = None ->
  aggregateByDimension calls schema view = Ok [].
Proof. intros Hd. unfold aggregateByDimension. now rewrite Hd. Qed.
End AggregateFacts.

(* ================================================================== *)
(** * Binary64 rounding: accuracy *)
(* ================================================================== *)

Section Rounding.
Local Open Scope Q_scope.

Lemma pow2_pos (z : Z) : 0 < pow2 z.
Proof. apply Qpower_0_lt. reflexivity. Qed.

Lemma pow2_plus (a b : Z) : pow2 (a + b) == pow2 a * pow2 b.
Proof. apply Qpower_plus. discriminate. Qed.

Lemma pow2_le (a b : Z) : (a <= b)%Z -> pow2 a <= pow2 b.
Proof. intros H. apply Qpower_le_compat_l; [exact H|]. discriminate. Qed.

Lemma pow2_Z (z : Z) : (0 <= z)%Z -> pow2 z == inject_Z (2 ^ z).
Proof. intros H. unfold pow2. rewrite (Zpower_Qpower 2 z H). reflexivity. Qed.

(** A positive integer lies between two consecutive powers of two. *)
Lemma log2_bounds (a : Z) :
  (0 < a)%Z -> pow2 (Z.log2 a) <= inject_Z a /\ inject_Z a < pow2 (Z.log2 a + 1).
Proof.
  intros Ha. destruct (Z.log2_spec a Ha) as [L U].
  pose proof (Z.log2_nonneg a) as N.
  rewrite !pow2_Z by lia. split.
  - rewrite <- Zle_Qle. exact L.
  - rewrite <- Zlt_Qlt. unfold Z.succ in U. exact U.
Qed.

Lemma ilog2_bounds (q : Q) :
  0 < q -> pow2 (ilog2 q) <= q /\ q < pow2 (ilog2 q + 1).
Proof.
  intros Hq. unfold ilog2.
  set (la := Z.log2 (Qnum q)). set (lb := Z.log2 (Zpos (Qden q))).
  assert (Ha : (0 < Qnum q)%Z).
  { unfold Qlt in Hq. cbn in Hq. lia. }
  destruct (@log2_bounds (Qnum q) Ha) as [La Ua]. fold la in La, Ua.
  destruct (@log2_bounds (Zpos (Qden q)) eq_refl) as [Lb Ub]. fold lb in Lb, Ub.
  assert (Eq : q * inject_Z (Zpos (Qden q)) == inject_Z (Qnum q)).
  { unfold Qeq, Qmult, inject_Z. cbn. lia. }
  pose proof (pow2_pos lb) as Pb. pose proof (pow2_pos (la - lb)) as Pd.
  assert (E1 : pow2 (la - lb + 1) * pow2 lb == pow2 (la + 1)).
  { rewrite <- pow2_plus. replace (la - lb + 1 + lb)%Z with (la + 1)%Z by lia. reflexivity. }
  assert (E2 : pow2 (la - lb - 1) * pow2 (lb + 1) == pow2 la).
  { rewrite <- pow2_plus. replace (la - lb - 1 + (lb + 1))%Z with la by lia. reflexivity. }
  pose proof (pow2_pos (la - lb + 1)) as P1. pose proof (pow2_pos (la - lb - 1)) as P2.
  pose proof (pow2_pos (lb + 1)) as P3.
  destruct (Qle_bool (pow2 (la - lb)) q) eqn:T.
  - apply Qle_bool_iff in T. split; [exact T|].
    apply (Qmult_lt_r _ _ (pow2 lb) Pb). rewrite E1.
    apply (Qle_lt_trans _ (q * inject_Z (Zpos (Qden q)))).
    + apply Qmult_le_l; [exact Hq | exact Lb].
    + rewrite Eq. exact Ua.
  - assert (T' : q < pow2 (la - lb)).
    { apply Qnot_le_lt. intros H. apply Qle_bool_iff in H. congruence. }
    replace (la - lb - 1 + 1)%Z with (la - lb)%Z by lia. split; [|exact T'].
    apply Qlt_le_weak. apply (Qmult_lt_r _ _ (pow2 (lb + 1)) P3). rewrite E2.
    apply (Qle_lt_trans _ (inject_Z (Qnum q))); [exact La|].
    rewrite <- Eq. apply Qmult_lt_l; [exact Hq | exact Ub].
Qed.

Lemma roundHalfEven_error (s : Q) : Qabs (inject_Z (roundHalfEven s) - s) <= 1 # 2.
Proof.
  pose proof (Qfloor_le s) as L. pose proof (Qlt_floor s) as U.
  rewrite inject_Z_plus in U. change (inject_Z 1) with 1 in U.
  apply Qabs_Qle_condition. unfold roundHalfEven.
  destruct (s - inject_Z (Qfloor s) ?= 1 # 2) eqn:C.
  - apply Qeq_alt in C. destruct (Z.even (Qfloor s)).
    + split; lra.
    + rewrite inject_Z_plus. change (inject_Z 1) with 1. split; lra.
  - apply Qlt_alt in C. split; lra.
  - apply Qgt_alt in C. rewrite inject_Z_plus. change (inject_Z 1) with 1. split; lra.
Qed.

Lemma ulp_pos (q : Q) : 0 < ulp q.
Proof. apply pow2_pos. Qed.

Lemma nearest64_half_ulp (q : Q) : Qabs (nearest64 q - q) <= ulp q * (1 # 2).
Proof.
  unfold nearest64. pose proof (ulp_pos q) as P.
  assert (E : inject_Z (roundHalfEven (q / ulp q)) * ulp q - q
              == (inject_Z (roundHalfEven (q / ulp q)) - q / ulp q) * ulp q).
  { field. lra. }
  rewrite E, Qabs_Qmult, (Qabs_pos (ulp q)) by lra.
  rewrite (Qmult_comm (ulp q)). apply Qmult_le_compat_r; [|lra].
  apply roundHalfEven_error.
Qed.

(** In the normal range the relative error is at most [2^-53]. *)
Lemma nearest64_error (q : Q) :
  pow2 (-1022) <= Qabs q -> Qabs (nearest64 q - q) <= pow2 (-53) * Qabs q.
Proof.
  intros N. pose proof (pow2_pos (-1022)) as P.
  assert (Hq : 0 < Qabs q) by lra.
  destruct (@ilog2_bounds (Qabs q) Hq) as [L U].
  assert (E : (-1022 <= ilog2 (Qabs q))%Z).
  { destruct (Z_le_gt_dec (-1022) (ilog2 (Qabs q))) as [H|H]; [exact H|].
    exfalso. pose proof (@pow2_le (ilog2 (Qabs q) + 1) (-1022) ltac:(lia)). lra. }
  apply (Qle_trans _ _ _ (nearest64_half_ulp q)).
  unfold ulp. rewrite Z.max_l by lia.
  replace (ilog2 (Qabs q) - 52)%Z with (ilog2 (Qabs q) + -52)%Z by lia.
  rewrite pow2_plus.
  assert (H53 : pow2 (-52) * (1 # 2) == pow2 (-53)) by reflexivity.
  setoid_replace (pow2 (ilog2 (Qabs q)) * pow2 (-52) * (1 # 2))
    with (pow2 (-53) * pow2 (ilog2 (Qabs q))) by (rewrite <- H53; ring).
  apply Qmult_le_l; [apply pow2_pos | exact L].
Qed.

Lemma pow2_53_lt_1 : pow2 (-53) < 1.
Proof. reflexivity. Qed.

Lemma this_Q2Qc (q : Q) : this (Q2Qc q) == q.
Proof. cbn [this Q2Qc]. apply Qred_correct. Qed.

(** Away from overflow and underflow, rounding changes a number by at
    most the fraction [2^-53] of its magnitude. *)
Lemma round64_accurate (a : Qc) :
  pow2 (-1022) <= Qabs a -> Qabs a <= pow2 1023 ->
  exists r : Qc, round64 (Fin a) = Fin r /\ Qabs (r - a) <= pow2 (-53) * Qabs a.
Proof.
  intros L U. pose proof (@nearest64_error a L) as E.
  exists (Q2Qc (nearest64 a)). split.
  - assert (B : Qabs (nearest64 a) < pow2 1024).
    { assert (E2 : pow2 1024 == 2 * pow2 1023).
      { change 1024%Z with (1 + 1023)%Z. rewrite pow2_plus. reflexivity. }
      assert (T : Qabs (nearest64 a) <= Qabs (nearest64 a - a) + Qabs a).
      { setoid_replace (nearest64 a) with ((nearest64 a - a) + a) at 1 by ring.
        apply Qabs_triangle. }
      assert (M : pow2 (-53) * Qabs a < 1 * Qabs a).
      { apply Qmult_lt_compat_r; [|exact pow2_53_lt_1].
        pose proof (pow2_pos (-1022)). lra. }
      lra. }
    apply Qabs_Qlt_condition in B. destruct B as [B1 B2].
    unfold round64. cbv zeta.
    destruct (Qle_bool (pow2 1024) (nearest64 a)) eqn:T1.
    { apply Qle_bool_iff in T1. lra. }
    destruct (Qle_bool (nearest64 a) (- pow2 1024)) eqn:T2.
    { apply Qle_bool_iff in T2. lra. }
    reflexivity.
  - rewrite this_Q2Qc. exact E.
Qed.

Lemma this_qn (n : nat) : this (qn n) == inject_Z (Z.of_nat n).
Proof. unfold qn. apply this_Q2Qc. Qed.

Lemma this_Qcdiv (x y : Qc) : this (x / y)%Qc == this x / this y.
Proof.
  unfold Qcdiv, Qcmult, Qcinv. rewrite this_Q2Qc. rewrite this_Q2Qc. reflexivity.
Qed.

Lemma this_Qcmult (x y : Qc) : this (x * y)%Qc == this x * this y.
Proof. unfold Qcmult. apply this_Q2Qc. Qed.

Lemma this_Qcplus (x y : Qc) : this (x + y)%Qc == this x + this y.
Proof. unfold Qcplus. apply this_Q2Qc. Qed.

Lemma share_bounds (c n : nat) :
  (1 <= c)%nat -> (c <= n)%nat -> (Z.of_nat n < 2 ^ 53)%Z ->
  pow2 (-53) <= share c n /\ share c n <= 1.
Proof.
  intros Hc Hn Hb. unfold share.
  assert (C1 : 1 <= inject_Z (Z.of_nat c)).
  { change 1 with (inject_Z 1). rewrite <- Zle_Qle. lia. }
  assert (CN : inject_Z (Z.of_nat c) <= inject_Z (Z.of_nat n)).
  { rewrite <- Zle_Qle. lia. }
  assert (NB : inject_Z (Z.of_nat n) < pow2 53).
  { rewrite pow2_Z by lia. rewrite <- Zlt_Qlt. exact Hb. }
  assert (N0 : 0 < inject_Z (Z.of_nat n)) by lra.
  assert (P : pow2 (-53) * pow2 53 == 1).
  { rewrite <- pow2_plus. reflexivity. }
  pose proof (pow2_pos (-53)) as U0.
  split.
  - apply Qle_shift_div_l; [exact N0|].
    apply (Qle_trans _ (pow2 (-53) * pow2 53)); [|lra].
    apply Qmult_le_l; [exact U0|]. apply Qlt_le_weak. exact NB.
  - apply Qle_shift_div_r; [exact N0|]. lra.
Qed.

(** [(count / totalCalls) * 100] in binary64 is the exact percentage up
    to the relative error of two roundings. *)
Lemma percentageOf_accurate (c n : nat) :
  (1 <= c)%nat -> (c <= n)%nat -> (Z.of_nat n < 2 ^ 53)%Z ->
  exists p : Qc,
    Binary64.percentageOf c n = Fin p /\
    Qabs (p - 100 * share c n) <= 300 * pow2 (-53) * share c n.
Proof.
  intros Hc Hn Hb. destruct (share_bounds Hc Hn Hb) as [S0 S1].
  pose proof (pow2_pos (-53)) as U0. pose proof pow2_53_lt_1 as U1.
  pose proof (@pow2_le (-1022) (-53) ltac:(lia)) as Pmin.
  pose proof (@pow2_le 8 1023 ltac:(lia)) as Pmax.
  assert (P8 : pow2 8 == 256) by reflexivity.
  unfold Binary64.percentageOf, fdiv, fmul.
  rewrite !of_nat_Fin. fold (qn c) (qn n) (qn 100).
  rewrite (@ndiv_Fin (qn c) (qn n)) by (apply qn_neq0; lia).
  assert (Es : this (qn c / qn n)%Qc == share c n).
  { rewrite this_Qcdiv, !this_qn. reflexivity. }
  destruct (@round64_accurate (qn c / qn n)%Qc) as (x & Ex & Hx).
  { rewrite Es, Qabs_pos by lra. lra. }
  { rewrite Es, Qabs_pos by lra. lra. }
  rewrite Ex. rewrite Es, (Qabs_pos (share c n)) in Hx by lra.
  apply Qabs_Qle_condition in Hx.
  set (e := pow2 (-53) * share c n) in *.
  assert (E0 : 0 <= e) by (apply Qmult_le_0_compat; lra).
  assert (E1 : e <= (1 # 2) * share c n).
  { unfold e. apply Qmult_le_compat_r; [|lra].
    assert (H : pow2 (-53) <= 1 # 2) by discriminate. exact H. }
  cbn [nmul].
  assert (Ea : this (x * qn 100)%Qc == this x * 100).
  { rewrite this_Qcmult, this_qn. reflexivity. }
  assert (X0 : 0 <= this x) by lra.
  destruct (@round64_accurate (x * qn 100)%Qc) as (p & Ep & Hp).
  { rewrite Ea, Qabs_pos by lra. lra. }
  { rewrite Ea, Qabs_pos by lra. lra. }
  exists p. split; [exact Ep|].
  rewrite Ea, (Qabs_pos (this x * 100)) in Hp by lra.
  apply Qabs_Qle_condition in Hp.
  assert (UX : pow2 (-53) * (this x * 100) <= 200 * e).
  { assert (M1 : pow2 (-53) * this x <= pow2 (-53) * (share c n + e)).
    { apply Qmult_le_l; lra. }
    assert (M2 : pow2 (-53) * e <= 1 * e).
    { apply Qmult_le_compat_r; lra. }
    fold e in M1.
    setoid_replace (pow2 (-53) * (share c n + e)) with (e + pow2 (-53) * e) in M1
      by (unfold e; ring).
    setoid_replace (pow2 (-53) * (this x * 100)) with (100 * (pow2 (-53) * this x))
      by ring.
    lra. }
  apply Qabs_Qle_condition.
  setoid_replace (300 * pow2 (-53) * share c n) with (300 * e) by (unfold e; ring).
  lra.
Qed.

Lemma share_plus (a b n : nat) : share (a + b) n == share a n + share b n.
Proof.
  unfold share. rewrite Nat2Z.inj_add, inject_Z_plus. unfold Qdiv. ring.
Qed.

Lemma share_all (n : nat) : (1 <= n)%nat -> share n n == 1.
Proof.
  intros H. unfold share. apply Qmult_inv_r.
  intros E. unfold Qeq, inject_Z in E. cbn in E. lia.
Qed.

(** The exact sum of the binary64 percentages of groups of sizes [cs]
    among [n] records. *)
Lemma sum_percentages_accurate (n : nat) (cs : list nat) :
  Forall (fun c => (1 <= c)%nat) cs -> (list_sum cs <= n)%nat ->
  (Z.of_nat n < 2 ^ 53)%Z ->
  exists t : Qc,
    fold_right nadd zero (map (fun c => Binary64.percentageOf c n) cs) = Fin t /\
    Qabs (t - 100 * share (list_sum cs) n) <= 300 * pow2 (-53) * share (list_sum cs) n.
Proof.
  intros Hc Hs Hb. induction Hc as [|c cs Hc1 Hc IH].
  - exists 0%Qc. split; [reflexivity|].
    cbn [list_sum fold_right]. unfold share. cbn. discriminate.
  - change (list_sum (c :: cs)) with (c + list_sum cs)%nat in Hs.
    destruct IH as (t & Et & Ht); [lia|].
    destruct (@percentageOf_accurate c n Hc1 ltac:(lia) Hb) as (p & Ep & Hp).
    exists (p + t)%Qc. cbn [map fold_right]. rewrite Et, Ep. split; [reflexivity|].
    change (list_sum (c :: cs)) with (c + list_sum cs)%nat.
    rewrite share_plus, this_Qcplus.
    apply Qabs_Qle_condition in Ht. apply Qabs_Qle_condition in Hp.
    apply Qabs_Qle_condition. lra.
Qed.

Lemma share_le_1 (m n : nat) : (m <= n)%nat -> 0 <= share m n /\ share m n <= 1.
Proof.
  intros H. unfold share.
  assert (M0 : 0 <= inject_Z (Z.of_nat m)).
  { change 0 with (inject_Z 0). rewrite <- Zle_Qle. lia. }
  destruct (Nat.eq_dec n 0) as [->|N].
  - replace m with 0%nat by lia. split; discriminate.
  - assert (N0 : 0 < inject_Z (Z.of_nat n)).
    { change 0 with (inject_Z 0). rewrite <- Zlt_Qlt. lia. }
    assert (MN : inject_Z (Z.of_nat m) <= inject_Z (Z.of_nat n)).
    { rewrite <- Zle_Qle. lia. }
    split.
    + apply Qle_shift_div_l; [exact N0|]. lra.
    + apply Qle_shift_div_r; [exact N0|]. lra.
Qed.

(** The sum of the binary64 percentages taken in binary64, from left
    to right, starting from [acc]: each addition adds a rounding error. *)
Lemma fsum_percentages_accurate (n : nat) (cs : list nat) :
  (Z.of_nat n < 2 ^ 32)%Z ->
  Forall (fun c => (1 <= c)%nat) cs ->
  forall (acc : Qc) (m j : nat),
    (m + list_sum cs <= n)%nat -> (j + List.length cs <= n)%nat ->
    0 <= acc ->
    Qabs (acc - 100 * share m n) <= inject_Z (Z.of_nat j) * (502 * pow2 (-53)) ->
    exists s : Qc,
      fold_left fadd (map (fun c => Binary64.percentageOf c n) cs) (Fin acc) = Fin s /\
      Qabs (s - 100 * share (m + list_sum cs) n)
      <= inject_Z (Z.of_nat (j + List.length cs)) * (502 * pow2 (-53)).
Proof.
  intros Hb Hc. induction Hc as [|c cs Hc1 Hc IH]; intros acc m j Hm Hj A0 HA.
  - exists acc. split; [reflexivity|].
    cbn [list_sum List.length]. rewrite !Nat.add_0_r. exact HA.
  - change (list_sum (c :: cs)) with (c + list_sum cs)%nat in *.
    change (List.length (c :: cs)) with (S (List.length cs)) in *.
    pose proof (pow2_pos (-53)) as U0. pose proof pow2_53_lt_1 as U1.
    assert (U300 : 300 * pow2 (-53) <= 1) by discriminate.
    assert (K32 : pow2 32 * (502 * pow2 (-53)) <= 1) by discriminate.
    assert (J32 : inject_Z (Z.of_nat j) <= pow2 32).
    { rewrite pow2_Z by lia. rewrite <- Zle_Qle. lia. }
    assert (J0 : 0 <= inject_Z (Z.of_nat j)).
    { change 0 with (inject_Z 0). rewrite <- Zle_Qle. lia. }
    assert (JK : inject_Z (Z.of_nat j) * (502 * pow2 (-53)) <= 1).
    { apply (Qle_trans _ (pow2 32 * (502 * pow2 (-53)))); [|exact K32].
      apply Qmult_le_compat_r; [exact J32 | lra]. }
    destruct (@share_le_1 m n ltac:(lia)) as [M0 M1].
    destruct (@share_bounds c n Hc1 ltac:(lia) ltac:(lia)) as [C0 C1].
    destruct (@percentageOf_accurate c n Hc1 ltac:(lia) ltac:(lia)) as (p & Ep & Hp).
    apply Qabs_Qle_condition in Hp. apply Qabs_Qle_condition in HA.
    assert (UC : 300 * pow2 (-53) * share c n <= 1 * share c n).
    { apply Qmult_le_compat_r; lra. }
    assert (UC' : 300 * pow2 (-53) * share c n <= 300 * pow2 (-53) * 1).
    { apply Qmult_le_l; lra. }
    cbn [map fold_left]. rewrite Ep. unfold fadd at 2. cbn [nadd].
    assert (Ey : this (acc + p)%Qc == this acc + this p) by apply this_Qcplus.
    pose proof (@pow2_le (-1022) (-53) ltac:(lia)) as Pmin.
    pose proof (@pow2_le 8 1023 ltac:(lia)) as Pmax.
    assert (P8 : pow2 8 == 256) by reflexivity.
    destruct (@round64_accurate (acc + p)%Qc) as (s1 & Es & Hs).
    { rewrite Ey, Qabs_pos by lra. lra. }
    { rewrite Ey, Qabs_pos by lra. lra. }
    rewrite Es. rewrite Ey, (Qabs_pos (this acc + this p)) in Hs by lra.
    apply Qabs_Qle_condition in Hs.
    assert (UY : pow2 (-53) * (this acc + this p) <= 202 * pow2 (-53)).
    { rewrite (Qmult_comm 202). apply Qmult_le_l; lra. }
    assert (UY1 : pow2 (-53) * (this acc + this p) <= 1 * (this acc + this p)).
    { apply Qmult_le_compat_r; lra. }
    destruct (IH s1 (m + c)%nat (S j)) as (s & Efold & Hfold).
    + lia.
    + lia.
    + lra.
    + rewrite share_plus. apply Qabs_Qle_condition.
      rewrite Nat2Z.inj_succ. unfold Z.succ. rewrite inject_Z_plus.
      change (inject_Z 1) with 1. lra.
    + exists s. split; [exact Efold|].
      replace (m + (c + list_sum cs))%nat with (m + c + list_sum cs)%nat by lia.
      replace (j + S (List.length cs))%nat with (S j + List.length cs)%nat by lia.
      exact Hfold.
Qed.
End Rounding.

(* ================================================================== *)
(** * Binary64 rounding: order and exact results *)
(* ================================================================== *)

Section RoundingOrder.
Local Open Scope Q_scope.

Lemma roundHalfEven_comp (s t : Q) : s == t -> roundHalfEven s = roundHalfEven t.
Proof.
  intros E. unfold roundHalfEven. rewrite (Qfloor_comp _ _ E).
  assert (C : (s - inject_Z (Qfloor t) ?= 1 # 2) = (t - inject_Z (Qfloor t) ?= 1 # 2)).
  { apply Qcompare_comp; [rewrite E|]; reflexivity. }
  rewrite C. reflexivity.
Qed.

Lemma roundHalfEven_Z (z : Z) : roundHalfEven (inject_Z z) = z.
Proof.
  unfold roundHalfEven. rewrite Qfloor_Z.
  assert (C : (inject_Z z - inject_Z z ?= 1 # 2) = Lt).
  { apply -> Qlt_alt. lra. }
  rewrite C. reflexivity.
Qed.

(** Rounding goes to the integer below, or to the one above when the
    fraction is at least a half. *)
Lemma roundHalfEven_cases (s : Q) :
  roundHalfEven s = Qfloor s \/
  (roundHalfEven s = (Qfloor s + 1)%Z /\ 1 # 2 <= s - inject_Z (Qfloor s)).
Proof.
  unfold roundHalfEven. destruct (s - inject_Z (Qfloor s) ?= 1 # 2) eqn:C.
  - apply Qeq_alt in C. destruct (Z.even (Qfloor s)); [left; reflexivity|].
    right. split; [reflexivity|]. lra.
  - left. reflexivity.
  - apply Qgt_alt in C. right. split; [reflexivity|]. lra.
Qed.

Lemma roundHalfEven_le_Z (s : Q) (k : Z) : s <= inject_Z k -> (roundHalfEven s <= k)%Z.
Proof.
  intros H. pose proof (Qfloor_le s) as L.
  destruct (roundHalfEven_cases s) as [->|[-> F]].
  - rewrite Zle_Qle. lra.
  - assert (I : inject_Z (Qfloor s) < inject_Z k) by lra.
    rewrite <- Zlt_Qlt in I. lia.
Qed.

Lemma roundHalfEven_ge_Z (s : Q) (k : Z) : inject_Z k <= s -> (k <= roundHalfEven s)%Z.
Proof.
  intros H. apply Qfloor_resp_le in H. rewrite Qfloor_Z in H.
  destruct (roundHalfEven_cases s) as [->|[-> _]]; lia.
Qed.

Lemma roundHalfEven_mono (s t : Q) : s <= t -> (roundHalfEven s <= roundHalfEven t)%Z.
Proof.
  intros H. pose proof (Qfloor_resp_le _ _ H) as F.
  destruct (Z.eq_dec (Qfloor s) (Qfloor t)) as [E|N].
  - unfold roundHalfEven. rewrite E.
    destruct (s - inject_Z (Qfloor t) ?= 1 # 2) eqn:Cs;
      destruct (t - inject_Z (Qfloor t) ?= 1 # 2) eqn:Ct;
      try (destruct (Z.even (Qfloor t))); try lia; exfalso;
      first [apply Qeq_alt in Cs | apply Qlt_alt in Cs | apply Qgt_alt in Cs];
      first [apply Qeq_alt in Ct | apply Qlt_alt in Ct | apply Qgt_alt in Ct];
      lra.
  - destruct (roundHalfEven_cases s) as [->|[-> _]];
      destruct (roundHalfEven_cases t) as [->|[-> _]]; lia.
Qed.

Lemma Qfloor_unique (x : Q) (z : Z) :
  inject_Z z <= x -> x < inject_Z z + 1 -> Qfloor x = z.
Proof.
  intros L U. pose proof (Qfloor_le x) as L'. pose proof (Qlt_floor x) as U'.
  rewrite inject_Z_plus in U'. change (inject_Z 1) with 1 in U'.
  assert (A : inject_Z z < inject_Z (Qfloor x + 1)).
  { rewrite inject_Z_plus. change (inject_Z 1) with 1. lra. }
  assert (B : inject_Z (Qfloor x) < inject_Z (z + 1)).
  { rewrite inject_Z_plus. change (inject_Z 1) with 1. lra. }
  rewrite <- Zlt_Qlt in A. rewrite <- Zlt_Qlt in B. lia.
Qed.

(** Ties to even is symmetric around zero. *)
Lemma roundHalfEven_opp (s : Q) : roundHalfEven (- s) = (- roundHalfEven s)%Z.
Proof.
  pose proof (Qfloor_le s) as L. pose proof (Qlt_floor s) as U.
  rewrite inject_Z_plus in U. change (inject_Z 1) with 1 in U.
  destruct (Qeq_dec s (inject_Z (Qfloor s))) as [E|N].
  - assert (E' : - s == inject_Z (- Qfloor s)) by (rewrite inject_Z_opp, <- E; reflexivity).
    rewrite (roundHalfEven_comp E'), (roundHalfEven_comp E), !roundHalfEven_Z.
    reflexivity.
  - assert (S : inject_Z (Qfloor s) < s).
    { destruct (Qlt_le_dec (inject_Z (Qfloor s)) s) as [H|H]; [exact H|].
      exfalso. apply N. apply Qle_antisym; assumption. }
    assert (I : inject_Z (- Qfloor s - 1) == - inject_Z (Qfloor s) - 1).
    { unfold Z.sub. rewrite inject_Z_plus, inject_Z_opp. reflexivity. }
    assert (F : Qfloor (- s) = (- Qfloor s - 1)%Z) by (apply Qfloor_unique; lra).
    unfold roundHalfEven. rewrite F.
    assert (P : Z.even (- Qfloor s - 1) = negb (Z.even (Qfloor s))).
    { rewrite Z.even_sub, Z.even_opp. destruct (Z.even (Qfloor s)); reflexivity. }
    rewrite P.
    destruct (s - inject_Z (Qfloor s) ?= 1 # 2) eqn:Cs;
      destruct (- s - inject_Z (- Qfloor s - 1) ?= 1 # 2) eqn:Ct;
      try (destruct (Z.even (Qfloor s)); cbn [negb]); try lia; exfalso;
      first [apply Qeq_alt in Cs | apply Qlt_alt in Cs | apply Qgt_alt in Cs];
      first [apply Qeq_alt in Ct | apply Qlt_alt in Ct | apply Qgt_alt in Ct];
      lra.
Qed.

Lemma Qabs_opp_eq (q : Q) : Qabs (- q) = Qabs q.
Proof. destruct q as [n d]. unfold Qabs, Qopp. cbn. now rewrite Z.abs_opp. Qed.

Lemma Qabs_pos_eq (q : Q) : 0 < q -> Qabs q = q.
Proof.
  destruct q as [n d]. intros H. unfold Qabs.
  assert (0 < n)%Z by (unfold Qlt in H; cbn in H; lia).
  now rewrite Z.abs_eq by lia.
Qed.

Lemma ulp_opp (q : Q) : ulp (- q) = ulp q.
Proof. unfold ulp. now rewrite Qabs_opp_eq. Qed.

Lemma nearest64_opp (q : Q) : nearest64 (- q) == - nearest64 q.
Proof.
  unfold nearest64. rewrite ulp_opp.
  assert (E : - q / ulp q == - (q / ulp q)) by (unfold Qdiv; ring).
  rewrite (roundHalfEven_comp E), roundHalfEven_opp, inject_Z_opp. ring.
Qed.

(** A multiple of the spacing around [x] that bounds [x] bounds what
    [x] is rounded to. *)
Lemma nearest64_le_grid (x : Q) (k : Z) :
  x <= inject_Z k * ulp x -> nearest64 x <= inject_Z k * ulp x.
Proof.
  intros H. pose proof (ulp_pos x) as P. unfold nearest64.
  apply Qmult_le_compat_r; [|lra].
  rewrite <- Zle_Qle. apply roundHalfEven_le_Z.
  apply Qle_shift_div_r; assumption.
Qed.

Lemma nearest64_ge_grid (x : Q) (k : Z) :
  inject_Z k * ulp x <= x -> inject_Z k * ulp x <= nearest64 x.
Proof.
  intros H. pose proof (ulp_pos x) as P. unfold nearest64.
  apply Qmult_le_compat_r; [|lra].
  rewrite <- Zle_Qle. apply roundHalfEven_ge_Z.
  apply Qle_shift_div_l; assumption.
Qed.

Lemma nearest64_nonneg (x : Q) : 0 <= x -> 0 <= nearest64 x.
Proof.
  intros H. pose proof (@nearest64_ge_grid x 0) as G.
  change (inject_Z 0) with 0 in G. lra.
Qed.

Lemma nearest64_nonpos (x : Q) : x <= 0 -> nearest64 x <= 0.
Proof.
  intros H. pose proof (@nearest64_le_grid x 0) as G.
  change (inject_Z 0) with 0 in G. lra.
Qed.

(** The exponent [E] of a positive number: its spacing is [2^(E-52)],
    it is below [2^(E+1)], and at least [2^E] unless it is subnormal. *)
Lemma ulp_bounds (x : Q) :
  0 < x ->
  exists E : Z, ulp x = pow2 (E - 52) /\ (-1022 <= E)%Z /\ x < pow2 (E + 1) /\
                ((-1022 < E)%Z -> pow2 E <= x).
Proof.
  intros H. destruct (ilog2_bounds H) as [L U].
  exists (Z.max (ilog2 x) (-1022)). split; [|split; [|split]].
  - unfold ulp. rewrite (Qabs_pos_eq H). f_equal. lia.
  - lia.
  - eapply Qlt_le_trans; [exact U|]. apply pow2_le. lia.
  - intros E. replace (Z.max (ilog2 x) (-1022)) with (ilog2 x) by lia. exact L.
Qed.

Lemma nearest64_mono_pos (x y : Q) : 0 < x -> x <= y -> nearest64 x <= nearest64 y.
Proof.
  intros Hx H. assert (Hy : 0 < y) by lra.
  destruct (ulp_bounds Hx) as (Ex & Ux & Lx & Bx & Nx).
  destruct (ulp_bounds Hy) as (Ey & Uy & Ly & By & Ny).
  assert (Px := pow2_pos (Ex - 52)). assert (Py := pow2_pos (Ey - 52)).
  destruct (Z_lt_le_dec Ey Ex) as [C|C].
  { exfalso. pose proof (@pow2_le (Ey + 1) Ex ltac:(lia)).
    assert (pow2 Ex <= x) by (apply Nx; lia). lra. }
  destruct (Z.eq_dec Ex Ey) as [E|N].
  - subst Ey. unfold nearest64. rewrite Ux, Uy.
    apply Qmult_le_compat_r; [|lra].
    rewrite <- Zle_Qle. apply roundHalfEven_mono.
    apply Qmult_le_compat_r; [exact H|]. apply Qinv_le_0_compat. lra.
  - assert (A : nearest64 x <= pow2 (Ex + 1)).
    { pose proof (@nearest64_le_grid x (2 ^ 53)) as G. rewrite Ux in G.
      assert (S : pow2 (53 + (Ex - 52)) == inject_Z (2 ^ 53) * pow2 (Ex - 52)).
      { rewrite pow2_plus, pow2_Z by lia. reflexivity. }
      replace (53 + (Ex - 52))%Z with (Ex + 1)%Z in S by lia.
      rewrite <- S in G. apply G. lra. }
    assert (B : pow2 Ey <= nearest64 y).
    { pose proof (@nearest64_ge_grid y (2 ^ 52)) as G. rewrite Uy in G.
      assert (S : pow2 (52 + (Ey - 52)) == inject_Z (2 ^ 52) * pow2 (Ey - 52)).
      { rewrite pow2_plus, pow2_Z by lia. reflexivity. }
      replace (52 + (Ey - 52))%Z with Ey in S by lia.
      rewrite <- S in G. apply G. apply Ny. lia. }
    pose proof (@pow2_le (Ex + 1) Ey ltac:(lia)). lra.
Qed.

(** Rounding keeps the order. *)
Lemma nearest64_mono (x y : Q) : x <= y -> nearest64 x <= nearest64 y.
Proof.
  intros H. destruct (Qlt_le_dec 0 x) as [Hx|Hx].
  - apply nearest64_mono_pos; assumption.
  - destruct (Qlt_le_dec y 0) as [Hy|Hy].
    + assert (M : nearest64 (- y) <= nearest64 (- x)) by (apply nearest64_mono_pos; lra).
      rewrite !nearest64_opp in M. lra.
    + pose proof (nearest64_nonpos Hx). pose proof (nearest64_nonneg Hy). lra.
Qed.

Lemma nearest64_comp (x y : Q) : x == y -> nearest64 x == nearest64 y.
Proof.
  intros E. apply Qle_antisym; apply nearest64_mono; rewrite E; apply Qle_refl.
Qed.

Lemma nearest64_0 : nearest64 0 == 0.
Proof.
  apply Qle_antisym; [apply nearest64_nonpos | apply nearest64_nonneg]; apply Qle_refl.
Qed.

Lemma ulp_abs_bound (x : Q) :
  exists u : Z, ulp x = pow2 u /\ (-1074 <= u)%Z /\ Qabs x < pow2 (u + 53).
Proof.
  exists (Z.max (ilog2 (Qabs x) - 52) (-1074)). split; [reflexivity|]. split; [lia|].
  pose proof (Qabs_nonneg x) as N.
  destruct (Qlt_le_dec 0 (Qabs x)) as [P|P].
  - destruct (ilog2_bounds P) as [_ U].
    eapply Qlt_le_trans; [exact U|]. apply pow2_le. lia.
  - eapply Qle_lt_trans; [exact P|]. apply pow2_pos.
Qed.

(** A number [m * 2^j] with [j >= -1074] and of magnitude below
    [2^(j+53)] is a binary64 number: rounding returns it. *)
Lemma nearest64_exact (x : Q) (m j : Z) :
  (-1074 <= j)%Z -> x == inject_Z m * pow2 j -> Qabs x < pow2 (j + 53) ->
  nearest64 x == x.
Proof.
  intros Hj Hx Hb.
  pose proof (Qabs_nonneg x) as N.
  destruct (Qlt_le_dec 0 (Qabs x)) as [P|P].
  - destruct (ilog2_bounds P) as [L _].
    set (u := Z.max (ilog2 (Qabs x) - 52) (-1074)).
    assert (Uu : ulp x = pow2 u) by reflexivity.
    assert (Le : (u <= j)%Z).
    { destruct (Z_lt_le_dec (ilog2 (Qabs x)) (j + 53)) as [C|C]; [lia|].
      exfalso. pose proof (pow2_le C). lra. }
    assert (S : pow2 (j - u + u) == inject_Z (2 ^ (j - u)) * pow2 u).
    { rewrite pow2_plus, pow2_Z by lia. reflexivity. }
    replace (j - u + u)%Z with j in S by lia.
    pose proof (pow2_pos u) as Pu.
    assert (D : x / pow2 u == inject_Z (m * 2 ^ (j - u))).
    { rewrite Hx, S, inject_Z_mult. field. lra. }
    unfold nearest64. rewrite Uu, (roundHalfEven_comp D), roundHalfEven_Z.
    rewrite Hx, S, inject_Z_mult. ring.
  - assert (Z0 : x == 0).
    { apply Qabs_Qle_condition in P. lra. }
    rewrite (nearest64_comp Z0), nearest64_0, Z0. reflexivity.
Qed.

(** Twice a binary64 number is a binary64 number. *)
Lemma nearest64_double (x : Q) : nearest64 x == x -> nearest64 (2 * x) == 2 * x.
Proof.
  intros F. destruct (ulp_abs_bound x) as (u & Uu & Lu & Bu).
  apply (@nearest64_exact (2 * x) (roundHalfEven (x / ulp x)) (u + 1)).
  - lia.
  - rewrite pow2_plus. change (pow2 1) with 2.
    rewrite <- F at 1. unfold nearest64. rewrite Uu. ring.
  - rewrite Qabs_Qmult. change (Qabs 2) with 2.
    replace (u + 1 + 53)%Z with (1 + (u + 53))%Z by lia.
    rewrite pow2_plus. change (pow2 1) with 2. lra.
Qed.

(** Every binary64 number is a multiple of [2^-1074]. *)
Lemma nearest64_grid (x : Q) : exists z : Z, nearest64 x == inject_Z z * pow2 (-1074).
Proof.
  destruct (ulp_abs_bound x) as (u & Uu & Lu & _).
  exists (roundHalfEven (x / ulp x) * 2 ^ (u + 1074))%Z.
  unfold nearest64. rewrite Uu. generalize (roundHalfEven (x / pow2 u)). intros m.
  assert (S : pow2 (u + 1074 + -1074) == inject_Z (2 ^ (u + 1074)) * pow2 (-1074)).
  { rewrite pow2_plus, pow2_Z by lia. reflexivity. }
  replace (u + 1074 + -1074)%Z with u in S by lia.
  rewrite S, inject_Z_mult. ring.
Qed.

(** The difference of two binary64 numbers does not round to a number
    of another sign: the subtraction [a - b] is negative exactly when
    [a < b]. *)
Lemma nearest64_sub_neg (a b : Q) :
  nearest64 a == a -> nearest64 b == b -> a < b -> nearest64 (a - b) < 0.
Proof.
  intros Fa Fb H.
  destruct (nearest64_grid a) as [za Ga]. destruct (nearest64_grid b) as [zb Gb].
  rewrite Fa in Ga. rewrite Fb in Gb.
  pose proof (pow2_pos (-1074)) as P.
  assert (Z : (za < zb)%Z).
  { destruct (Z_lt_le_dec za zb) as [C|C]; [exact C|]. exfalso.
    rewrite Zle_Qle in C.
    pose proof (Qmult_le_compat_r _ _ (pow2 (-1074)) C ltac:(lra)). lra. }
  assert (L : a - b <= inject_Z (-1) * pow2 (-1074)).
  { assert (C : (za - zb <= -1)%Z) by lia. rewrite Zle_Qle in C.
    pose proof (Qmult_le_compat_r _ _ (pow2 (-1074)) C ltac:(lra)) as M.
    unfold Z.sub in M. rewrite inject_Z_plus, inject_Z_opp in M.
    rewrite Ga, Gb. lra. }
  apply nearest64_mono in L.
  assert (E : nearest64 (inject_Z (-1) * pow2 (-1074)) == inject_Z (-1) * pow2 (-1074)).
  { apply (@nearest64_exact _ (-1) (-1074)); [lia | reflexivity | reflexivity]. }
  rewrite E in L. change (inject_Z (-1)) with (-(1)) in L. lra.
Qed.
End RoundingOrder.

(* ================================================================== *)
(** * Binary64 numbers: rounding of numbers *)
(* ================================================================== *)

Lemma round64_cases (a : Qc) :
  (round64 (Fin a) = PInf /\ (pow2 1024 <= nearest64 a)%Q) \/
  (round64 (Fin a) = NInf /\ (nearest64 a <= - pow2 1024)%Q) \/
  (round64 (Fin a) = Fin (Q2Qc (nearest64 a)) /\
   (- pow2 1024 < nearest64 a)%Q /\ (nearest64 a < pow2 1024)%Q).
Proof.
  unfold round64. cbv zeta.
  destruct (Qle_bool (pow2 1024) (nearest64 a)) eqn:E1.
  - left. split; [reflexivity|]. apply Qle_bool_iff. exact E1.
  - destruct (Qle_bool (nearest64 a) (- pow2 1024)) eqn:E2.
    + right; left. split; [reflexivity|]. apply Qle_bool_iff. exact E2.
    + right; right. split; [reflexivity|].
      split; apply Qnot_le_lt; intros C; apply Qle_bool_iff in C; congruence.
Qed.

Lemma binary64_round64 (v : num) : binary64 v = true -> round64 v = v.
Proof. apply neqb_eq. Qed.

Lemma binary64_Fin (a : Qc) : binary64 (Fin a) = true -> (nearest64 a == a)%Q.
Proof.
  intros H. apply binary64_round64 in H.
  destruct (round64_cases a) as [[E _]|[[E _]|[E _]]]; rewrite E in H; try discriminate.
  injection H as H. pose proof (this_Q2Qc (nearest64 a)) as T.
  rewrite H in T. symmetry. exact T.
Qed.

Lemma round64_fix (a : Qc) :
  (nearest64 a == a)%Q -> (Qabs a < pow2 1024)%Q -> round64 (Fin a) = Fin a.
Proof.
  intros F B. apply Qabs_Qlt_condition in B. destruct B as [B1 B2].
  destruct (round64_cases a) as [[_ C]|[[_ C]|[E _]]].
  - exfalso. rewrite F in C. lra.
  - exfalso. rewrite F in C. lra.
  - rewrite E. f_equal. apply Qc_is_canon. rewrite this_Q2Qc. exact F.
Qed.

Lemma round64_of_nat (k : nat) : (Z.of_nat k < 2 ^ 53)%Z -> round64 (of_nat k) = of_nat k.
Proof.
  intros H. rewrite of_nat_Fin. fold (qn k).
  pose proof (this_qn k) as T.
  assert (B : (Qabs (qn k) < pow2 53)%Q).
  { rewrite T, pow2_Z by lia. rewrite Qabs_pos by (rewrite <- (Zle_Qle 0); lia).
    rewrite <- Zlt_Qlt. exact H. }
  apply round64_fix.
  - apply (@nearest64_exact _ (Z.of_nat k) 0); [lia | | exact B].
    change (pow2 0) with 1%Q. rewrite T. ring.
  - eapply Qlt_le_trans; [exact B|]. apply pow2_le. lia.
Qed.

Lemma round64_zero : round64 zero = zero.
Proof. apply neqb_eq. vm_compute. reflexivity. Qed.

Lemma nlt_zero_iff (q : Qc) : nlt (Fin q) zero = true <-> (q < 0)%Q.
Proof.
  unfold zero, of_Z. cbn [nlt]. rewrite Qcltb_lt. unfold Qclt.
  rewrite this_Q2Qc. reflexivity.
Qed.

Lemma nlt_round64_zero (q : Qc) :
  nlt (round64 (Fin q)) zero = true <-> (nearest64 q < 0)%Q.
Proof.
  pose proof (pow2_pos 1024) as P.
  destruct (round64_cases q) as [[E C]|[[E C]|[E C]]]; rewrite E.
  - split; [discriminate | intros H; lra].
  - split; [intros _; lra | reflexivity].
  - rewrite nlt_zero_iff, this_Q2Qc. reflexivity.
Qed.

Lemma this_Qcopp (x : Qc) : (this (- x)%Qc == - this x)%Q.
Proof. unfold Qcopp. apply this_Q2Qc. Qed.

Lemma this_Qcsub (x y : Qc) : (this (x + - y)%Qc == this x - this y)%Q.
Proof. rewrite this_Qcplus, this_Qcopp. reflexivity. Qed.

(** The rounded difference of two binary64 numbers has the sign of
    their exact difference. *)
Lemma fsub_sign (a b : Qc) :
  binary64 (Fin a) = true -> binary64 (Fin b) = true ->
  nlt (fsub (Fin a) (Fin b)) zero = nlt (nsub (Fin a) (Fin b)) zero.
Proof.
  intros Ba Bb. apply binary64_Fin in Ba. apply binary64_Fin in Bb.
  unfold fsub, nsub. cbn [nneg nadd].
  apply eq_iff_eq_true. rewrite nlt_round64_zero, nlt_zero_iff.
  pose proof (this_Qcsub a b) as T.
  rewrite (nearest64_comp T). rewrite T. split.
  - intros H. destruct (Qlt_le_dec (this a - this b) 0) as [C|C]; [exact C|].
    pose proof (nearest64_nonneg C). lra.
  - intros H. apply nearest64_sub_neg; [assumption | assumption | lra].
Qed.

(* ================================================================== *)
(** * Sorting with comparators of the same signs *)
(* ================================================================== *)

Section SortAgreement.
Context {A : Type} (c c' : A -> A -> num) (P : A -> Prop).
Hypothesis agree : forall x y, P x -> P y -> nlt (c x y) zero = nlt (c' x y) zero.

Lemma sort_insert_agree (x : A) (l : list A) :
  P x -> Forall P l -> sort_insert c x l = sort_insert c' x l.
Proof.
  intros Hx Hl. induction Hl as [|e l He Hl IH]; cbn [sort_insert]; [reflexivity|].
  rewrite (agree Hx He), IH. reflexivity.
Qed.

Lemma Array_sort_agree (l : list A) : Forall P l -> Array_sort c l = Array_sort c' l.
Proof.
  unfold Array_sort. intros Hl.
  assert (G : forall acc, Forall P acc ->
                fold_left (fun acc x => sort_insert c x acc) l acc
                = fold_left (fun acc x => sort_insert c' x acc) l acc).
  { induction Hl as [|x l Hx Hl IH]; intros acc Ha; cbn [fold_left]; [reflexivity|].
    rewrite (sort_insert_agree Hx Ha). apply IH.
    apply (Permutation_Forall (Permutation_sym (sort_insert_perm c' x acc))).
    constructor; assumption. }
  apply G. constructor.
Qed.
End SortAgreement.

Lemma binary64_Forall (vs : list num) :
  Forall isFin vs -> forallb binary64 vs = true ->
  Forall (fun v => isFin v /\ binary64 v = true) vs.
Proof.
  intros F B. rewrite forallb_forall in B. rewrite Forall_forall in *.
  intros v Hv. split; [apply F | apply B]; exact Hv.
Qed.

(** On binary64 numbers the rounded comparator sorts as the exact
    one. *)
Lemma ascending64_sort (vs : list num) :
  Forall isFin vs -> forallb binary64 vs = true ->
  Array_sort Binary64.ascending vs = Array_sort ascending vs.
Proof.
  intros F B.
  apply (@Array_sort_agree _ Binary64.ascending ascending
           (fun v => isFin v /\ binary64 v = true)).
  - intros x y [[a ->] Bx] [[b ->] By]. apply fsub_sign; assumption.
  - apply binary64_Forall; assumption.
Qed.

Lemma forallb_perm {A : Type} (p : A -> bool) (l l' : list A) :
  Permutation l l' -> forallb p l = true -> forallb p l' = true.
Proof.
  intros P H. rewrite forallb_forall in *. intros x Hx.
  apply H. apply (Permutation_in _ (Permutation_sym P)). exact Hx.
Qed.

(* ================================================================== *)
(** * Binary64 operations with an exact result *)
(* ================================================================== *)

Lemma fmul_zero_r (q : Qc) : fmul (Fin q) zero = zero.
Proof.
  unfold fmul, zero, of_Z. cbn [nmul]. change (Q2Qc (inject_Z 0)) with 0%Qc.
  rewrite Qcmult_0_r. exact round64_zero.
Qed.

Lemma fmul_zero_l (q : Qc) : fmul zero (Fin q) = zero.
Proof.
  unfold fmul, zero, of_Z. cbn [nmul]. change (Q2Qc (inject_Z 0)) with 0%Qc.
  rewrite Qcmult_0_l. exact round64_zero.
Qed.

Lemma fmul_one_r (q : Qc) : binary64 (Fin q) = true -> fmul (Fin q) (of_nat 1) = Fin q.
Proof.
  intros B. unfold fmul. rewrite of_nat_Fin. fold (qn 1). cbn [nmul].
  rewrite qn_1, Qcmult_1_r. apply binary64_round64. exact B.
Qed.

Lemma fadd_zero_r (q : Qc) : binary64 (Fin q) = true -> fadd (Fin q) zero = Fin q.
Proof.
  intros B. unfold fadd, zero, of_Z. cbn [nadd]. change (Q2Qc (inject_Z 0)) with 0%Qc.
  rewrite Qcplus_0_r. apply binary64_round64. exact B.
Qed.

Lemma fsub_self (q : Qc) : fsub (Fin q) (Fin q) = zero.
Proof.
  unfold fsub, nsub. cbn [nneg nadd]. rewrite Qcplus_opp_r. exact round64_zero.
Qed.

Lemma fmul_one_of_nat (k : nat) :
  (Z.of_nat k < 2 ^ 53)%Z -> fmul (of_nat 1) (of_nat k) = of_nat k.
Proof.
  intros B. unfold fmul. rewrite (of_nat_Fin 1), (of_nat_Fin k).
  fold (qn 1) (qn k). cbn [nmul]. rewrite qn_1, Qcmult_1_l.
  apply round64_of_nat. exact B.
Qed.

(** With the weight 0 the interpolation returns the lower value. *)
Lemma weighted_exact (q : Qc) :
  binary64 (Fin q) = true ->
  fadd (fmul (Fin q) (fsub (of_nat 1) zero)) (fmul (Fin q) zero) = Fin q.
Proof.
  intros B.
  assert (E : fsub (of_nat 1) zero = of_nat 1) by (apply neqb_eq; vm_compute; reflexivity).
  rewrite E, (@fmul_one_r q B), fmul_zero_r. apply (@fadd_zero_r q B).
Qed.

(* ================================================================== *)
(** * C2: counts and percentages of aggregateByDimension *)
(* ================================================================== *)

Section AggregateTotals.
Context {host : Host}.

Local Abbreviation with_metadata := (fun c : CallRecord => has_metadata c = true).

Lemma sumCounts_perm (l l' : list GenericAnalyticResult) :
  Permutation l l' -> sumCounts l = sumCounts l'.
Proof.
  intros H. unfold sumCounts. apply Permutation_list_sum. now apply Permutation_map.
Qed.

Lemma filter_all {A : Type} (p : A -> bool) (l : list A) :
  Forall (fun a => p a = true) l -> filter p l = l.
Proof.
  induction 1 as [|a l Ha _ IH]; simpl; [reflexivity|]. now rewrite Ha, IH.
Qed.

Lemma mapM_returns {A B : Type} (f : A -> res B) (P : A -> B -> Prop) (l : list A) :
  (forall a, In a l -> exists b, f a = Ok b /\ P a b) ->
  exists bs, mapM f l = Ok bs /\ Forall2 P l bs.
Proof.
  induction l as [|a l IH]; intros H.
  - exists []. split; [reflexivity | constructor].
  - destruct (H a (or_introl eq_refl)) as (b & Eb & Pb).
    destruct IH as (bs & Ebs & Pbs); [intros x Hx; apply H; right; exact Hx|].
    exists (b :: bs). cbn [mapM]. rewrite Eb. cbn [bind]. rewrite Ebs.
    split; [reflexivity | constructor; assumption].
Qed.

Lemma sumMeasure64_returns (mf : string) (g : list CallRecord) :
  Forall with_metadata g -> exists m, Binary64.sumMeasure mf g = Ok m.
Proof.
  intros Hg. eexists. unfold Binary64.sumMeasure.
  apply (foldM_pure _ (fun sum call => fadd sum (num_or (Number (valueOf call mf)) zero))).
  intros b a Ha. rewrite Forall_forall in Hg.
  rewrite (prop_valueOf a mf (Hg a Ha)). reflexivity.
Qed.

Lemma groupMeasure64_returns (fd : option FieldDefinition) (view : AnalyticsView)
      (g : list CallRecord) :
  Forall with_metadata g -> exists m, Binary64.groupMeasure fd view g = Ok m.
Proof.
  intros Hg. pose proof Hg as Hg'. rewrite Forall_forall in Hg'.
  unfold Binary64.groupMeasure.
  destruct fd as [f|]; [|eexists; reflexivity].
  destruct (measureField view) as [mf|]; [|eexists; reflexivity].
  unfold Binary64.aggregateMeasure.
  destruct (sumMeasure64_returns mf Hg) as [t Et].
  destruct (aggregation view).
  - exists t. exact Et.
  - rewrite Et. eexists. reflexivity.
  - rewrite (mapM_pure _ (fun call => num_or (Number (valueOf call mf)) PInf)).
    + eexists. reflexivity.
    + intros a Ha. rewrite (prop_valueOf a mf (Hg' a Ha)). reflexivity.
  - rewrite (mapM_pure _ (fun call => num_or (Number (valueOf call mf)) NInf)).
    + eexists. reflexivity.
    + intros a Ha. rewrite (prop_valueOf a mf (Hg' a Ha)). reflexivity.
  - eexists. reflexivity.
Qed.

(** The rows of [aggregateByDimension] on binary64 numbers: one row
    per group, which is not empty and whose percentage is
    [(count / totalCalls) * 100]. *)
Lemma aggregateByDimension64_rows (calls : list CallRecord) (schema : SchemaDefinition)
      (view : AnalyticsView) (fd : FieldDefinition) :
  findField schema (dimensionField view) = Some fd ->
  exists results,
    Binary64.aggregateByDimension calls schema view = Ok results /\
    sumCounts results = List.length (filter has_metadata calls) /\
    Forall (fun r => 1 <= count r /\
                     percentage r
                     = if 0 <? List.length calls
                       then Binary64.percentageOf (count r) (List.length calls)
                       else zero) results.
Proof.
  intros Hd. unfold Binary64.aggregateByDimension.
  rewrite Hd, groupByDimension_pure. cbn [bind].
  set (d := dimensionField view). set (n := List.length calls).
  pose proof (groupsOf_metadata d calls) as Hmeta. rewrite Forall_forall in Hmeta.
  destruct (groupsOf_members d calls) as (_ & Hmem & _).
  match goal with
  | |- context [mapM ?f (groupsOf d calls)] =>
      destruct (@mapM_returns _ _ f
                  (fun g r => count r = List.length (snd g) /\
                              percentage r
                              = if 0 <? n then Binary64.percentageOf (count r) n else zero)
                  (groupsOf d calls)) as (rows & Erows & Hrows)
  end.
  { intros [k g] Hin. specialize (Hmeta _ Hin). cbn [snd] in Hmeta.
    destruct (groupMeasure64_returns (findFieldOpt schema (measureField view)) view Hmeta)
      as [m Em].
    rewrite Em. cbn [bind]. eexists. split; [reflexivity|].
    cbn [count percentage snd]. split; reflexivity. }
  rewrite Erows. cbn [bind]. eexists. split; [reflexivity|].
  set (cmp := fun a b : GenericAnalyticResult => fsub (measure b) (measure a)).
  assert (Hsum : sumCounts rows = groupSizes (groupsOf d calls) /\
                 Forall (fun r => 1 <= count r /\
                                  percentage r
                                  = if 0 <? n then Binary64.percentageOf (count r) n
                                    else zero) rows).
  { assert (Hne : forall g, In g (groupsOf d calls) -> snd g <> []).
    { intros [k g] Hin. apply (Hmem k g Hin). }
    clear Erows Hmeta Hmem. induction Hrows as [|g r gs rs [Hc Hp] _ IH].
    - split; [reflexivity | constructor].
    - destruct IH as [IH1 IH2]; [intros x Hx; apply Hne; right; exact Hx|].
      split.
      + change (sumCounts (r :: rs)) with (count r + sumCounts rs).
        change (groupSizes (g :: gs)) with (List.length (snd g) + groupSizes gs).
        rewrite Hc, IH1. reflexivity.
      + constructor; [|exact IH2]. split; [|exact Hp].
        rewrite Hc. specialize (Hne g (or_introl eq_refl)).
        destruct (snd g); [congruence | cbn; lia]. }
  destruct Hsum as [Hs Hf]. split.
  - rewrite (sumCounts_perm (Array_sort_perm cmp rows)), Hs. apply groupsOf_sizes.
  - apply (Permutation_Forall (Permutation_sym (Array_sort_perm cmp rows))). exact Hf.
Qed.

Lemma length_le_list_sum (cs : list nat) :
  Forall (fun c => 1 <= c) cs -> List.length cs <= list_sum cs.
Proof.
  induction 1 as [|c cs Hc _ IH]; [apply Nat.le_refl|].
  change (list_sum (c :: cs)) with (c + list_sum cs). cbn [List.length]. lia.
Qed.

(** C2 (amended). When the dimension field resolves in the schema,
    [aggregateByDimension] returns groups whose counts add up to the
    number of input records that carry metadata.  When the list is not
    empty, every record carries metadata and the list has fewer than
    [2^32] records (the bound on the length of an array), the counts
    add up to the number of input records and the percentages to 100
    up to rounding error: their exact sum is at most [300 * 2^-53]
    away from 100, and their sum taken in binary64, row after row, at
    most [502 * 2^-53] per row. *)
Theorem aggregate_counts_percentages (calls : list CallRecord)
        (schema : SchemaDefinition) (view : AnalyticsView) (fd : FieldDefinition) :
  findField schema (dimensionField view) = Some fd ->
  exists results,
    Binary64.aggregateByDimension calls schema view = Ok results /\
    sumCounts results = List.length (filter has_metadata calls) /\
    (calls <> [] -> Forall (fun c => has_metadata c = true) calls ->
     (Z.of_nat (List.length calls) < 2 ^ 32)%Z ->
     sumCounts results = List.length calls /\
     within (300 * pow2 (-53)) 100 (sumPercentages results) /\
     within (inject_Z (Z.of_nat (List.length results)) * (502 * pow2 (-53))) 100
            (sumPercentages64 results)).
Proof.
  intros Hd.
  destruct (aggregateByDimension64_rows calls schema view Hd) as (results & Er & Hc & Hf).
  exists results. split; [exact Er|]. split; [exact Hc|].
  intros Hne Hall Hb. rewrite (filter_all _ Hall) in Hc. split; [exact Hc|].
  set (n := List.length calls) in *.
  assert (Hn : 1 <= n) by (unfold n; destruct calls; [congruence | cbn; lia]).
  assert (Ep : map percentage results
               = map (fun c => Binary64.percentageOf c n) (map count results)).
  { rewrite map_map. apply map_ext_in. intros r Hr.
    rewrite Forall_forall in Hf. destruct (Hf r Hr) as [_ E]. rewrite E.
    replace (0 <? n) with true by (symmetry; apply Nat.ltb_lt; lia). reflexivity. }
  assert (H1 : Forall (fun c => 1 <= c) (map count results)).
  { rewrite Forall_map. apply (Forall_impl _ (fun r H => proj1 H) Hf). }
  assert (Hsum : list_sum (map count results) = n) by exact Hc.
  split.
  - destruct (@sum_percentages_accurate n (map count results) H1 ltac:(lia) ltac:(lia))
      as (t & Et & Ht).
    exists t. split.
    + unfold sumPercentages. rewrite nsum_fold_right, Ep. exact Et.
    + rewrite Hsum in Ht. rewrite (share_all Hn) in Ht.
      rewrite !Qmult_1_r in Ht. exact Ht.
  - pose proof (length_le_list_sum H1) as Hl.
    destruct (@fsum_percentages_accurate n (map count results) Hb H1 0%Qc 0 0)
      as (s & Es & Hs).
    + cbn [Nat.add]. lia.
    + cbn [Nat.add]. lia.
    + apply Qle_refl.
    + unfold share. cbn. discriminate.
    + exists s. split.
      * unfold sumPercentages64. rewrite Ep. exact Es.
      * cbn [Nat.add] in Hs. rewrite Hsum, length_map in Hs.
        rewrite (share_all Hn) in Hs. rewrite Qmult_1_r in Hs. exact Hs.
Qed.
End AggregateTotals.

Lemma aggregate_counts_percentages_witness :
  exists results,
    @Binary64.aggregateByDimension SampleHost.sample Samples.aab Samples.callSchema
      Samples.byAgent = Ok results /\
    sumCounts results = 3 /\
    within (300 * pow2 (-53)) 100 (sumPercentages results) /\
    within (inject_Z (Z.of_nat (List.length results)) * (502 * pow2 (-53))) 100
           (sumPercentages64 results).
Proof.
  destruct (@aggregate_counts_percentages SampleHost.sample Samples.aab
              Samples.callSchema Samples.byAgent
              (Samples.field "agent" "text" (Some "participant_1")) eq_refl)
    as [results [Hr [_ Hall]]].
  exists results. split; [exact Hr|]. apply Hall.
  - discriminate.
  - repeat constructor.
  - reflexivity.
Defined.

(** C2 as stated fails, whatever the rounding error allowed, on the
    empty list, where no group is returned and the percentages add up
    to 0, and on a record without metadata, which is counted in the
    total but in no group. *)
Lemma aggregate_totals_counterexample :
  findField Samples.callSchema (dimensionField Samples.byAgent) <> None /\
  (forall eps : Q, (eps < 100)%Q ->
     ~ @countsAndPercentagesAddUp SampleHost.sample eps []
         Samples.callSchema Samples.byAgent) /\
  (forall eps : Q,
     ~ @countsAndPercentagesAddUp SampleHost.sample eps [Samples.bare "c1"]
         Samples.callSchema Samples.byAgent).
Proof.
  split; [discriminate|]. split.
  - intros eps He [results [Hr [_ [a [Ea Ha]]]]]. vm_compute in Hr. injection Hr as <-.
    assert (E0 : a = 0%Qc).
    { change (sumPercentages []) with (Fin 0%Qc) in Ea. injection Ea as <-. reflexivity. }
    subst a. apply Qabs_Qle_condition in Ha. destruct Ha as [Ha _].
    change (this 0%Qc) with 0%Q in Ha. lra.
  - intros eps [results [Hr [Hc _]]]. vm_compute in Hr. injection Hr as <-.
    discriminate.
Qed.

(* ================================================================== *)
(** * C4: percentages are exact quotients *)
(* ================================================================== *)

(** Equality of records and lists that hold numbers: compare field by
    field, numbers by value. *)
Ltac num_eq :=
  vm_compute;
  repeat first
    [ reflexivity
    | match goal with |- @eq Qc _ _ => apply Qc_is_canon; reflexivity end
    | progress f_equal ].

Section Percentages.
Context {host : Host}.


Lemma generateHistogram_pure (calls : list CallRecord) (fieldId : string) (buckets : nat) :
  Forall (fun c => has_metadata c = true) calls ->
  generateHistogram calls fieldId buckets =
  Ok (if List.length (finiteValues calls fieldId) =? 0 then []
      else map (histogramBucket (finiteValues calls fieldId) buckets) (seq 0 buckets)).
Proof.
  intros Hall. unfold generateHistogram.
  rewrite (numericValues_pure fieldId Hall). simpl.
  now destruct (List.length (finiteValues calls fieldId) =? 0).
Qed.

Lemma getTopValues_pure (calls : list CallRecord) (fieldId : string) (limit : nat) :
  getTopValues calls fieldId limit =
  Ok (firstn limit
        (Array_sort byCountDesc
           (map (topValueOf (List.length calls)) (countsOf fieldId calls)))).
Proof.
  unfold getTopValues.
  rewrite (foldM_pure _ (fun counts call =>
             if has_metadata call
             then count_push counts (groupKey fieldId call) else counts)).
  - simpl. unfold countsOf. do 3 f_equal. apply map_ext. now intros [v c].
  - intros counts call _. destruct (has_metadata call) eqn:Hm; simpl.
    + now rewrite (prop_valueOf call fieldId Hm).
    + reflexivity.
Qed.

Lemma In_firstn {A : Type} (n : nat) (l : list A) (a : A) : In a (firstn n l) -> In a l.
Proof.
  revert l. induction n as [|n IH]; intros [|b l]; simpl; try tauto.
  intros [->|H]; [now left|right; now apply IH].
Qed.

End Percentages.


(* ================================================================== *)
(** * C10: min and max skip cells that are 0 or not numbers *)
(* ================================================================== *)

Lemma num_truthy_false (v : num) : num_truthy v = false <-> v = zero \/ v = NaN.
Proof.
  destruct v; simpl; split; try tauto; try discriminate;
    try (intros [H|H]; discriminate).
  - intros H. left. apply negb_false_iff, Qceqb_eq in H. now subst.
  - intros [H|H]; [|discriminate]. apply Fin_inj in H. subst.
    apply negb_false_iff. apply Qceqb_refl.
Qed.

Lemma min2_choice (a b : num) : min2 a b = a \/ min2 a b = b.
Proof. destruct a, b; simpl; auto; destruct (Qcltb _ _); auto. Qed.

Lemma max2_choice (a b : num) : max2 a b = a \/ max2 a b = b.
Proof. destruct a, b; simpl; auto; destruct (Qcltb _ _); auto. Qed.

Lemma fold_choice (f : num -> num -> num) (xs : list num) (acc : num) :
  (forall a b, f a b = a \/ f a b = b) ->
  fold_left f xs acc = acc \/ In (fold_left f xs acc) xs.
Proof.
  intros Hf. revert acc. induction xs as [|v xs IH]; intros acc; simpl.
  - now left.
  - destruct (IH (f acc v)) as [H|H]; [|now right; right].
    rewrite H. destruct (Hf acc v) as [E|E]; rewrite E; [now left|right; now left].
Qed.

Lemma fold_constant (f : num -> num -> num) (xs : list num) (d : num) :
  f d d = d -> (forall v, In v xs -> v = d) -> fold_left f xs d = d.
Proof.
  intros Hd. induction xs as [|v xs IH]; intros H; simpl; [reflexivity|].
  rewrite (H v (or_introl eq_refl)), Hd. apply IH. intros; apply H; now right.
Qed.

Section MinMax.
Context {host : Host}.

(** Cells that are blank: a missing cell, [null], [0], [false], [NaN]
    and any text the host does not read as a number. *)
Lemma blank_cells (mf : string) (c : CallRecord) :
  valueOf c mf = VUndefined \/ valueOf c mf = VNull \/
  valueOf c mf = VNum zero \/ valueOf c mf = VNum NaN \/
  valueOf c mf = VBool false \/
  (exists s, valueOf c mf = VStr s /\ StringToNumber s = NaN) ->
  blankMeasure mf c.
Proof.
  unfold blankMeasure.
  intros [H|[H|[H|[H|[H|[s [H Hs]]]]]]]; rewrite H; cbn [Number]; auto.
Qed.

Lemma contribution_blank (d : num) (mf : string) (c : CallRecord) :
  blankMeasure mf c -> contribution d mf c = d.
Proof.
  intros H. apply num_truthy_false in H. unfold contribution, num_or. now rewrite H.
Qed.

Lemma contribution_not_blank (d : num) (mf : string) (c : CallRecord) :
  ~ blankMeasure mf c -> contribution d mf c = Number (valueOf c mf).
Proof.
  intros H. unfold contribution, num_or.
  destruct (num_truthy (Number (valueOf c mf))) eqn:E; [reflexivity|].
  apply num_truthy_false in E. contradiction.
Qed.

Lemma blankMeasure_dec (mf : string) (c : CallRecord) :
  blankMeasure mf c \/ ~ blankMeasure mf c.
Proof.
  unfold blankMeasure. rewrite <- num_truthy_false.
  destruct (num_truthy (Number (valueOf c mf))); [right; discriminate|now left].
Qed.

(** The aggregate over contributions with default [d] is [d] or the
    converted cell of a member whose cell is not blank. *)
Lemma extremum_of_contributions (f : num -> num -> num) (d : num) (mf : string)
      (g : list CallRecord) :
  (forall a b, f a b = a \/ f a b = b) ->
  let m := fold_left f (map (contribution d mf) g) d in
  m = d \/ exists c, In c g /\ ~ blankMeasure mf c /\ m = Number (valueOf c mf).
Proof.
  intros Hf m. destruct (fold_choice f (map (contribution d mf) g) d Hf) as [H|H].
  - now left.
  - apply in_map_iff in H. destruct H as [c [Hc Hin]]. fold m in Hc.
    destruct (blankMeasure_dec mf c) as [Hb|Hb].
    + left. now rewrite <- Hc, (contribution_blank d Hb).
    + right. exists c. now rewrite <- Hc, (contribution_not_blank d Hb).
Qed.

Lemma not_blank_value (mf : string) (c : CallRecord) :
  ~ blankMeasure mf c ->
  Number (valueOf c mf) <> zero /\ Number (valueOf c mf) <> NaN.
Proof. unfold blankMeasure. tauto. Qed.

Lemma measure_of_result (calls : list CallRecord) (schema : SchemaDefinition)
      (view : AnalyticsView) (mf : string) (fd fm : FieldDefinition)
      (results : list GenericAnalyticResult) (r : GenericAnalyticResult) :
  findField schema (dimensionField view) = Some fd ->
  measureField view = Some mf ->
  findField schema mf = Some fm ->
  aggregateByDimension calls schema view = Ok results ->
  In r results ->
  let group := members (dimensionField view) (dimension r) calls in
  group <> [] /\ count r = List.length group /\
  measure r = aggregateOf (aggregation view) mf group.
Proof.
  intros Hd Hmf Hfm Hr Hin group.
  rewrite (aggregateByDimension_pure calls schema view Hd) in Hr. injection Hr as <-.
  apply Array_sort_In, in_map_iff in Hin. destruct Hin as [[k g] [<- Hg]].
  destruct (groupsOf_members (dimensionField view) calls) as (_ & Hmem & _).
  destruct (Hmem k g Hg) as [Heq Hne]. subst group. cbn [dimension groupResult fst].
  rewrite <- Heq. split; [exact Hne|]. split; [reflexivity|].
  unfold groupResult. cbn [measure snd]. unfold measureOf.
  rewrite Hmf. cbn [findFieldOpt]. now rewrite Hfm.
Qed.

(** The group behind a result row of a 'min' or 'max' aggregation, and
    how its measure comes about. *)
Lemma min_max_of_group (calls : list CallRecord) (schema : SchemaDefinition)
        (view : AnalyticsView) (mf : string) (fd fm : FieldDefinition)
        (results : list GenericAnalyticResult) (r : GenericAnalyticResult) :
  findField schema (dimensionField view) = Some fd ->
  measureField view = Some mf ->
  findField schema mf = Some fm ->
  aggregateByDimension calls schema view = Ok results ->
  In r results ->
  let group := members (dimensionField view) (dimension r) calls in
  group <> [] /\
  (aggregation view = agg_min ->
   measure r = Math_min (map (contribution PInf mf) group) /\
   (forall c, blankMeasure mf c -> contribution PInf mf c = PInf) /\
   (measure r = PInf \/
    exists c, In c group /\ ~ blankMeasure mf c /\ measure r = Number (valueOf c mf)) /\
   measure r <> zero /\ measure r <> NaN /\
   ((forall c, In c group -> blankMeasure mf c) -> measure r = PInf)) /\
  (aggregation view = agg_max ->
   measure r = Math_max (map (contribution NInf mf) group) /\
   (forall c, blankMeasure mf c -> contribution NInf mf c = NInf) /\
   (measure r = NInf \/
    exists c, In c group /\ ~ blankMeasure mf c /\ measure r = Number (valueOf c mf)) /\
   measure r <> zero /\ measure r <> NaN /\
   ((forall c, In c group -> blankMeasure mf c) -> measure r = NInf)).
Proof.
  intros Hd Hmf Hfm Hr Hin group.
  destruct (@measure_of_result calls schema view mf fd fm results r
              Hd Hmf Hfm Hr Hin) as (Hne & _ & Hm).
  fold group in Hm.
  split; [exact Hne|]. split; intros Hagg; rewrite Hagg in Hm; cbn [aggregateOf] in Hm.
  - pose proof (extremum_of_contributions min2 PInf mf group min2_choice) as Hex.
    cbv zeta in Hex. fold (Math_min (map (contribution PInf mf) group)) in Hex.
    rewrite <- Hm in Hex.
    split; [exact Hm|]. split; [intros c; apply contribution_blank|].
    split; [exact Hex|].
    assert (Hnz : measure r <> zero /\ measure r <> NaN).
    { destruct Hex as [->|[c (_ & Hb & ->)]]; [split; discriminate|].
      now apply not_blank_value. }
    split; [apply Hnz|]. split; [apply Hnz|].
    intros Hall. rewrite Hm. apply fold_constant; [reflexivity|].
    intros v Hv. apply in_map_iff in Hv. destruct Hv as [c [<- Hc]].
    apply contribution_blank, Hall, Hc.
  - pose proof (extremum_of_contributions max2 NInf mf group max2_choice) as Hex.
    cbv zeta in Hex. fold (Math_max (map (contribution NInf mf) group)) in Hex.
    rewrite <- Hm in Hex.
    split; [exact Hm|]. split; [intros c; apply contribution_blank|].
    split; [exact Hex|].
    assert (Hnz : measure r <> zero /\ measure r <> NaN).
    { destruct Hex as [->|[c (_ & Hb & ->)]]; [split; discriminate|].
      now apply not_blank_value. }
    split; [apply Hnz|]. split; [apply Hnz|].
    intros Hall. rewrite Hm. apply fold_constant; [reflexivity|].
    intros v Hv. apply in_map_iff in Hv. destruct Hv as [c [<- Hc]].
    apply contribution_blank, Hall, Hc.
Qed.

(** C10. In [aggregateByDimension] with aggregation 'min'
    (respectively 'max') and a measure field that resolves, a record
    whose measure cell is 0, missing or not a number contributes
    [Infinity] (respectively [-Infinity]).  The measure of a group is
    therefore [Infinity] ([-Infinity]) or the cell of a member that is
    neither 0 nor blank, never 0 and never [NaN]; and it is [Infinity]
    ([-Infinity]) when every member's cell is 0 or not a number. *)
Theorem min_max_skip_blank_cells (calls : list CallRecord) (schema : SchemaDefinition)
        (view : AnalyticsView) (mf : string) (fd fm : FieldDefinition) :
  findField schema (dimensionField view) = Some fd ->
  measureField view = Some mf ->
  findField schema mf = Some fm ->
  exists results,
    aggregateByDimension calls schema view = Ok results /\
    forall r, In r results ->
      let group := members (dimensionField view) (dimension r) calls in
      group <> [] /\
      (aggregation view = agg_min ->
       measure r = Math_min (map (contribution PInf mf) group) /\
       (forall c, blankMeasure mf c -> contribution PInf mf c = PInf) /\
       (measure r = PInf \/
        exists c, In c group /\ ~ blankMeasure mf c /\
                  measure r = Number (valueOf c mf)) /\
       measure r <> zero /\ measure r <> NaN /\
       ((forall c, In c group -> blankMeasure mf c) -> measure r = PInf)) /\
      (aggregation view = agg_max ->
       measure r = Math_max (map (contribution NInf mf) group) /\
       (forall c, blankMeasure mf c -> contribution NInf mf c = NInf) /\
       (measure r = NInf \/
        exists c, In c group /\ ~ blankMeasure mf c /\
                  measure r = Number (valueOf c mf)) /\
       measure r <> zero /\ measure r <> NaN /\
       ((forall c, In c group -> blankMeasure mf c) -> measure r = NInf)).
Proof.
  intros Hd Hmf Hfm. eexists.
  split; [apply (aggregateByDimension_pure calls schema view Hd)|].
  intros r Hin.
  exact (@min_max_of_group calls schema view mf fd fm _ r Hd Hmf Hfm
           (aggregateByDimension_pure calls schema view Hd) Hin).
Qed.
End MinMax.

Lemma min_max_skip_blank_cells_witness :
  exists results r,
    @aggregateByDimension SampleHost.sample Samples.mixedAmounts
      Samples.callSchema Samples.minAmountByAgent = Ok results /\
    In r results /\ dimension r = "Bob" /\ count r = 2 /\
    measure r = PInf /\ measure r <> zero.
Proof.
  pose (h := SampleHost.sample).
  pose (r := @groupResult h Samples.callSchema Samples.minAmountByAgent 6
               ("Bob", @members h "agent" "Bob" Samples.mixedAmounts)).
  destruct (@min_max_skip_blank_cells h Samples.mixedAmounts Samples.callSchema
              Samples.minAmountByAgent "amount"
              (Samples.field "agent" "text" (Some "participant_1"))
              (Samples.field "amount" "number" (Some "measure"))
              eq_refl eq_refl eq_refl) as [results [Hr Hall]].
  assert (Hin : In r results).
  { rewrite (@aggregateByDimension_pure h Samples.mixedAmounts Samples.callSchema
               Samples.minAmountByAgent
               (Samples.field "agent" "text" (Some "participant_1")) eq_refl) in Hr.
    injection Hr as <-. vm_compute. left. reflexivity. }
  destruct (Hall r Hin) as [_ [Hmin _]].
  destruct (Hmin eq_refl) as (_ & _ & _ & Hnz & _ & Hblank).
  exists results, r. split; [exact Hr|]. split; [exact Hin|].
  split; [reflexivity|]. split; [reflexivity|]. split; [|exact Hnz].
  apply Hblank. intros c Hc. vm_compute in Hc.
  destruct Hc as [<-|[<-|[]]]; [left|right]; reflexivity.
Defined.

(* ================================================================== *)
(** * C5: the 50th percentile and the median *)
(* ================================================================== *)

Lemma nth_isFin (vs : list num) (k : nat) :
  Forall isFin vs -> k < List.length vs -> exists q, nth k vs NaN = Fin q.
Proof.
  intros H Hk. rewrite Forall_forall in H. apply H. now apply nth_In.
Qed.

Lemma Math_floor_of_nat (k : nat) : Math_floor (of_nat k) = of_nat k.
Proof.
  unfold of_nat, of_Z. cbn [Math_floor]. unfold of_Z. now rewrite Qfloor_Q2Qc, Qfloor_Z.
Qed.

Lemma Math_ceil_of_nat (k : nat) : Math_ceil (of_nat k) = of_nat k.
Proof.
  unfold of_nat, of_Z. cbn [Math_ceil]. unfold of_Z. now rewrite Qceiling_Q2Qc, Qceiling_Z.
Qed.

Lemma nge_of_nat (a b : nat) : nge (of_nat a) (of_nat b) = (b <=? a).
Proof.
  unfold of_nat. rewrite nge_of_Z.
  destruct (Nat.leb_spec b a), (Z.leb_spec (Z.of_nat b) (Z.of_nat a)); try reflexivity; lia.
Qed.

Lemma nlt_of_nat_zero (a : nat) : nlt (of_nat a) zero = false.
Proof.
  unfold of_nat, zero. rewrite nlt_of_Z. apply Z.ltb_ge. lia.
Qed.

Lemma interpolate_50 (vs : list num) :
  Forall isFin vs -> vs <> [] -> interpolate vs (of_nat 50) = Some (medianOf vs).
Proof.
  intros Hfin Hne.
  assert (Hn : exists k, List.length vs = 2 * k + 1 \/ List.length vs = 2 * k + 2).
  { destruct vs as [|v vs]; [congruence|]. cbn [List.length].
    destruct (Nat.Even_or_Odd (List.length vs)) as [[k Hk]|[k Hk]].
    - exists k. left. lia.
    - exists k. right. lia. }
  destruct Hn as [k [Hn|Hn]]; unfold interpolate, medianOf; rewrite Hn.
  - replace (2 * k + 1 =? 0) with false by (symmetry; apply Nat.eqb_neq; lia).
    cbv zeta. rewrite index50_odd, Math_floor_of_nat, Math_ceil_of_nat.
    rewrite nge_of_nat, nlt_of_nat_zero.
    replace (2 * k + 1 <=? k) with false by (symmetry; apply Nat.leb_gt; lia).
    rewrite arr_num_of_nat.
    replace ((2 * k + 1) mod 2 =? 0) with false.
    2:{ symmetry. apply Nat.eqb_neq.
        replace (2 * k + 1) with (1 + k * 2) by lia. rewrite Nat.Div0.mod_add. discriminate. }
    replace ((2 * k + 1) / 2) with k.
    2:{ replace (2 * k + 1) with (1 + k * 2) by lia. rewrite Nat.div_add by lia. reflexivity. }
    destruct (@nth_isFin vs k Hfin) as [a Ha]; [lia|]. rewrite Ha.
    f_equal. rewrite !of_nat_Fin. cbn [nsub nneg nadd nmul]. apply (f_equal Fin).
    fold (qn 1) (qn k). rewrite qn_1. ring.
  - replace (2 * k + 2 =? 0) with false by (symmetry; apply Nat.eqb_neq; lia).
    cbv zeta. rewrite index50_even.
    cbn [Math_floor Math_ceil]. rewrite Qfloor_Q2Qc, Qceiling_Q2Qc.
    rewrite Qfloor_half_odd, Qceiling_half_odd.
    replace (Z.of_nat k + 1)%Z with (Z.of_nat (k + 1)) by lia.
    fold (of_nat k) (of_nat (k + 1)).
    rewrite nge_of_nat, nlt_of_nat_zero.
    replace (2 * k + 2 <=? k + 1) with false by (symmetry; apply Nat.leb_gt; lia).
    rewrite !arr_num_of_nat.
    replace ((2 * k + 2) mod 2 =? 0) with true.
    2:{ symmetry. apply Nat.eqb_eq.
        replace (2 * k + 2) with (0 + (k + 1) * 2) by lia. now rewrite Nat.Div0.mod_add. }
    replace ((2 * k + 2) / 2) with (k + 1).
    2:{ replace (2 * k + 2) with (0 + (k + 1) * 2) by lia. rewrite Nat.div_add by lia. reflexivity. }
    replace (k + 1 - 1) with k by lia.
    destruct (@nth_isFin vs k Hfin) as [a Ha]; [lia|].
    destruct (@nth_isFin vs (k + 1) Hfin) as [b Hb]; [lia|]. rewrite Ha, Hb.
    f_equal. rewrite !of_nat_Fin. fold (qn 1) (qn 2) (qn k).
    rewrite half_odd. fold (qn k).
    cbn [nsub nneg nadd nmul].
    rewrite (ndiv_Fin _ (qn_neq0 (n := 2) ltac:(lia))). apply (f_equal Fin).
    rewrite qn_1, qn_2, half_inv. field. apply two_neq0.
Qed.

Section PercentileMedian.
Context {host : Host}.

Lemma calculatePercentile_pure (calls : list CallRecord) (fieldId : string) (p : num) :
  Forall (fun c => has_metadata c = true) calls ->
  calculatePercentile calls fieldId p =
  Ok (interpolate (Array_sort ascending (finiteValues calls fieldId)) p).
Proof.
  intros Hall. unfold calculatePercentile.
  rewrite (numericValues_pure fieldId Hall). cbn [bind].
  unfold interpolate. cbv zeta.
  destruct (List.length _ =? 0); [reflexivity|].
  destruct (nge _ _); [reflexivity|]. destruct (nlt _ _); reflexivity.
Qed.

Lemma calculateStatistics_pure (calls : list CallRecord) (fieldId : string) :
  Forall (fun c => has_metadata c = true) calls ->
  calculateStatistics calls fieldId = Ok (statisticsOf (finiteValues calls fieldId)).
Proof.
  intros Hall. unfold calculateStatistics.
  rewrite (numericValues_pure fieldId Hall). cbn [bind].
  unfold statisticsOf. now destruct (List.length _ =? 0).
Qed.

(** C5 (amended). For records that carry metadata and a field with at
    least one finite numeric value, [calculatePercentile] at 50 and
    [calculateStatistics] both return a result, and the median of the
    statistics is the 50th percentile rounded to two decimals
    ([Math.round(p * 100) / 100]); the percentile itself is not
    rounded. *)
Theorem median_is_rounded_percentile50 (calls : list CallRecord) (fieldId : string) :
  Forall (fun c => has_metadata c = true) calls ->
  finiteValues calls fieldId <> [] ->
  exists p s,
    calculatePercentile calls fieldId (of_nat 50) = Ok (Some p) /\
    calculateStatistics calls fieldId = Ok (Some s) /\
    median s = round2 p.
Proof.
  intros Hall Hne.
  set (sorted := Array_sort ascending (finiteValues calls fieldId)).
  assert (Hfin : Forall isFin sorted).
  { apply (Permutation_Forall (Permutation_sym (Array_sort_perm ascending _))).
    apply finiteValues_isFin. }
  assert (Hsorted : sorted <> []).
  { intros E. apply (f_equal (@List.length num)) in E.
    unfold sorted in E. rewrite Array_sort_length in E.
    destruct (finiteValues calls fieldId); [congruence|discriminate]. }
  exists (medianOf sorted).
  rewrite (calculatePercentile_pure fieldId (of_nat 50) Hall).
  rewrite (calculateStatistics_pure fieldId Hall).
  fold sorted. rewrite (interpolate_50 Hfin Hsorted).
  unfold statisticsOf.
  destruct (List.length (finiteValues calls fieldId) =? 0) eqn:E.
  - apply Nat.eqb_eq in E. destruct (finiteValues calls fieldId); [congruence|discriminate].
  - eexists. split; [reflexivity|]. split; [reflexivity|]. reflexivity.
Qed.
End PercentileMedian.

Lemma median_is_rounded_percentile50_witness :
  exists p s,
    @calculatePercentile SampleHost.sample Samples.oneToTen "amount" (of_nat 50)
    = Ok (Some p) /\
    @calculateStatistics SampleHost.sample Samples.oneToTen "amount" = Ok (Some s) /\
    median s = round2 p.
Proof.
  apply (@median_is_rounded_percentile50 SampleHost.sample Samples.oneToTen "amount").
  - repeat constructor.
  - vm_compute. discriminate.
Defined.

(** C5 as stated fails for a single record whose value is 1.234: the
    percentile is 1.234, the median of the statistics 1.23. *)
Lemma percentile_median_counterexample :
  ~ @percentile50IsMedian SampleHost.sample Samples.oneAmount "amount".
Proof.
  intros [p [s [Hp [Hs Heq]]]].
  vm_compute in Hp. injection Hp as <-.
  vm_compute in Hs. injection Hs as <-.
  apply (f_equal (fun v => match v with
                           | Fin q => Qnum (this q)
                           | _ => 0%Z
                           end)) in Heq.
  vm_compute in Heq. discriminate.
Qed.

(* ================================================================== *)
(** * C6: histogram buckets *)
(* ================================================================== *)

Lemma nle_Fin (a b : Qc) : nle (Fin a) (Fin b) = true <-> (a <= b)%Qc.
Proof.
  unfold nle. cbn [nlt neqb]. rewrite orb_true_iff, Qcltb_lt, Qceqb_eq. split.
  - intros [H| ->]; [now apply Qclt_le_weak|apply Qcle_refl].
  - intros H. apply Qcle_lt_or_eq in H. tauto.
Qed.

Lemma min2_Fin (a b : Qc) :
  exists m, min2 (Fin a) (Fin b) = Fin m /\ (m <= a)%Qc /\ (m <= b)%Qc /\ (m = a \/ m = b).
Proof.
  cbn [min2 nlt]. destruct (Qcltb b a) eqn:E.
  - apply Qcltb_lt in E. exists b. repeat split; auto using Qcle_refl, Qclt_le_weak.
  - exists a. repeat split; auto using Qcle_refl.
    apply Qcnot_lt_le. intros H. apply Qcltb_lt in H. congruence.
Qed.

Lemma max2_Fin (a b : Qc) :
  exists m, max2 (Fin a) (Fin b) = Fin m /\ (a <= m)%Qc /\ (b <= m)%Qc /\ (m = a \/ m = b).
Proof.
  cbn [max2 nlt]. destruct (Qcltb a b) eqn:E.
  - apply Qcltb_lt in E. exists b. repeat split; auto using Qcle_refl, Qclt_le_weak.
  - exists a. repeat split; auto using Qcle_refl.
    apply Qcnot_lt_le. intros H. apply Qcltb_lt in H. congruence.
Qed.

Lemma fold_min2_Fin (vs : list num) (a : Qc) :
  Forall isFin vs ->
  exists m, fold_left min2 vs (Fin a) = Fin m /\ (m <= a)%Qc /\
            (forall q, In (Fin q) vs -> (m <= q)%Qc) /\
            (m = a \/ In (Fin m) vs).
Proof.
  intros H. revert a. induction H as [|v vs [q ->] _ IH]; intros a; cbn [fold_left].
  - exists a. repeat split; auto using Qcle_refl. intros q [].
  - destruct (min2_Fin a q) as (m0 & -> & Ha & Hq & Hm0).
    destruct (IH m0) as (m & -> & Hm & Hall & Hin).
    exists m. split; [reflexivity|]. split; [eapply Qcle_trans; eauto|]. split.
    + intros q' [E|Hq']; [apply Fin_inj in E; subst; eapply Qcle_trans; eauto|auto].
    + destruct Hin as [->|Hin]; [|right; now right].
      destruct Hm0 as [->| ->]; [now left|right; now left].
Qed.

Lemma fold_max2_Fin (vs : list num) (a : Qc) :
  Forall isFin vs ->
  exists m, fold_left max2 vs (Fin a) = Fin m /\ (a <= m)%Qc /\
            (forall q, In (Fin q) vs -> (q <= m)%Qc) /\
            (m = a \/ In (Fin m) vs).
Proof.
  intros H. revert a. induction H as [|v vs [q ->] _ IH]; intros a; cbn [fold_left].
  - exists a. repeat split; auto using Qcle_refl. intros q [].
  - destruct (max2_Fin a q) as (m0 & -> & Ha & Hq & Hm0).
    destruct (IH m0) as (m & -> & Hm & Hall & Hin).
    exists m. split; [reflexivity|]. split; [eapply Qcle_trans; eauto|]. split.
    + intros q' [E|Hq']; [apply Fin_inj in E; subst; eapply Qcle_trans; eauto|auto].
    + destruct Hin as [->|Hin]; [|right; now right].
      destruct Hm0 as [->| ->]; [now left|right; now left].
Qed.

Lemma Math_min_Fin (vs : list num) :
  Forall isFin vs -> vs <> [] ->
  exists m, Math_min vs = Fin m /\ In (Fin m) vs /\ forall q, In (Fin q) vs -> (m <= q)%Qc.
Proof.
  intros H Hne. destruct H as [|v vs [q ->] H]; [congruence|].
  unfold Math_min. cbn [fold_left].
  change (min2 PInf (Fin q)) with (Fin q).
  destruct (fold_min2_Fin q H) as (m & -> & Hm & Hall & Hin).
  exists m. split; [reflexivity|]. split.
  - destruct Hin as [->|Hin]; [now left|now right].
  - intros q' [E|Hq']; [apply Fin_inj in E; now subst|auto].
Qed.

Lemma Math_max_Fin (vs : list num) :
  Forall isFin vs -> vs <> [] ->
  exists m, Math_max vs = Fin m /\ In (Fin m) vs /\ forall q, In (Fin q) vs -> (q <= m)%Qc.
Proof.
  intros H Hne. destruct H as [|v vs [q ->] H]; [congruence|].
  unfold Math_max. cbn [fold_left].
  change (max2 NInf (Fin q)) with (Fin q).
  destruct (fold_max2_Fin q H) as (m & -> & Hm & Hall & Hin).
  exists m. split; [reflexivity|]. split.
  - destruct Hin as [->|Hin]; [now left|now right].
  - intros q' [E|Hq']; [apply Fin_inj in E; now subst|auto].
Qed.

Section Histogram.
Context {host : Host}.

Lemma numericValues_amounts (cells : list num) :
  numericValues (Samples.amounts cells) "amount"
  = Ok (filter (fun val => negb (isNaN val) && isFinite val) cells).
Proof.
  unfold numericValues, Samples.amounts.
  rewrite (mapM_pure _ (fun call => Number (valueOf call "amount"))).
  - cbn [bind]. rewrite map_map. do 2 f_equal.
    rewrite <- (map_id cells) at 2. apply map_ext. intros n. reflexivity.
  - intros a Ha. apply in_map_iff in Ha. destruct Ha as (n & <- & _). reflexivity.
Qed.

(** C6 (failing input).  Over the amounts -1e308, 0 and 1e308 with 2
    buckets, [max - min] overflows to [Infinity]: the bucket size is
    infinite, the lower bound of the first bucket is [NaN] and that of
    the last one [Infinity], and no value is counted in either bucket,
    although the last bucket is meant to hold the maximum.  Bucket
    bounds are rounded as well: over 0, 0.3 and 1 with 10 buckets the
    third and the fourth bucket differ in width.  Over the values 1 to
    10 with 5 buckets the counts are 2, 2, 2, 2, 2. *)
Theorem histogram_overflow_loses_maximum :
  (exists h,
     Binary64.generateHistogram Samples.extremes "amount" 2 = Ok h /\
     neqb (Binary64.bucketSizeOf
             [round64 (of_Z (- 10 ^ 308)); zero; round64 (of_Z (10 ^ 308))] 2) PInf
     = true /\
     map bucket_count h = [0; 0]) /\
  (let values := [zero; lit64 3 10; of_nat 1] in
   let size := Binary64.bucketSizeOf values 10 in
   let width i := nsub (Binary64.rangeEnd zero (of_nat 1) size 10 i)
                       (Binary64.rangeStart zero size i) in
   neqb (width 2) (width 3) = false) /\
  (exists h,
     Binary64.generateHistogram Samples.oneToTen "amount" 5 = Ok h /\
     map bucket_count h = [2; 2; 2; 2; 2]).
Proof.
  split; [|split].
  - unfold Binary64.generateHistogram, Samples.extremes.
    rewrite numericValues_amounts. cbn [bind].
    set (values := filter _ _).
    assert (Ev : values = [round64 (of_Z (- 10 ^ 308)); zero; round64 (of_Z (10 ^ 308))])
      by (vm_compute; reflexivity).
    rewrite Ev. clear values Ev. cbn [List.length Nat.eqb seq map].
    eexists. split; [reflexivity|]. split; [vm_compute; reflexivity|].
    unfold Binary64.histogramBucket. cbn [bucket_count map].
    vm_compute. reflexivity.
  - vm_compute. reflexivity.
  - unfold Binary64.generateHistogram.
    change Samples.oneToTen
      with (Samples.amounts (map of_nat [4; 9; 1; 7; 10; 2; 6; 3; 8; 5])).
    rewrite numericValues_amounts. cbn [bind].
    set (values := filter _ _).
    assert (Ev : values = map of_nat [4; 9; 1; 7; 10; 2; 6; 3; 8; 5])
      by (vm_compute; reflexivity).
    rewrite Ev. clear values Ev. cbn [List.length Nat.eqb seq map].
    eexists. split; [reflexivity|].
    unfold Binary64.histogramBucket. cbn [bucket_count map].
    vm_compute. reflexivity.
Qed.
End Histogram.

(* ================================================================== *)
(** * C7, C8, C9: correlate *)
(* ================================================================== *)

Ltac closed_num := apply neqb_eq; vm_compute; reflexivity.

Section CorrelateFacts.
Context {host : Host}.

Lemma correlationPairs_from (calls : list CallRecord) (a b : string)
      (acc : list (num * num)) :
  foldM (fun pairs call =>
           if negb (has_metadata call) then Ok pairs
           else
             v1 <- prop call a ;;
             v2 <- prop call b ;;
             let val1 := Number v1 in
             let val2 := Number v2 in
             if validPair val1 val2 then Ok (pairs ++ [(val1, val2)])
             else Ok pairs)
        calls acc
  = Ok (acc ++ pairsOf calls a b).
Proof.
  revert acc. induction calls as [|call calls IH]; intros acc; simpl.
  - now rewrite app_nil_r.
  - destruct (has_metadata call) eqn:Hm; simpl.
    + rewrite !prop_valueOf by assumption. simpl.
      destruct (validPair _ _); simpl; rewrite IH.
      * now rewrite <- app_assoc.
      * reflexivity.
    + apply IH.
Qed.

Lemma correlationPairs_pairsOf (calls : list CallRecord) (a b : string) :
  correlationPairs calls a b = Ok (pairsOf calls a b).
Proof. unfold correlationPairs. now rewrite correlationPairs_from. Qed.








Lemma correlate_resolved (calls : list CallRecord) (schema : SchemaDefinition)
      (a b : string) (f1 f2 : FieldDefinition) :
  findField schema a = Some f1 -> findField schema b = Some f2 ->
  correlate calls schema a b =
  Ok (Some
        (if List.length (pairsOf calls a b) <? 3 then
           {| field1 := displayName f1; field2 := displayName f2;
              coefficient := zero; strength := none |}
         else
           {| field1 := displayName f1; field2 := displayName f2;
              coefficient :=
                ndiv (Math_round (nmul (pearsonCoefficient (pairsOf calls a b))
                                       (of_nat 1000)))
                     (of_nat 1000);
              strength := interpretStrength (pearsonCoefficient (pairsOf calls a b)) |})).
Proof.
  intros H1 H2. unfold correlate. rewrite H1, H2, correlationPairs_pairsOf. simpl.
  destruct (List.length (pairsOf calls a b) <? 3); reflexivity.
Qed.

(** ** C7 *)

(** C7. When both fields resolve in the schema and the records yield
    fewer than three valid numeric pairs, [correlate] returns normally
    a result whose coefficient is 0 and whose strength is "none". *)
Theorem correlate_few_pairs (calls : list CallRecord) (schema : SchemaDefinition)
        (a b : string) (f1 f2 : FieldDefinition) :
  findField schema a = Some f1 ->
  findField schema b = Some f2 ->
  List.length (pairsOf calls a b) < 3 ->
  correlationPairs calls a b = Ok (pairsOf calls a b) /\
  correlate calls schema a b =
  Ok (Some {| field1 := displayName f1;
              field2 := displayName f2;
              coefficient := zero;
              strength := none |}).
Proof.
  intros H1 H2 Hlen. split; [apply correlationPairs_pairsOf|].
  rewrite (correlate_resolved calls schema a b H1 H2).
  apply Nat.ltb_lt in Hlen. now rewrite Hlen.
Qed.

(** ** C8 *)


(** ** C9 *)

Lemma fdiv_NaN (x : num) : fdiv x NaN = NaN.
Proof. destruct x; reflexivity. Qed.

(** C9 (failing input).  The guard of the division compares the
    denominator with 0, and rounding can make the denominator of a
    constant field something else.  With the constant amount 5 every
    operation is exact, the denominator is 0 and the coefficient is 0.
    With the constant amount 0.07 over three records,
    [n * sum1Sq - sum1 * sum1] is rounded to a negative number, the
    radicand is negative, [Math.sqrt] returns [NaN], the guard
    [denominator !== 0] lets [NaN] pass and the coefficient is [NaN]. *)
Theorem correlate_constant_field_nan :
  Math_sqrt zero = zero ->
  (forall x, nlt x zero = true -> Math_sqrt x = NaN) ->
  (exists r,
     Binary64.correlate Samples.constant3 Samples.callSchema "amount" "days"
     = Ok (Some r) /\
     neqb (coefficient r) zero = true /\ strength r = none) /\
  pairsOf Samples.cents3 "amount" "days"
  = [(lit64 7 100, of_nat 1); (lit64 7 100, of_nat 2); (lit64 7 100, of_nat 3)] /\
  nlt (Binary64.pearsonRadicand (pairsOf Samples.cents3 "amount" "days")) zero = true /\
  Binary64.correlate Samples.cents3 Samples.callSchema "amount" "days"
  = Ok (Some {| field1 := "amount"; field2 := "days";
                coefficient := NaN; strength := none |}).
Proof.
  intros Hzero Hneg.
  assert (F1 : findField Samples.callSchema "amount"
               = Some (Samples.field "amount" "number" (Some "measure")))
    by reflexivity.
  assert (F2 : findField Samples.callSchema "days"
               = Some (Samples.field "days" "number" None)) by reflexivity.
  assert (E5 : pairsOf Samples.constant3 "amount" "days"
               = [(of_nat 5, of_nat 2); (of_nat 5, of_nat 4); (of_nat 5, of_nat 9)])
    by (vm_compute; reflexivity).
  assert (E7 : pairsOf Samples.cents3 "amount" "days"
               = [(lit64 7 100, of_nat 1); (lit64 7 100, of_nat 2);
                  (lit64 7 100, of_nat 3)])
    by (vm_compute; reflexivity).
  split; [|split; [exact E7|split]].
  - unfold Binary64.correlate. rewrite F1, F2, correlationPairs_pairsOf, E5.
    cbn [bind List.length Nat.ltb Nat.leb]. eexists. split; [reflexivity|].
    cbn [coefficient strength].
    assert (R : Binary64.pearsonRadicand
                  [(of_nat 5, of_nat 2); (of_nat 5, of_nat 4); (of_nat 5, of_nat 9)]
                = zero) by closed_num.
    unfold Binary64.pearsonCoefficient, Binary64.pearsonDenominator.
    rewrite R, Hzero.
    replace (neqb zero zero) with true by (symmetry; now apply neqb_zero).
    cbn [negb]. split; vm_compute; reflexivity.
  - rewrite E7. vm_compute. reflexivity.
  - unfold Binary64.correlate. rewrite F1, F2, correlationPairs_pairsOf.
    assert (N : nlt (Binary64.pearsonRadicand (pairsOf Samples.cents3 "amount" "days"))
                    zero = true) by (rewrite E7; vm_compute; reflexivity).
    rewrite E7 in *. cbn [bind List.length Nat.ltb Nat.leb].
    unfold Binary64.pearsonCoefficient, Binary64.pearsonDenominator.
    rewrite (Hneg _ N). cbn [neqb negb]. rewrite fdiv_NaN. reflexivity.
Qed.
End CorrelateFacts.

(* ================================================================== *)
(** * Evaluations of correlate *)
(* ================================================================== *)

Lemma correlate_few_pairs_witness :
  @correlate SampleHost.sample Samples.sparse3 Samples.callSchema "amount" "days" =
  Ok (Some {| field1 := "amount"; field2 := "days";
              coefficient := zero; strength := none |}).
Proof.
  apply (@correlate_few_pairs SampleHost.sample Samples.sparse3 Samples.callSchema
           "amount" "days" (Samples.field "amount" "number" (Some "measure"))
           (Samples.field "days" "number" None)).
  - reflexivity.
  - reflexivity.
  - vm_compute. lia.
Defined.


Lemma correlate_constant_field_nan_witness :
  @Binary64.correlate SampleHost.sample Samples.cents3 Samples.callSchema "amount" "days"
  = Ok (Some {| field1 := "amount"; field2 := "days";
                coefficient := NaN; strength := none |}).
Proof.
  apply (@correlate_constant_field_nan SampleHost.sample).
  - closed_num.
  - intros [| | |q] H; try reflexivity; try discriminate.
    cbn [nlt] in H. unfold Math_sqrt, SampleHost.sample, SampleHost.sqrtApprox.
    change zero with (Fin 0%Qc) in H. cbn [nlt] in H. rewrite H. reflexivity.
Defined.

(* ================================================================== *)
(** * C3: which operations can throw *)
(* ================================================================== *)

Lemma foldM_returns {A B : Type} (f : B -> A -> res B) (l : list A) :
  (forall b a, In a l -> returns (f b a)) -> forall acc, returns (foldM f l acc).
Proof.
  induction l as [|a l IH]; intros H acc; simpl.
  - now exists acc.
  - destruct (H acc a (or_introl eq_refl)) as [b ->]. simpl.
    apply IH. intros; apply H; now right.
Qed.

Section Throwing.
Context {host : Host}.

Lemma numericValues_throws_without_metadata (calls : list CallRecord) (fieldId : string) :
  (exists c, In c calls /\ has_metadata c = false) ->
  numericValues calls fieldId = Throw TypeError.
Proof.
  intros [c [Hin Hc]]. unfold numericValues.
  enough (H : mapM (fun call => v <- prop call fieldId ;; Ok (Number v)) calls
              = Throw TypeError) by now rewrite H.
  induction calls as [|a calls IH]; [destruct Hin|]. simpl.
  destruct (has_metadata a) eqn:Ha.
  - rewrite (prop_valueOf a fieldId Ha). simpl.
    destruct Hin as [->|Hin]; [congruence|]. now rewrite (IH Hin).
  - now rewrite (prop_throws a fieldId Ha).
Qed.

(** The operations that test [!call.metadata] complete normally on
    every list of records. *)
Lemma guarded_operations_return (calls : list CallRecord) (schema : SchemaDefinition)
      (view : AnalyticsView) (a b : string) (limit : nat) (filters : list Filter) :
  returns (aggregateByDimension calls schema view) /\
  returns (correlate calls schema a b) /\
  returns (generateScatterData calls schema a b) /\
  returns (getTopValues calls a limit) /\
  returns (filterCalls calls filters).
Proof.
  split; [|split; [|split; [|split]]].
  - destruct (findField schema (dimensionField view)) as [fd|] eqn:Hd.
    + rewrite (aggregateByDimension_pure calls schema view Hd). now eexists.
    + rewrite (aggregateByDimension_unresolved calls schema view Hd). now eexists.
  - unfold correlate.
    destruct (findField schema a), (findField schema b); try (now eexists).
    rewrite correlationPairs_pairsOf. simpl.
    destruct (List.length _ <? 3); now eexists.
  - unfold generateScatterData.
    destruct (findField schema a), (findField schema b); try (now eexists).
    apply foldM_returns. intros data call _.
    destruct (has_metadata call) eqn:Hm; simpl; [|now eexists].
    rewrite !(prop_valueOf call _ Hm). simpl.
    destruct (validPair _ _); [|now eexists].
    destruct (orElse _ _) as [lf|]; simpl.
    + rewrite (prop_valueOf call _ Hm). simpl. now eexists.
    + now eexists.
  - rewrite getTopValues_pure. now eexists.
  - unfold filterCalls. apply foldM_returns. intros kept call _.
    destruct (has_metadata call) eqn:Hm; simpl; [|now eexists].
    assert (He : returns (everyFilter call filters)).
    { induction filters as [|f filters IH]; simpl; [now eexists|].
      rewrite (prop_valueOf call _ Hm). simpl.
      destruct (applyFilter _ f); [exact IH|now eexists]. }
    destruct He as [keep ->]. simpl. now eexists.
Qed.

(** C3 (the code departs from it). [calculatePercentile],
    [generateHistogram] and [calculateStatistics] read
    [call.metadata[fieldId]] without the [!call.metadata] test the other
    operations make: on any list that holds a record without metadata
    they throw a [TypeError].  [calculateTrends] throws a [RangeError]
    as soon as the first record's timestamp cell is not a date. *)
Theorem unguarded_operations_throw (calls rest : list CallRecord) (c d : CallRecord)
        (schema : SchemaDefinition) (view : AnalyticsView) (tf : FieldDefinition)
        (fieldId : string) (percentile : num) (buckets : nat) :
  In c calls -> has_metadata c = false ->
  has_metadata d = true ->
  timestampFieldOf schema = Some tf ->
  Date_toISOString (timestampOf tf d) = None ->
  calculatePercentile calls fieldId percentile = Throw TypeError /\
  generateHistogram calls fieldId buckets = Throw TypeError /\
  calculateStatistics calls fieldId = Throw TypeError /\
  calculateTrends (d :: rest) schema view = Throw RangeError.
Proof.
  intros Hin Hc Hd Htf Hdate.
  assert (Hv : numericValues calls fieldId = Throw TypeError)
    by (apply numericValues_throws_without_metadata; eauto).
  unfold calculatePercentile, generateHistogram, calculateStatistics.
  rewrite !Hv. repeat (split; [reflexivity|]).
  unfold calculateTrends. fold (timestampFieldOf schema). rewrite Htf.
  cbn [foldM]. rewrite Hd. cbn [negb].
  rewrite (prop_valueOf d (field_id tf) Hd). cbn [bind].
  fold (timestampOf tf d). now rewrite Hdate.
Qed.
End Throwing.

Lemma unguarded_operations_throw_witness :
  @calculatePercentile SampleHost.sample (Samples.aab ++ [Samples.bare "c4"])
    "amount" (of_nat 50) = Throw TypeError /\
  @generateHistogram SampleHost.sample (Samples.aab ++ [Samples.bare "c4"])
    "amount" 10 = Throw TypeError /\
  @calculateStatistics SampleHost.sample (Samples.aab ++ [Samples.bare "c4"])
    "amount" = Throw TypeError /\
  @calculateTrends SampleHost.sample [Samples.undated] Samples.callSchema
    Samples.amountOverTime = Throw RangeError.
Proof.
  apply (@unguarded_operations_throw SampleHost.sample
           (Samples.aab ++ [Samples.bare "c4"]) [] (Samples.bare "c4") Samples.undated
           Samples.callSchema Samples.amountOverTime
           (Samples.field "time" "date" (Some "timestamp")) "amount" (of_nat 50) 10).
  - simpl. tauto.
  - reflexivity.
  - reflexivity.
  - reflexivity.
  - reflexivity.
Defined.

(* ================================================================== *)
(** * Evaluations of the other operations *)
(* ================================================================== *)

(** Scenario 3 of the specification: the pairs (1,2), (2,4), (3,6). *)
Example correlate_linear3 :
  @correlate SampleHost.sample Samples.linear3 Samples.callSchema "amount" "days" =
  Ok (Some {| field1 := "amount"; field2 := "days";
              coefficient := of_nat 1; strength := strong |}).
Proof. num_eq. Qed.

Example calculateTrends_week :
  @calculateTrends SampleHost.sample Samples.week Samples.callSchema
    Samples.amountOverTime =
  Ok [ {| date := "2024-03-01"; trend_value := of_nat 7; trend_count := 2 |};
       {| date := "2024-03-02"; trend_value := lit 15 2; trend_count := 2 |} ].
Proof. num_eq. Qed.

Example getTopValues_week :
  @getTopValues SampleHost.sample Samples.week "agent" 2 =
  Ok [ {| top_value := "Ann"; top_count := 2; top_percentage := of_nat 50 |};
       {| top_value := "Bob"; top_count := 1; top_percentage := of_nat 25 |} ].
Proof. num_eq. Qed.

Example filterCalls_week :
  @filterCalls SampleHost.sample Samples.week
    [ {| filter_fieldId := "amount"; operator := gte; filter_value := VNum (of_nat 5) |};
      {| filter_fieldId := "agent"; operator := contains; filter_value := VStr "AN" |} ]
  = Ok [Samples.dated "c1" "Ann" "2024-03-02T10:00:00.000Z" (of_nat 5)].
Proof. num_eq. Qed.

Example generateScatterData_linear3 :
  @generateScatterData SampleHost.sample Samples.linear3 Samples.callSchema
    "amount" "days" =
  Ok [ {| x := of_nat 1; y := of_nat 2; label := Some "Ann" |};
       {| x := of_nat 2; y := of_nat 4; label := Some "Ann" |};
       {| x := of_nat 3; y := of_nat 6; label := Some "Ann" |} ].
Proof. num_eq. Qed.

(* ================================================================== *)
(** * Sorting orders

    For a comparator that is consistent on the elements of the array
    (asymmetric, and transitive on the pairs it does not put in
    order), the sort
    returns them in order and keeps tied elements in input order. *)
(* ================================================================== *)

Section SortOrder.
Context {A : Type} (comparefn : A -> A -> num) (dom : A -> Prop).

Local Abbreviation before := (fun x e : A => nlt (comparefn x e) zero).
Local Abbreviation notAfter := (fun a b : A => nlt (comparefn b a) zero = false).

Hypothesis before_asym :
  forall a b, dom a -> dom b -> before a b = true -> before b a = false.
Hypothesis before_negtrans :
  forall a b c, dom a -> dom b -> dom c ->
    before a b = false -> before b c = false -> before a c = false.

Lemma sort_insert_In (x a : A) (l : list A) :
  In a (sort_insert comparefn x l) -> a = x \/ In a l.
Proof.
  intros H. apply (Permutation_in _ (sort_insert_perm comparefn x l)) in H.
  destruct H as [<-|H]; auto.
Qed.

Lemma sort_insert_sorted (x : A) (l : list A) :
  dom x -> Forall dom l ->
  StronglySorted notAfter l -> StronglySorted notAfter (sort_insert comparefn x l).
Proof.
  intros Dx Dl S. induction S as [|e l S IH F]; cbn [sort_insert].
  - constructor; constructor.
  - inversion Dl as [|? ? De Dl']; subst.
    destruct (nlt (comparefn x e) zero) eqn:E.
    + constructor; [constructor; assumption|].
      constructor; [apply before_asym; assumption|].
      rewrite Forall_forall in *. intros e' He'.
      apply (@before_negtrans e' e x); auto.
    + constructor; [apply IH; assumption|].
      rewrite Forall_forall in *. intros a Ha.
      apply sort_insert_In in Ha. destruct Ha as [->|Ha]; auto.
Qed.

Lemma sort_insert_dom (x : A) (l : list A) :
  dom x -> Forall dom l -> Forall dom (sort_insert comparefn x l).
Proof.
  intros Dx Dl. rewrite Forall_forall in *. intros a Ha.
  apply sort_insert_In in Ha. destruct Ha as [->|Ha]; auto.
Qed.

Lemma Array_sort_sorted (l : list A) :
  Forall dom l -> StronglySorted notAfter (Array_sort comparefn l).
Proof.
  intros Dl. unfold Array_sort.
  assert (G : forall acc, Forall dom acc -> StronglySorted notAfter acc ->
                          StronglySorted notAfter
                            (fold_left (fun acc x => sort_insert comparefn x acc) l acc)).
  { induction Dl as [|x l Dx Dl IH]; intros acc Da Sa; cbn [fold_left]; [assumption|].
    apply IH; [apply sort_insert_dom | apply sort_insert_sorted]; assumption. }
  apply G; constructor.
Qed.

(** Stability: the elements of a class of mutually tied elements keep
    their input order. *)
Variable tied : A -> bool.
Hypothesis tied_ties :
  forall a b, tied a = true -> tied b = true -> before a b = false.

Lemma sort_insert_tied (x : A) (l : list A) :
  dom x -> Forall dom l -> StronglySorted notAfter l ->
  filter tied (sort_insert comparefn x l)
  = filter tied l ++ (if tied x then [x] else []).
Proof.
  intros Dx Dl S. induction S as [|e l S IH F]; cbn [sort_insert].
  - cbn. destruct (tied x); reflexivity.
  - inversion Dl as [|? ? De Dl']; subst.
    destruct (nlt (comparefn x e) zero) eqn:E.
    + destruct (tied x) eqn:Tx.
      * (* nothing from [e] on is tied with [x] *)
        assert (N : forall a, In a (e :: l) -> tied a = false).
        { intros a [<-|Ha].
          - destruct (tied e) eqn:Te; [|reflexivity].
            rewrite (tied_ties Tx Te) in E. discriminate.
          - destruct (tied a) eqn:Ta; [|reflexivity].
            rewrite Forall_forall in F, Dl'.
            pose proof (@before_negtrans x a e Dx (Dl' _ Ha) De
                          (tied_ties Tx Ta) (F _ Ha)) as C.
            cbv beta in C. rewrite E in C. discriminate. }
        assert (Z : filter tied (e :: l) = []).
        { clear - N. induction (e :: l) as [|a l' IH']; [reflexivity|].
          cbn. rewrite (N a (or_introl eq_refl)). apply IH'.
          intros b Hb. apply N. right. exact Hb. }
        change (filter tied (x :: e :: l)) with
          (if tied x then x :: filter tied (e :: l) else filter tied (e :: l)).
        rewrite Tx, Z. reflexivity.
      * change (filter tied (x :: e :: l)) with
          (if tied x then x :: filter tied (e :: l) else filter tied (e :: l)).
        rewrite Tx, app_nil_r. reflexivity.
    + cbn [filter]. rewrite (IH Dl').
      destruct (tied e); reflexivity.
Qed.

Lemma Array_sort_stable (l : list A) :
  Forall dom l -> filter tied (Array_sort comparefn l) = filter tied l.
Proof.
  intros Dl. unfold Array_sort.
  assert (G : forall acc, Forall dom acc -> StronglySorted notAfter acc ->
                filter tied (fold_left (fun acc x => sort_insert comparefn x acc) l acc)
                = filter tied acc ++ filter tied l).
  { induction Dl as [|x l Dx Dl IH]; intros acc Da Sa; cbn [fold_left].
    - rewrite app_nil_r. reflexivity.
    - rewrite IH; [| apply sort_insert_dom; assumption
                   | apply sort_insert_sorted; assumption].
      rewrite sort_insert_tied by assumption.
      rewrite <- app_assoc. f_equal. cbn [filter]. destruct (tied x); reflexivity. }
  rewrite G; [reflexivity | constructor | constructor].
Qed.
End SortOrder.

Lemma nlt_nsub_zero (a b : Qc) : nlt (nsub (Fin a) (Fin b)) zero = Qcltb a b.
Proof.
  cbn [nsub nneg nadd nlt zero of_Z].
  replace (Q2Qc (inject_Z 0)) with 0%Qc by (apply Qc_is_canon; reflexivity).
  destruct (Qcltb a b) eqn:E.
  - apply Qcltb_lt. apply Qcltb_lt in E.
    apply Qclt_minus_iff in E. apply Qclt_minus_iff.
    replace (0 + - (a + - b))%Qc with (b + - a)%Qc by ring. exact E.
  - destruct (Qcltb (a + - b) 0) eqn:F; [|reflexivity].
    apply Qcltb_lt in F. apply Qclt_minus_iff in F.
    replace (0 + - (a + - b))%Qc with (b + - a)%Qc in F by ring.
    apply Qclt_minus_iff in F. apply Qcltb_lt in F. congruence.
Qed.

Lemma Qcltb_negtrans (a b c : Qc) :
  Qcltb a b = false -> Qcltb b c = false -> Qcltb a c = false.
Proof.
  intros H1 H2. destruct (Qcltb a c) eqn:E; [|reflexivity].
  apply Qcltb_lt in E.
  assert (N1 : ~ (a < b)%Qc) by (rewrite <- Qcltb_lt; congruence).
  assert (N2 : ~ (b < c)%Qc) by (rewrite <- Qcltb_lt; congruence).
  apply Qcnot_lt_le in N1. apply Qcnot_lt_le in N2.
  exfalso. apply (Qclt_not_le _ _ E). apply (Qcle_trans _ _ _ N2 N1).
Qed.

Lemma Qcltb_asym (a b : Qc) : Qcltb a b = true -> Qcltb b a = false.
Proof.
  intros H. destruct (Qcltb b a) eqn:E; [|reflexivity].
  apply Qcltb_lt in H. apply Qcltb_lt in E.
  exfalso. apply (Qclt_not_le _ _ H). apply Qclt_le_weak. exact E.
Qed.

Lemma nle_Fin_ltb (a b : Qc) : nle (Fin a) (Fin b) = negb (Qcltb b a).
Proof.
  destruct (Qcltb b a) eqn:E; cbn [negb].
  - destruct (nle (Fin a) (Fin b)) eqn:F; [|reflexivity].
    apply nle_Fin in F. apply Qcltb_lt in E.
    exfalso. apply (Qclt_not_le _ _ E F).
  - apply nle_Fin. apply Qcnot_lt_le. rewrite <- Qcltb_lt. congruence.
Qed.

Section SortByKey.
Context {A : Type} (key : A -> num).

Local Abbreviation finiteKey := (fun a : A => isFin (key a)).

(** Descending by key: the comparator [(a, b) => key(b) - key(a)]. *)
Lemma Array_sort_desc (l : list A) :
  Forall finiteKey l ->
  StronglySorted (fun a b => nle (key b) (key a) = true)
                 (Array_sort (fun a b => nsub (key b) (key a)) l).
Proof.
  intros F.
  pose proof (@Array_sort_sorted A (fun a b => nsub (key b) (key a)) finiteKey) as S.
  cbv beta in S.
  assert (S' : StronglySorted
                 (fun a b => nlt (nsub (key a) (key b)) zero = false)
                 (Array_sort (fun a b => nsub (key b) (key a)) l)).
  { apply S; [| | exact F].
    - intros a b [qa Ha] [qb Hb]. rewrite Ha, Hb, !nlt_nsub_zero. apply Qcltb_asym.
    - intros a b c [qa Ha] [qb Hb] [qc Hc]. rewrite Ha, Hb, Hc, !nlt_nsub_zero.
      intros H1 H2. apply (Qcltb_negtrans _ _ _ H2 H1). }
  assert (D : Forall finiteKey (Array_sort (fun a b => nsub (key b) (key a)) l)).
  { rewrite Forall_forall in *. intros a Ha. apply F.
    apply Array_sort_In in Ha. exact Ha. }
  revert D. induction S' as [|a l' S' IH Fa]; intros D; constructor.
  - apply IH. inversion D; assumption.
  - inversion D as [|? ? [qa Ha] D']; subst.
    rewrite Forall_forall in *. intros b Hb.
    destruct (D' _ Hb) as [qb Eb]. specialize (Fa _ Hb). cbv beta in Fa.
    rewrite Ha, Eb in *. rewrite nlt_nsub_zero in Fa.
    rewrite nle_Fin_ltb, Fa. reflexivity.
Qed.

Lemma Array_sort_desc_stable (l : list A) (k : num) :
  Forall finiteKey l ->
  filter (fun a => neqb (key a) k) (Array_sort (fun a b => nsub (key b) (key a)) l)
  = filter (fun a => neqb (key a) k) l.
Proof.
  intros F.
  apply (@Array_sort_stable A (fun a b => nsub (key b) (key a)) finiteKey).
  - intros a b [qa Ha] [qb Hb]. rewrite Ha, Hb, !nlt_nsub_zero. apply Qcltb_asym.
  - intros a b c [qa Ha] [qb Hb] [qc Hc]. rewrite Ha, Hb, Hc, !nlt_nsub_zero.
    intros H1 H2. apply (Qcltb_negtrans _ _ _ H2 H1).
  - intros a b Ha Hb. apply neqb_eq in Ha. apply neqb_eq in Hb.
    rewrite Ha, Hb. destruct k; try reflexivity.
    rewrite nlt_nsub_zero. apply Qcltb_irrefl.
  - exact F.
Qed.

(** Ascending by key: the comparator [(a, b) => key(a) - key(b)]. *)
Lemma Array_sort_asc (l : list A) :
  Forall finiteKey l ->
  StronglySorted (fun a b => nle (key a) (key b) = true)
                 (Array_sort (fun a b => nsub (key a) (key b)) l).
Proof.
  intros F.
  pose proof (@Array_sort_sorted A (fun a b => nsub (key a) (key b)) finiteKey) as S.
  cbv beta in S.
  assert (S' : StronglySorted
                 (fun a b => nlt (nsub (key b) (key a)) zero = false)
                 (Array_sort (fun a b => nsub (key a) (key b)) l)).
  { apply S; [| | exact F].
    - intros a b [qa Ha] [qb Hb]. rewrite Ha, Hb, !nlt_nsub_zero. apply Qcltb_asym.
    - intros a b c [qa Ha] [qb Hb] [qc Hc]. rewrite Ha, Hb, Hc, !nlt_nsub_zero.
      apply Qcltb_negtrans. }
  assert (D : Forall finiteKey (Array_sort (fun a b => nsub (key a) (key b)) l)).
  { rewrite Forall_forall in *. intros a Ha. apply F.
    apply Array_sort_In in Ha. exact Ha. }
  revert D. induction S' as [|a l' S' IH Fa]; intros D; constructor.
  - apply IH. inversion D; assumption.
  - inversion D as [|? ? [qa Ha] D']; subst.
    rewrite Forall_forall in *. intros b Hb.
    destruct (D' _ Hb) as [qb Eb]. specialize (Fa _ Hb). cbv beta in Fa.
    rewrite Ha, Eb in *. rewrite nlt_nsub_zero in Fa.
    rewrite nle_Fin_ltb, Fa. reflexivity.
Qed.
End SortByKey.

Lemma Ascii_compare_lt_trans (a b c : ascii) :
  Ascii.compare a b = Lt -> Ascii.compare b c = Lt -> Ascii.compare a c = Lt.
Proof.
  unfold Ascii.compare. rewrite !N.compare_lt_iff. apply N.lt_trans.
Qed.

Lemma String_compare_lt_trans (a b c : string) :
  String.compare a b = Lt -> String.compare b c = Lt -> String.compare a c = Lt.
Proof.
  revert b c. induction a as [|x a IH]; intros [|y b] [|z c]; cbn; try congruence.
  destruct (Ascii.compare x y) eqn:Exy; try discriminate.
  - apply Ascii.compare_eq_iff in Exy. subst y.
    destruct (Ascii.compare x z) eqn:Exz; try congruence. apply IH.
  - intros _. destruct (Ascii.compare y z) eqn:Eyz; try discriminate.
    + apply Ascii.compare_eq_iff in Eyz. subst z. rewrite Exy. reflexivity.
    + rewrite (Ascii_compare_lt_trans _ _ _ Exy Eyz). reflexivity.
Qed.

Lemma String_compare_negtrans (a b c : string) :
  String.compare a b <> Lt -> String.compare b c <> Lt -> String.compare a c <> Lt.
Proof.
  intros H1 H2 H3.
  destruct (String.compare a b) eqn:Eab; [| congruence |].
  - apply String.compare_eq_iff in Eab. subst b. congruence.
  - destruct (String.compare b c) eqn:Ebc; [| congruence |].
    + apply String.compare_eq_iff in Ebc. subst c. congruence.
    + rewrite String.compare_antisym in Eab, Ebc.
      destruct (String.compare b a) eqn:Eba; try discriminate.
      destruct (String.compare c b) eqn:Ecb; try discriminate.
      pose proof (String_compare_lt_trans _ _ _ Ecb Eba) as Eca.
      rewrite String.compare_antisym, Eca in H3. discriminate.
Qed.

Lemma localeCompare_before (a b : string) :
  nlt (localeCompare a b) zero = match String.compare a b with Lt => true | _ => false end.
Proof.
  unfold localeCompare. destruct (String.compare a b); vm_compute; reflexivity.
Qed.

Section SortByDate.
Context {A : Type} (key : A -> string).

(** Ascending by a text key: the comparator
    [(a, b) => key(a).localeCompare(key(b))]. *)
Lemma Array_sort_localeCompare (l : list A) :
  StronglySorted (fun a b => String.compare (key a) (key b) <> Gt)
                 (Array_sort (fun a b => localeCompare (key a) (key b)) l).
Proof.
  pose proof (@Array_sort_sorted A (fun a b => localeCompare (key a) (key b))
                (fun _ => True)) as S.
  cbv beta in S.
  assert (S' : StronglySorted
                 (fun a b => nlt (localeCompare (key b) (key a)) zero = false)
                 (Array_sort (fun a b => localeCompare (key a) (key b)) l)).
  { apply S.
    - intros a b _ _. rewrite !localeCompare_before.
      rewrite (String.compare_antisym (key a) (key b)).
      destruct (String.compare (key b) (key a)); cbn; congruence.
    - intros a b c _ _ _. rewrite !localeCompare_before.
      pose proof (@String_compare_negtrans (key a) (key b) (key c)) as N.
      destruct (String.compare (key a) (key b)); try discriminate;
        destruct (String.compare (key b) (key c)); try discriminate;
        destruct (String.compare (key a) (key c)); try reflexivity;
        intros _ _; exfalso; apply N; congruence.
    - rewrite Forall_forall. intros; exact I. }
  induction S' as [|a l' S' IH Fa]; constructor; [exact IH|].
  rewrite Forall_forall in *. intros b Hb. specialize (Fa _ Hb). cbv beta in Fa.
  rewrite localeCompare_before in Fa.
  rewrite String.compare_antisym.
  destruct (String.compare (key b) (key a)); cbn; congruence.
Qed.
End SortByDate.

(* ================================================================== *)
(** * Groups in the order of first appearance *)
(* ================================================================== *)

Lemma StronglySorted_weaken {A : Type} (R R' : A -> A -> Prop) (l : list A) :
  (forall a b, In a l -> In b l -> R a b -> R' a b) ->
  StronglySorted R l -> StronglySorted R' l.
Proof.
  intros W S. induction S as [|a l S IH F]; constructor.
  - apply IH. intros x y Hx Hy. apply W; right; assumption.
  - rewrite Forall_forall in *. intros b Hb.
    apply W; [left; reflexivity | right; exact Hb | apply F; exact Hb].
Qed.

Lemma StronglySorted_firstn {A : Type} (R : A -> A -> Prop) (n : nat) (l : list A) :
  StronglySorted R l -> StronglySorted R (firstn n l).
Proof.
  intros S. revert n. induction S as [|a l S IH F]; intros [|n]; cbn [firstn];
    try constructor.
  - apply IH.
  - rewrite Forall_forall in *. intros b Hb. apply F.
    apply (In_firstn n l b Hb).
Qed.

Lemma NoDup_firstn {A : Type} (n : nat) (l : list A) : NoDup l -> NoDup (firstn n l).
Proof.
  intros N. revert n. induction N as [|a l Ha N IH]; intros [|n]; cbn [firstn];
    try constructor.
  - intros H. apply Ha. apply (In_firstn n l a H).
  - apply IH.
Qed.

Lemma map_firstn {A B : Type} (f : A -> B) (n : nat) (l : list A) :
  map f (firstn n l) = firstn n (map f l).
Proof.
  revert n. induction l as [|a l IH]; intros [|n]; cbn; try reflexivity.
  rewrite IH. reflexivity.
Qed.

Lemma existsb_eqb_In (k : string) (seen : list string) :
  existsb (fun s => String.eqb s k) seen = true <-> In k seen.
Proof.
  rewrite existsb_exists. split.
  - intros [s [Hs E]]. apply String.eqb_eq in E. subst s. exact Hs.
  - intros H. exists k. split; [exact H | apply String.eqb_refl].
Qed.

Lemma group_push_firstSeen {A : Type} (groups : list (string * list A))
      (key : string) (a : A) :
  map fst (group_push groups key a)
  = if existsb (fun s => String.eqb s key) (map fst groups)
    then map fst groups else map fst groups ++ [key].
Proof.
  induction groups as [|[k xs] rest IH]; cbn [group_push map fst existsb].
  - reflexivity.
  - destruct (String.eqb k key) eqn:E; cbn [orb map fst].
    + reflexivity.
    + rewrite IH. destruct (existsb _ (map fst rest)); reflexivity.
Qed.

Lemma count_push_sizes {A : Type} (groups : list (string * list A))
      (key : string) (a : A) :
  map sizeOf (group_push groups key a) = count_push (map sizeOf groups) key.
Proof.
  induction groups as [|[k xs] rest IH]; cbn [group_push map count_push].
  - reflexivity.
  - unfold sizeOf at 2. cbn [fst snd].
    destruct (String.eqb k key); cbn [map].
    + unfold sizeOf at 1. cbn [fst snd]. rewrite length_app. cbn [List.length].
      rewrite Nat.add_1_r. reflexivity.
    + rewrite IH. reflexivity.
Qed.

Section FirstSeen.
Context {host : Host}.

Lemma groupsOf_firstSeen (d : string) (calls : list CallRecord) :
  map fst (groupsOf d calls) = firstSeen (keysOf d calls).
Proof.
  unfold groupsOf, firstSeen, keysOf.
  assert (G : forall acc : list (string * list CallRecord),
             map fst (fold_left (fun groups call =>
                                   if has_metadata call
                                   then group_push groups (groupKey d call) call
                                   else groups) calls acc)
             = fold_left (fun seen k =>
                            if existsb (fun s => String.eqb s k) seen
                            then seen else seen ++ [k])
                         (map (groupKey d) (filter has_metadata calls)) (map fst acc)).
  { induction calls as [|c calls IH]; intros acc; cbn [fold_left filter map].
    - reflexivity.
    - destruct (has_metadata c) eqn:M; cbn [map fold_left].
      + rewrite IH. rewrite group_push_firstSeen. reflexivity.
      + apply IH. }
  apply (G []).
Qed.

Lemma countsOf_groupsOf (f : string) (calls : list CallRecord) :
  countsOf f calls = map sizeOf (groupsOf f calls).
Proof.
  unfold countsOf, groupsOf.
  assert (G : forall acc : list (string * list CallRecord),
             fold_left (fun counts call =>
                          if has_metadata call
                          then count_push counts (groupKey f call)
                          else counts) calls (map sizeOf acc)
             = map sizeOf (fold_left (fun groups call =>
                                        if has_metadata call
                                        then group_push groups (groupKey f call) call
                                        else groups) calls acc)).
  { induction calls as [|c calls IH]; intros acc; cbn [fold_left].
    - reflexivity.
    - destruct (has_metadata c).
      + rewrite <- (count_push_sizes acc (groupKey f c) c). apply IH.
      + apply IH. }
  apply (G []).
Qed.

Lemma keysOf_In (d : string) (calls : list CallRecord) (c : CallRecord) :
  In c calls -> has_metadata c = true -> In (groupKey d c) (firstSeen (keysOf d calls)).
Proof.
  intros Hc M. rewrite <- groupsOf_firstSeen.
  destruct (groupsOf_members d calls) as [_ [_ Out]].
  destruct (in_dec string_dec (groupKey d c) (map fst (groupsOf d calls))) as [I|N];
    [exact I|].
  exfalso. specialize (Out _ N).
  assert (In c (members d (groupKey d c) calls)).
  { unfold members. apply filter_In. split; [exact Hc|].
    rewrite M, String.eqb_refl. reflexivity. }
  rewrite Out in H. exact H.
Qed.
End FirstSeen.

(* ================================================================== *)
(** * getTopValues: ranking and counts *)
(* ================================================================== *)

Lemma neqb_of_nat (a b : nat) : neqb (of_nat a) (of_nat b) = (a =? b).
Proof.
  unfold of_nat, of_Z. cbn [neqb]. rewrite Qceqb_of_Z.
  destruct (Nat.eqb_spec a b) as [->|N].
  - apply Z.eqb_refl.
  - apply Z.eqb_neq. lia.
Qed.

Lemma nle_of_nat (a b : nat) : nle (of_nat a) (of_nat b) = (a <=? b).
Proof. apply (nge_of_nat b a). Qed.

Lemma of_nat_isFin (n : nat) : isFin (of_nat n).
Proof. eexists. reflexivity. Qed.

Section TopValues.
Context {host : Host}.

(** X1.  [getTopValues] returns the first [limit] rows of a ranking of
    the distinct values: the ranking holds one row per distinct value
    of the field among the records with metadata, is ordered by
    descending count, and rows with the same count keep the order in
    which their values first appear in the input. *)
Theorem top_values_ranked (calls : list CallRecord) (fieldId : string) (limit : nat) :
  exists rows ranked,
    getTopValues calls fieldId limit = Ok (firstn limit ranked) /\
    map top_value rows = firstSeen (keysOf fieldId calls) /\
    Permutation ranked rows /\
    StronglySorted (fun a b => top_count b <= top_count a) ranked /\
    (forall n, filter (fun v => top_count v =? n) ranked
               = filter (fun v => top_count v =? n) rows) /\
    List.length (firstn limit ranked) <= limit.
Proof.
  exists (map (topValueOf (List.length calls)) (countsOf fieldId calls)).
  exists (Array_sort byCountDesc
            (map (topValueOf (List.length calls)) (countsOf fieldId calls))).
  split; [apply getTopValues_pure|].
  split.
  { rewrite map_map. cbn [topValueOf top_value].
    rewrite countsOf_groupsOf, map_map. cbn [sizeOf fst].
    apply groupsOf_firstSeen. }
  split; [apply Array_sort_perm|].
  assert (F : Forall (fun a : TopValue => isFin (of_nat (top_count a)))
                     (map (topValueOf (List.length calls)) (countsOf fieldId calls))).
  { rewrite Forall_forall. intros a _. apply of_nat_isFin. }
  split.
  { pose proof (Array_sort_desc (fun a : TopValue => of_nat (top_count a)) F) as S.
    apply (StronglySorted_weaken (R := fun a b : TopValue =>
             nle (of_nat (top_count b)) (of_nat (top_count a)) = true)); [|exact S].
    intros a b _ _ H. rewrite nle_of_nat in H. apply Nat.leb_le. exact H. }
  split.
  { intros n.
    pose proof (Array_sort_desc_stable (fun a : TopValue => of_nat (top_count a))
                  (of_nat n) F) as S.
    cbv beta in S.
    assert (E : forall l : list TopValue,
               filter (fun v => top_count v =? n) l
               = filter (fun v => neqb (of_nat (top_count v)) (of_nat n)) l).
    { intros l. apply filter_ext. intros v. symmetry. apply neqb_of_nat. }
    rewrite !E.
    exact S. }
  apply firstn_le_length.
Qed.

(** X2.  Every row of [getTopValues] counts exactly the records with
    metadata whose cell has the row's value (a missing cell counting
    as "Unknown"); no value has two rows and no row is empty.  When
    [limit] is at least the number of distinct values, the counts add
    up to the number of records with metadata. *)
Theorem top_values_count_members (calls : list CallRecord) (fieldId : string)
        (limit : nat) :
  exists top,
    getTopValues calls fieldId limit = Ok top /\
    NoDup (map top_value top) /\
    (forall v, In v top ->
               top_count v = List.length (members fieldId (top_value v) calls) /\
               1 <= top_count v) /\
    (List.length (firstSeen (keysOf fieldId calls)) <= limit ->
     list_sum (map top_count top) = List.length (filter has_metadata calls)).
Proof.
  rewrite getTopValues_pure. eexists. split; [reflexivity|].
  set (rows := map (topValueOf (List.length calls)) (countsOf fieldId calls)).
  assert (K : map top_value rows = map fst (groupsOf fieldId calls)).
  { unfold rows. rewrite map_map. cbn [topValueOf top_value].
    rewrite countsOf_groupsOf, map_map. reflexivity. }
  destruct (groupsOf_members fieldId calls) as [ND [Mem _]].
  assert (P : Permutation (Array_sort byCountDesc rows) rows)
    by apply Array_sort_perm.
  split.
  { rewrite map_firstn. apply NoDup_firstn.
    apply (Permutation_NoDup (l := map top_value rows)).
    - apply Permutation_map. symmetry. exact P.
    - rewrite K. exact ND. }
  split.
  { intros v Hv. apply In_firstn in Hv. apply Array_sort_In in Hv.
    unfold rows in Hv. rewrite countsOf_groupsOf, map_map in Hv.
    apply in_map_iff in Hv. destruct Hv as [[k g] [<- Hg]].
    cbn [topValueOf sizeOf fst snd top_count top_value].
    destruct (Mem _ _ Hg) as [Eg Ng]. split.
    - rewrite <- Eg. reflexivity.
    - destruct g; [congruence | cbn; lia]. }
  intros L.
  rewrite firstn_all2.
  - rewrite (Permutation_list_sum (Permutation_map top_count P)).
    unfold rows. rewrite map_map. cbn [topValueOf top_count].
    rewrite countsOf_groupsOf, map_map. cbn [sizeOf snd].
    apply groupsOf_sizes.
  - rewrite Array_sort_length. unfold rows. rewrite length_map.
    rewrite <- groupsOf_firstSeen, length_map in L.
    rewrite countsOf_groupsOf, length_map. exact L.
Qed.
End TopValues.

Lemma top_values_count_members_witness :
  exists top,
    @getTopValues SampleHost.sample Samples.week "agent" 10 = Ok top /\
    NoDup (map top_value top) /\
    list_sum (map top_count top) = 4.
Proof.
  destruct (@top_values_count_members SampleHost.sample Samples.week "agent" 10)
    as (top & Ht & N & _ & Hs).
  exists top. split; [exact Ht|]. split; [exact N|].
  rewrite Hs; [reflexivity | vm_compute; lia].
Defined.

(* ================================================================== *)
(** * aggregateByDimension: rows and their order *)
(* ================================================================== *)

Lemma isFinite_isFin (v : num) : isFinite v = true <-> isFin v.
Proof.
  split.
  - destruct v; try discriminate. intros _. eexists. reflexivity.
  - intros [q ->]. reflexivity.
Qed.

Section AggregateRows.
Context {host : Host}.

(** X3.  When the dimension field resolves, [aggregateByDimension]
    returns one row per distinct dimension value found among the
    records with metadata (a missing cell counting as "Unknown"): no
    dimension has two rows, a row counts exactly the records of its
    group and is never empty, and every record with metadata is in
    the group of some row. *)
Theorem aggregate_one_row_per_group (calls : list CallRecord)
        (schema : SchemaDefinition) (view : AnalyticsView) (fd : FieldDefinition) :
  findField schema (dimensionField view) = Some fd ->
  exists results,
    aggregateByDimension calls schema view = Ok results /\
    NoDup (map dimension results) /\
    List.length results = List.length (firstSeen (keysOf (dimensionField view) calls)) /\
    (forall r, In r results ->
               count r = List.length (members (dimensionField view) (dimension r) calls) /\
               1 <= count r) /\
    (forall c, In c calls -> has_metadata c = true ->
               exists r, In r results /\ dimension r = groupKey (dimensionField view) c).
Proof.
  intros Hd. rewrite (aggregateByDimension_pure calls schema view Hd).
  eexists. split; [reflexivity|].
  set (d := dimensionField view).
  set (rows := map (groupResult schema view (List.length calls)) (groupsOf d calls)).
  assert (K : map dimension rows = map fst (groupsOf d calls)).
  { unfold rows. rewrite map_map. reflexivity. }
  destruct (groupsOf_members d calls) as [ND [Mem _]].
  assert (P : Permutation (Array_sort byMeasureDesc rows) rows)
    by apply Array_sort_perm.
  split.
  { apply (Permutation_NoDup (l := map dimension rows)).
    - apply Permutation_map. symmetry. exact P.
    - rewrite K. exact ND. }
  split.
  { rewrite Array_sort_length. unfold rows.
    rewrite length_map, <- groupsOf_firstSeen, length_map. reflexivity. }
  split.
  { intros r Hr. apply Array_sort_In in Hr. unfold rows in Hr.
    apply in_map_iff in Hr. destruct Hr as [[k g] [<- Hg]].
    cbn [groupResult count dimension fst snd].
    destruct (Mem _ _ Hg) as [Eg Ng]. split.
    - rewrite <- Eg. reflexivity.
    - destruct g; [congruence | cbn; lia]. }
  intros c Hc M.
  pose proof (keysOf_In d calls c Hc M) as I.
  rewrite <- groupsOf_firstSeen, <- K in I.
  apply in_map_iff in I. destruct I as [r [Er Hr]].
  exists r. split; [|exact Er].
  apply Array_sort_In. exact Hr.
Qed.

End AggregateRows.

Lemma aggregate_one_row_per_group_witness :
  exists results,
    @aggregateByDimension SampleHost.sample Samples.mixedAmounts Samples.callSchema
      Samples.minAmountByAgent = Ok results /\
    NoDup (map dimension results) /\
    List.length results = 2.
Proof.
  destruct (@aggregate_one_row_per_group SampleHost.sample Samples.mixedAmounts
              Samples.callSchema Samples.minAmountByAgent
              (Samples.field "agent" "text" (Some "participant_1")) eq_refl)
    as [results [Hr [Hn [Hl _]]]].
  exists results. split; [exact Hr|]. split; [exact Hn|].
  rewrite Hl. reflexivity.
Defined.


(* ================================================================== *)
(** * filterCalls *)
(* ================================================================== *)

Lemma filter_andb {A : Type} (p q : A -> bool) (l : list A) :
  filter q (filter p l) = filter (fun a => p a && q a) l.
Proof.
  induction l as [|a l IH]; cbn [filter]; [reflexivity|].
  destruct (p a); cbn [filter andb]; [destruct (q a)|]; rewrite IH; reflexivity.
Qed.

Section FilterCalls.
Context {host : Host}.

Lemma everyFilter_pure (call : CallRecord) (filters : list Filter) :
  has_metadata call = true -> everyFilter call filters = Ok (passes filters call).
Proof.
  intros M. induction filters as [|f rest IH]; cbn [everyFilter passes forallb].
  - reflexivity.
  - rewrite (prop_valueOf call (filter_fieldId f) M). cbn [bind].
    destruct (applyFilter (valueOf call (filter_fieldId f)) f); cbn [andb].
    + exact IH.
    + reflexivity.
Qed.

Lemma filterCalls_pure (calls : list CallRecord) (filters : list Filter) :
  filterCalls calls filters
  = Ok (filter (fun c => has_metadata c && passes filters c) calls).
Proof.
  unfold filterCalls.
  assert (G : forall acc,
             foldM (fun kept call =>
                      if negb (has_metadata call) then Ok kept
                      else keep <- everyFilter call filters ;;
                           Ok (if keep then kept ++ [call] else kept))
                   calls acc
             = Ok (acc ++ filter (fun c => has_metadata c && passes filters c) calls)).
  { induction calls as [|c calls IH]; intros acc; cbn [foldM filter].
    - rewrite app_nil_r. reflexivity.
    - destruct (has_metadata c) eqn:M; cbn [negb andb bind].
      + rewrite (everyFilter_pure c filters M). cbn [bind].
        destruct (passes filters c).
        * rewrite IH, <- app_assoc. reflexivity.
        * apply IH.
      + apply IH. }
  apply (G []).
Qed.

Lemma passes_app (f1 f2 : list Filter) (c : CallRecord) :
  passes (f1 ++ f2) c = passes f1 c && passes f2 c.
Proof. unfold passes. apply forallb_app. Qed.

(** X5.  [filterCalls] keeps, in input order, exactly the records that
    carry metadata and whose cells are accepted by every filter; with
    no filter it keeps every record that carries metadata. *)
Theorem filter_calls_keeps_passing (calls : list CallRecord) (filters : list Filter) :
  exists kept,
    filterCalls calls filters = Ok kept /\
    kept = filter (fun c => has_metadata c && passes filters c) calls /\
    (forall c, In c kept <->
               In c calls /\ has_metadata c = true /\
               forall f, In f filters ->
                         applyFilter (valueOf c (filter_fieldId f)) f = true) /\
    filterCalls calls [] = Ok (filter has_metadata calls).
Proof.
  eexists. split; [apply filterCalls_pure|]. split; [reflexivity|]. split.
  - intros c. rewrite filter_In, andb_true_iff. unfold passes.
    rewrite forallb_forall. tauto.
  - rewrite filterCalls_pure. f_equal. apply filter_ext.
    intros c. cbn [passes forallb]. apply andb_true_r.
Qed.

(** X6.  Filtering composes: filtering the result of one filter list
    by a second list is filtering once by both lists together; the
    order in which the filters are listed makes no difference, and
    filtering a result again by the same filters changes nothing. *)
Theorem filter_calls_compose (calls : list CallRecord) (f1 f2 : list Filter) :
  exists kept,
    filterCalls calls f1 = Ok kept /\
    filterCalls kept f2 = filterCalls calls (f1 ++ f2) /\
    filterCalls calls (f2 ++ f1) = filterCalls calls (f1 ++ f2) /\
    filterCalls kept f1 = Ok kept.
Proof.
  eexists. split; [apply filterCalls_pure|].
  rewrite !filterCalls_pure, !filter_andb. split; [|split].
  - f_equal. apply filter_ext. intros c. rewrite passes_app.
    destruct (has_metadata c), (passes f1 c), (passes f2 c); reflexivity.
  - f_equal. apply filter_ext. intros c. rewrite !passes_app.
    destruct (has_metadata c), (passes f1 c), (passes f2 c); reflexivity.
  - f_equal. apply filter_ext. intros c.
    destruct (has_metadata c), (passes f1 c); reflexivity.
Qed.
End FilterCalls.

(* ================================================================== *)
(** * generateScatterData, and fields that do not resolve *)
(* ================================================================== *)

Section Scatter.
Context {host : Host}.

Lemma generateScatterData_pure (calls : list CallRecord) (schema : SchemaDefinition)
      (xf yf : string) (fx fy : FieldDefinition) :
  findField schema xf = Some fx -> findField schema yf = Some fy ->
  generateScatterData calls schema xf yf
  = Ok (map (scatterPoint (labelFieldOf schema) xf yf) (filter (plotted xf yf) calls)).
Proof.
  intros Hx Hy. unfold generateScatterData. rewrite Hx, Hy.
  fold (labelFieldOf schema).
  assert (G : forall acc,
             foldM (fun data call =>
                      if negb (has_metadata call) then Ok data
                      else
                        vx <- prop call xf ;;
                        vy <- prop call yf ;;
                        let x := Number vx in
                        let y := Number vy in
                        if validPair x y then
                          label <- match labelFieldOf schema with
                                   | Some lf => v <- prop call (field_id lf) ;;
                                                Ok (Some (String_ v))
                                   | None => Ok None
                                   end ;;
                          Ok (data ++ [{| x := x; y := y; label := label |}])
                        else Ok data)
                   calls acc
             = Ok (acc ++ map (scatterPoint (labelFieldOf schema) xf yf)
                              (filter (plotted xf yf) calls))).
  { induction calls as [|c calls IH]; intros acc; cbn [foldM filter map].
    - rewrite app_nil_r. reflexivity.
    - unfold plotted at 1.
      destruct (has_metadata c) eqn:M; cbn [negb andb].
      + rewrite !(prop_valueOf c _ M). cbn [bind].
        destruct (validPair (Number (valueOf c xf)) (Number (valueOf c yf))).
        * destruct (labelFieldOf schema) as [lf|] eqn:L.
          -- rewrite (prop_valueOf c _ M). cbn [bind map].
             rewrite IH, <- app_assoc. unfold scatterPoint at 2. reflexivity.
          -- cbn [bind map]. rewrite IH, <- app_assoc. reflexivity.
        * apply IH.
      + apply IH. }
  apply (G []).
Qed.

Lemma pairsOf_plotted (calls : list CallRecord) (a b : string) :
  pairsOf calls a b
  = map (fun c => (Number (valueOf c a), Number (valueOf c b))) (filter (plotted a b) calls).
Proof.
  unfold pairsOf. induction calls as [|c calls IH]; cbn [flat_map filter map].
  - reflexivity.
  - unfold plotted at 1.
    destruct (has_metadata c && validPair (Number (valueOf c a)) (Number (valueOf c b)));
      cbn [app map]; rewrite IH; reflexivity.
Qed.

(** X7.  When both fields resolve, [generateScatterData] returns one
    point per record that carries metadata and whose two cells convert
    to finite numbers, in input order; the coordinates of the points
    are exactly the pairs [correlate] computes its coefficient from. *)
Theorem scatter_points_are_correlation_pairs (calls : list CallRecord)
        (schema : SchemaDefinition) (xf yf : string) (fx fy : FieldDefinition) :
  findField schema xf = Some fx ->
  findField schema yf = Some fy ->
  exists points,
    generateScatterData calls schema xf yf = Ok points /\
    points = map (scatterPoint (labelFieldOf schema) xf yf)
                 (filter (plotted xf yf) calls) /\
    correlationPairs calls xf yf = Ok (map (fun p => (x p, y p)) points) /\
    Forall (fun p => isFinite (x p) = true /\ isFinite (y p) = true) points /\
    (labelFieldOf schema = None -> Forall (fun p => label p = None) points).
Proof.
  intros Hx Hy. eexists. split; [apply (@generateScatterData_pure calls schema xf yf fx fy Hx Hy)|].
  split; [reflexivity|]. split.
  - rewrite correlationPairs_pairsOf, pairsOf_plotted, map_map. reflexivity.
  - split.
    + rewrite Forall_forall. intros p Hp. apply in_map_iff in Hp.
      destruct Hp as [c [<- Hc]]. apply filter_In in Hc. destruct Hc as [_ Hc].
      unfold plotted, validPair in Hc. cbn [scatterPoint x y].
      destruct (has_metadata c); [|discriminate]. cbn [andb] in Hc.
      apply andb_true_iff in Hc. destruct Hc as [Hc Fy].
      apply andb_true_iff in Hc. destruct Hc as [_ Fx]. split; assumption.
    + intros L. rewrite L, Forall_forall. intros p Hp. apply in_map_iff in Hp.
      destruct Hp as [c [<- _]]. reflexivity.
Qed.

(** X8.  Fields that do not resolve give empty results: with no
    dimension field [aggregateByDimension] returns no row (as it does
    when no record carries metadata, and only then); [correlate]
    returns null exactly when one of its fields does not resolve;
    [generateScatterData] returns no point when one of its fields does
    not resolve; [calculateTrends] returns no point when the schema
    has neither a time stamp field nor a date field. *)
Theorem unresolved_fields_give_empty_results (calls : list CallRecord)
        (schema : SchemaDefinition) (view : AnalyticsView) (a b : string) :
  (aggregateByDimension calls schema view = Ok [] <->
   findField schema (dimensionField view) = None \/ filter has_metadata calls = []) /\
  (correlate calls schema a b = Ok None <->
   findField schema a = None \/ findField schema b = None) /\
  (findField schema a = None \/ findField schema b = None ->
   generateScatterData calls schema a b = Ok []) /\
  (timestampFieldOf schema = None -> calculateTrends calls schema view = Ok []).
Proof.
  split; [|split; [|split]].
  - destruct (findField schema (dimensionField view)) as [fd|] eqn:Hd.
    + rewrite (aggregateByDimension_pure calls schema view Hd). split.
      * intros H. right. injection H as H.
        apply (f_equal (@List.length _)) in H.
        rewrite Array_sort_length, length_map in H. cbn [List.length] in H.
        apply length_zero_iff_nil in H.
        pose proof (groupsOf_sizes (dimensionField view) calls) as Z.
        rewrite H in Z. cbn in Z. symmetry in Z.
        apply length_zero_iff_nil in Z. exact Z.
      * intros [H|H]; [discriminate|].
        pose proof (groupsOf_firstSeen (dimensionField view) calls) as K.
        unfold keysOf in K. rewrite H in K. cbn in K.
        apply map_eq_nil in K. rewrite K. reflexivity.
    + rewrite (aggregateByDimension_unresolved calls schema view Hd).
      split; [intros _; left; reflexivity | reflexivity].
  - destruct (findField schema a) as [f1|] eqn:Ha;
      [destruct (findField schema b) as [f2|] eqn:Hb|].
    + rewrite (@correlate_resolved host calls schema a b f1 f2 Ha Hb).
      split; [discriminate | intros [H|H]; discriminate].
    + unfold correlate. rewrite Ha, Hb. split; [right|]; reflexivity.
    + unfold correlate. rewrite Ha. split; [left|]; reflexivity.
  - intros H. unfold generateScatterData.
    destruct (findField schema a); [|reflexivity].
    destruct H as [H|H]; [discriminate|]. rewrite H. reflexivity.
  - intros H. unfold calculateTrends. fold (timestampFieldOf schema).
    rewrite H. reflexivity.
Qed.
End Scatter.

Lemma scatter_points_are_correlation_pairs_witness :
  exists points,
    @generateScatterData SampleHost.sample Samples.sparse3 Samples.callSchema
      "amount" "days" = Ok points /\
    @correlationPairs SampleHost.sample Samples.sparse3 "amount" "days"
    = Ok (map (fun p => (x p, y p)) points) /\
    List.length points = 2.
Proof.
  destruct (@scatter_points_are_correlation_pairs SampleHost.sample Samples.sparse3
              Samples.callSchema "amount" "days"
              (Samples.field "amount" "number" (Some "measure"))
              (Samples.field "days" "number" None) eq_refl eq_refl)
    as [points [Hp [E [Hc _]]]].
  exists points. split; [exact Hp|]. split; [exact Hc|].
  rewrite E. reflexivity.
Defined.

(* ================================================================== *)
(** * calculateTrends *)
(* ================================================================== *)

Lemma group_push_nonempty {A : Type} (groups : list (string * list A))
      (key : string) (a : A) :
  Forall (fun g => snd g <> []) groups ->
  Forall (fun g => snd g <> []) (group_push groups key a).
Proof.
  induction 1 as [|[k xs] rest Hk Hrest IH]; cbn [group_push].
  - constructor; [discriminate | constructor].
  - destruct (String.eqb k key).
    + constructor; [|exact Hrest]. cbn [snd]. destruct xs; discriminate.
    + constructor; [exact Hk | exact IH].
Qed.

Lemma StronglySorted_distinct {A B : Type} (key : A -> B) (R : A -> A -> Prop)
      (l : list A) :
  StronglySorted R l -> NoDup (map key l) ->
  StronglySorted (fun a b => R a b /\ key a <> key b) l.
Proof.
  intros S. induction S as [|a l S IH F]; intros N; constructor.
  - apply IH. inversion N; assumption.
  - inversion N as [|? ? Ha N']; subst.
    rewrite Forall_forall in *. intros b Hb. split; [apply F; exact Hb|].
    intros E. apply Ha. rewrite E. apply in_map. exact Hb.
Qed.

Lemma groupSizes_nonempty {A : Type} (groups : list (string * list A)) :
  Forall (fun g => snd g <> []) groups ->
  Forall (fun g => 1 <= List.length (snd g)) groups.
Proof.
  intros F. rewrite Forall_forall in *. intros g Hg. specialize (F g Hg).
  destruct (snd g); [congruence | cbn; lia].
Qed.

Section Trends.
Context {host : Host}.

Local Abbreviation with_metadata := (fun c : CallRecord => has_metadata c = true).

(** The loop that files records under dates, on an accumulator. *)
Lemma dateGroups_from (tf : FieldDefinition) (calls : list CallRecord)
      (acc : list (string * list CallRecord)) :
  foldM (fun groups call =>
           if negb (has_metadata call) then Ok groups
           else
             v <- prop call (field_id tf) ;;
             let timestamp := value_or v (VStr (createdAt call)) in
             iso <- match Date_toISOString timestamp with
                    | Some s => Ok s
                    | None => Throw RangeError
                    end ;;
             Ok (group_push groups (before_T iso) call))
        calls acc
  = if existsb (fun c => has_metadata c &&
                         match dateOf tf c with None => true | Some _ => false end) calls
    then Throw RangeError
    else Ok (fold_left (fun groups call =>
                          if has_metadata call then
                            match dateOf tf call with
                            | Some d => group_push groups d call
                            | None => groups
                            end
                          else groups) calls acc).
Proof.
  revert acc. induction calls as [|c calls IH]; intros acc; cbn [foldM existsb fold_left].
  - reflexivity.
  - destruct (has_metadata c) eqn:M; cbn [negb andb orb].
    + rewrite (prop_valueOf c _ M). cbn [bind]. unfold dateOf, timestampOf.
      destruct (Date_toISOString (value_or (valueOf c (field_id tf)) (VStr (createdAt c))));
        cbn [bind option_map orb].
      * apply IH.
      * reflexivity.
    + apply IH.
Qed.

Lemma dateGroupsOf_facts (tf : FieldDefinition) (calls : list CallRecord) :
  (forall c, In c calls -> has_metadata c = true -> dateOf tf c <> None) ->
  NoDup (map fst (dateGroupsOf tf calls)) /\
  groupSizes (dateGroupsOf tf calls) = List.length (filter has_metadata calls) /\
  Forall (fun g => Forall with_metadata (snd g)) (dateGroupsOf tf calls) /\
  Forall (fun g => snd g <> []) (dateGroupsOf tf calls).
Proof.
  unfold dateGroupsOf.
  apply (fold_left_seen
           (fun groups call =>
              if has_metadata call then
                match dateOf tf call with
                | Some d => group_push groups d call
                | None => groups
                end
              else groups)
           (fun seen groups =>
              (forall c, In c seen -> has_metadata c = true -> dateOf tf c <> None) ->
              NoDup (map fst groups) /\
              groupSizes groups = List.length (filter has_metadata seen) /\
              Forall (fun g => Forall with_metadata (snd g)) groups /\
              Forall (fun g => snd g <> []) groups)).
  - intros _. repeat split; constructor.
  - intros seen groups c IH V.
    destruct IH as (N & Z & W & E).
    { intros c' Hc'. apply V. apply in_or_app. left. exact Hc'. }
    rewrite filter_snoc, length_app.
    destruct (has_metadata c) eqn:M.
    + destruct (dateOf tf c) as [d|] eqn:D.
      * split; [apply group_push_NoDup; exact N|].
        split; [rewrite group_push_sizes, Z; cbn; lia|].
        split; [apply group_push_Forall; assumption|].
        apply group_push_nonempty. exact E.
      * exfalso. apply (V c); [apply in_or_app; right; left; reflexivity | exact M | exact D].
    + cbn [List.length]. rewrite Nat.add_0_r. repeat split; assumption.
Qed.

Lemma calculateTrends_pure (calls : list CallRecord) (schema : SchemaDefinition)
      (view : AnalyticsView) (tf : FieldDefinition) :
  timestampFieldOf schema = Some tf ->
  (forall c, In c calls -> has_metadata c = true -> dateOf tf c <> None) ->
  calculateTrends calls schema view
  = Ok (Array_sort (fun a b => localeCompare (date a) (date b))
                   (map (trendPoint schema view) (dateGroupsOf tf calls))).
Proof.
  intros Ht V. unfold calculateTrends. fold (timestampFieldOf schema). rewrite Ht.
  rewrite dateGroups_from.
  replace (existsb _ calls) with false.
  - fold (dateGroupsOf tf calls). cbn [bind].
    rewrite (mapM_pure _ (trendPoint schema view)); [reflexivity|].
    intros [d g] Hg.
    destruct (dateGroupsOf_facts tf calls V) as (_ & _ & W & _).
    rewrite Forall_forall in W. specialize (W _ Hg). cbn [snd] in W.
    rewrite (groupMeasure_pure _ view W). reflexivity.
  - symmetry. apply not_true_is_false. intros E.
    apply existsb_exists in E. destruct E as [c [Hc E]].
    apply andb_true_iff in E. destruct E as [M E].
    destruct (dateOf tf c) eqn:D; [discriminate|].
    apply (V c Hc M D).
Qed.

(** X9.  With a time stamp field in the schema, [calculateTrends]
    throws a RangeError as soon as one record with metadata has a
    time stamp that is not a date.  Otherwise it returns one point per
    calendar date, in strictly ascending order of date; every point
    counts at least one record and the counts add up to the number of
    records with metadata. *)
Theorem trends_ascending_by_date (calls : list CallRecord) (schema : SchemaDefinition)
        (view : AnalyticsView) (tf : FieldDefinition) :
  timestampFieldOf schema = Some tf ->
  ((exists c, In c calls /\ has_metadata c = true /\ dateOf tf c = None) ->
   calculateTrends calls schema view = Throw RangeError) /\
  ((forall c, In c calls -> has_metadata c = true -> dateOf tf c <> None) ->
   exists series,
     calculateTrends calls schema view = Ok series /\
     StronglySorted (fun a b => String.compare (date a) (date b) = Lt) series /\
     Forall (fun p => 1 <= trend_count p) series /\
     list_sum (map trend_count series) = List.length (filter has_metadata calls)).
Proof.
  intros Ht. split.
  - intros [c [Hc [M D]]]. unfold calculateTrends. fold (timestampFieldOf schema).
    rewrite Ht, dateGroups_from.
    replace (existsb _ calls) with true; [reflexivity|].
    symmetry. apply existsb_exists. exists c. split; [exact Hc|].
    rewrite M, D. reflexivity.
  - intros V. rewrite (@calculateTrends_pure calls schema view tf Ht V).
    eexists. split; [reflexivity|].
    destruct (dateGroupsOf_facts tf calls V) as (N & Z & _ & E).
    set (points := map (trendPoint schema view) (dateGroupsOf tf calls)).
    set (cmp := fun a b : TrendDataPoint => localeCompare (date a) (date b)).
    assert (P : Permutation (Array_sort cmp points) points) by apply Array_sort_perm.
    split; [|split].
    + assert (ND : NoDup (map date (Array_sort cmp points))).
      { apply (Permutation_NoDup (l := map date points)).
        - apply Permutation_map. symmetry. exact P.
        - unfold points. rewrite map_map. exact N. }
      pose proof (StronglySorted_distinct date (Array_sort_localeCompare date points) ND)
        as S.
      apply (StronglySorted_weaken (R := fun a b : TrendDataPoint =>
               String.compare (date a) (date b) <> Gt /\ date a <> date b)); [|exact S].
      intros a b _ _ [G D].
      destruct (String.compare (date a) (date b)) eqn:C; try congruence.
      apply String.compare_eq_iff in C. congruence.
    + rewrite Forall_forall. intros p Hp. apply Array_sort_In in Hp.
      unfold points in Hp. apply in_map_iff in Hp. destruct Hp as [g [<- Hg]].
      cbn [trendPoint trend_count].
      apply groupSizes_nonempty in E. rewrite Forall_forall in E. apply E. exact Hg.
    + rewrite (Permutation_list_sum (Permutation_map trend_count P)).
      unfold points. rewrite map_map. exact Z.
Qed.
End Trends.

Lemma trends_ascending_by_date_witness :
  exists series,
    @calculateTrends SampleHost.sample Samples.week Samples.callSchema
      Samples.amountOverTime = Ok series /\
    StronglySorted (fun a b => String.compare (date a) (date b) = Lt) series /\
    list_sum (map trend_count series) = 4.
Proof.
  destruct (@trends_ascending_by_date SampleHost.sample Samples.week Samples.callSchema
              Samples.amountOverTime (Samples.field "time" "date" (Some "timestamp"))
              eq_refl) as [_ H].
  destruct H as [series [Hs [Ha [_ Hc]]]].
  { intros c [<-|[<-|[<-|[<-|[]]]]] _; vm_compute; discriminate. }
  exists series. split; [exact Hs|]. split; [exact Ha|]. exact Hc.
Defined.

(* ================================================================== *)
(** * calculatePercentile: the percentiles 0 and 100 *)
(* ================================================================== *)

Lemma Qcle_Q2Qc (a b : Q) : (Q2Qc a <= Q2Qc b)%Qc <-> (a <= b)%Q.
Proof. unfold Qcle, Q2Qc. cbn [this]. rewrite !Qred_correct. reflexivity. Qed.

Lemma Qcmult_nonneg (a b : Qc) : (0 <= a)%Qc -> (0 <= b)%Qc -> (0 <= a * b)%Qc.
Proof.
  intros Ha Hb. pose proof (Qcmult_le_compat_r 0 a b Ha Hb) as H.
  rewrite Qcmult_0_l in H. exact H.
Qed.

Lemma qn_le (a b : nat) : a <= b -> (qn a <= qn b)%Qc.
Proof.
  intros H. unfold qn. apply Qcle_Q2Qc. rewrite <- Zle_Qle. lia.
Qed.

Lemma qn_pred (n : nat) : 1 <= n -> (qn n + - qn 1)%Qc = qn (n - 1).
Proof.
  intros H. replace n with ((n - 1) + 1) at 1 by lia. rewrite qn_plus. ring.
Qed.

Lemma StronglySorted_nth {A : Type} (R : A -> A -> Prop) (l : list A) (d : A) :
  StronglySorted R l ->
  forall i j, i < j -> j < List.length l -> R (nth i l d) (nth j l d).
Proof.
  intros S. induction S as [|a l S IH F]; intros i j Hij Hj; cbn [List.length] in Hj.
  - lia.
  - destruct j as [|j]; [lia|]. destruct i as [|i]; cbn [nth].
    + rewrite Forall_forall in F. apply F. apply nth_In. lia.
    + apply IH; lia.
Qed.

Lemma sorted_first_least (s : list num) (a q : Qc) :
  StronglySorted (fun u v => nle u v = true) s ->
  nth 0 s NaN = Fin a -> In (Fin q) s -> (a <= q)%Qc.
Proof.
  intros Hs Ha Hq. destruct (In_nth s (Fin q) NaN Hq) as [k [Hk Ek]].
  destruct k as [|k].
  - rewrite Ha in Ek. apply Fin_inj in Ek. subst q. apply Qcle_refl.
  - pose proof (@StronglySorted_nth _ _ s NaN Hs 0 (S k) ltac:(lia) Hk) as H.
    cbv beta in H. rewrite Ha, Ek in H. apply nle_Fin. exact H.
Qed.

Lemma sorted_last_greatest (s : list num) (b q : Qc) :
  StronglySorted (fun u v => nle u v = true) s ->
  nth (List.length s - 1) s NaN = Fin b -> In (Fin q) s -> (q <= b)%Qc.
Proof.
  intros Hs Hb Hq. destruct (In_nth s (Fin q) NaN Hq) as [k [Hk Ek]].
  destruct (Nat.eq_dec k (List.length s - 1)) as [->|N].
  - rewrite Hb in Ek. apply Fin_inj in Ek. subst q. apply Qcle_refl.
  - pose proof (@StronglySorted_nth _ _ s NaN Hs k (List.length s - 1)
                  ltac:(lia) ltac:(lia)) as H.
    cbv beta in H. rewrite Hb, Ek in H. apply nle_Fin. exact H.
Qed.

Lemma ascending_sorted (vs : list num) :
  Forall isFin vs ->
  StronglySorted (fun u v => nle u v = true) (Array_sort ascending vs).
Proof. intros F. apply (Array_sort_asc (fun v : num => v) F). Qed.

Lemma ascending64_sorted (vs : list num) :
  Forall isFin vs -> forallb binary64 vs = true ->
  StronglySorted (fun u v => nle u v = true) (Array_sort Binary64.ascending vs).
Proof. intros F B. rewrite (ascending64_sort F B). apply (ascending_sorted F). Qed.

Lemma fsub_of_nat_1 (n : nat) :
  1 <= n -> (Z.of_nat n <= 2 ^ 53)%Z -> fsub (of_nat n) (of_nat 1) = of_nat (n - 1).
Proof.
  intros H B. unfold fsub, nsub. rewrite (of_nat_Fin n), (of_nat_Fin 1).
  fold (qn n) (qn 1). cbn [nneg nadd]. rewrite (qn_pred H).
  apply (@round64_of_nat (n - 1)). lia.
Qed.

Section PercentileRange.
Context {host : Host}.

Lemma percentile64_endpoints (calls : list CallRecord) (fieldId : string) (a b : Qc) :
  let s := Array_sort Binary64.ascending (finiteValues calls fieldId) in
  Forall (fun c => has_metadata c = true) calls ->
  (Z.of_nat (List.length s) <= 2 ^ 53)%Z ->
  nth 0 s NaN = Fin a -> binary64 (Fin a) = true ->
  nth (List.length s - 1) s NaN = Fin b -> binary64 (Fin b) = true ->
  s <> [] ->
  Binary64.calculatePercentile calls fieldId zero = Ok (Some (Fin a)) /\
  Binary64.calculatePercentile calls fieldId (of_nat 100) = Ok (Some (Fin b)).
Proof.
  intros s Hall Hlen Ha Ba Hb Bb Hne.
  assert (Hn : 1 <= List.length s) by (destruct s; [congruence | cbn; lia]).
  unfold Binary64.calculatePercentile.
  rewrite (numericValues_pure fieldId Hall). cbn [bind]. fold s. cbv zeta.
  replace (List.length s =? 0) with false by (symmetry; apply Nat.eqb_neq; lia).
  rewrite (fsub_of_nat_1 Hn Hlen).
  assert (E0 : fdiv zero (of_nat 100) = zero) by (apply neqb_eq; vm_compute; reflexivity).
  assert (E1 : fdiv (of_nat 100) (of_nat 100) = of_nat 1)
    by (apply neqb_eq; vm_compute; reflexivity).
  rewrite E0, E1. split.
  - rewrite (of_nat_Fin (List.length s - 1)), fmul_zero_l.
    change zero with (of_nat 0). rewrite Math_floor_of_nat, Math_ceil_of_nat.
    rewrite nge_of_nat, nlt_of_nat_zero.
    replace (List.length s <=? 0) with false by (symmetry; apply Nat.leb_gt; lia).
    rewrite arr_num_of_nat, Ha.
    change (of_nat 0) with zero. change (fsub zero zero) with (fsub (Fin 0%Qc) (Fin 0%Qc)).
    rewrite fsub_self, (@weighted_exact a Ba). reflexivity.
  - rewrite fmul_one_of_nat by lia.
    rewrite Math_floor_of_nat, Math_ceil_of_nat, nge_of_nat, nlt_of_nat_zero.
    replace (List.length s <=? List.length s - 1) with false
      by (symmetry; apply Nat.leb_gt; lia).
    rewrite arr_num_of_nat, Hb.
    rewrite (of_nat_Fin (List.length s - 1)), fsub_self, (@weighted_exact b Bb). reflexivity.
Qed.

(** X10.  For records that carry metadata and a field with at least
    one finite value, [calculatePercentile] returns the smallest value
    of the field at the percentile 0 and the largest at the percentile
    100.  The values are binary64 numbers and the array has fewer than
    [2^32] elements. *)
Theorem percentile_0_and_100 (calls : list CallRecord) (fieldId : string) :
  Forall (fun c => has_metadata c = true) calls ->
  forallb binary64 (finiteValues calls fieldId) = true ->
  (Z.of_nat (List.length calls) < 2 ^ 32)%Z ->
  finiteValues calls fieldId <> [] ->
  exists lo hi,
    Math_min (finiteValues calls fieldId) = Fin lo /\
    Math_max (finiteValues calls fieldId) = Fin hi /\
    Binary64.calculatePercentile calls fieldId zero = Ok (Some (Fin lo)) /\
    Binary64.calculatePercentile calls fieldId (of_nat 100) = Ok (Some (Fin hi)).
Proof.
  intros Hall Hbin Hlen Hne.
  pose proof (finiteValues_isFin calls fieldId) as Hfin.
  destruct (Math_min_Fin Hfin Hne) as [lo [Elo [Ilo Llo]]].
  destruct (Math_max_Fin Hfin Hne) as [hi [Ehi [Ihi Lhi]]].
  assert (Lv : List.length (finiteValues calls fieldId) <= List.length calls).
  { unfold finiteValues. eapply Nat.le_trans; [apply filter_length_le|].
    rewrite length_map. apply Nat.le_refl. }
  set (vs := finiteValues calls fieldId) in *.
  pose proof (Array_sort_perm Binary64.ascending vs) as Pm.
  pose proof (ascending64_sorted Hfin Hbin) as Ssorted.
  set (s := Array_sort Binary64.ascending vs) in *.
  assert (Sfin : Forall isFin s)
    by (apply (Permutation_Forall (Permutation_sym Pm)); exact Hfin).
  assert (Sbin : forallb binary64 s = true)
    by (apply (forallb_perm _ (Permutation_sym Pm)); exact Hbin).
  assert (Slen : List.length s = List.length vs) by apply (Permutation_length Pm).
  assert (Sn : 0 < List.length s) by (rewrite Slen; destruct vs; [congruence | cbn; lia]).
  assert (Sne : s <> []) by (intros E; rewrite E in Sn; cbn in Sn; lia).
  assert (Sin : forall q, In (Fin q) s <-> In (Fin q) vs).
  { intros q. split; apply Permutation_in; [exact Pm | apply Permutation_sym; exact Pm]. }
  assert (Na : In (nth 0 s NaN) s) by (apply nth_In; lia).
  assert (Nb : In (nth (List.length s - 1) s NaN) s) by (apply nth_In; lia).
  rewrite Forall_forall in Sfin. rewrite forallb_forall in Sbin.
  destruct (Sfin _ Na) as [a Ha]. destruct (Sfin _ Nb) as [b Hb].
  assert (Ba : binary64 (Fin a) = true) by (rewrite <- Ha; apply Sbin; exact Na).
  assert (Bb : binary64 (Fin b) = true) by (rewrite <- Hb; apply Sbin; exact Nb).
  assert (Ia : In (Fin a) vs) by (apply Sin; rewrite <- Ha; exact Na).
  assert (Ib : In (Fin b) vs) by (apply Sin; rewrite <- Hb; exact Nb).
  assert (Ea : a = lo).
  { apply Qcle_antisym.
    - apply (@sorted_first_least s a lo Ssorted Ha). apply Sin. exact Ilo.
    - apply Llo. exact Ia. }
  assert (Eb : b = hi).
  { apply Qcle_antisym.
    - apply Lhi. exact Ib.
    - apply (@sorted_last_greatest s b hi Ssorted Hb). apply Sin. exact Ihi. }
  subst a b. exists lo, hi.
  split; [exact Elo|]. split; [exact Ehi|].
  apply (@percentile64_endpoints calls fieldId lo hi); try assumption.
  fold vs. fold s. lia.
Qed.
End PercentileRange.

Lemma percentile_0_and_100_witness :
  @Binary64.calculatePercentile SampleHost.sample Samples.oneToTen "amount" zero
  = Ok (Some (of_nat 1)) /\
  @Binary64.calculatePercentile SampleHost.sample Samples.oneToTen "amount" (of_nat 100)
  = Ok (Some (of_nat 10)).
Proof.
  destruct (@percentile_0_and_100 SampleHost.sample Samples.oneToTen "amount")
    as (lo & hi & Hlo & Hhi & H0 & H100).
  - repeat constructor.
  - vm_compute. reflexivity.
  - vm_compute. reflexivity.
  - vm_compute. discriminate.
  - assert (E1 : Fin lo = of_nat 1) by (rewrite <- Hlo; apply neqb_eq; vm_compute; reflexivity).
    assert (E10 : Fin hi = of_nat 10)
      by (rewrite <- Hhi; apply neqb_eq; vm_compute; reflexivity).
    rewrite <- E1, <- E10. split; assumption.
Defined.

(* ================================================================== *)
(** * Binary64 operations that keep the order *)
(* ================================================================== *)

Lemma nle_NInf (y : num) : y <> NaN -> nle NInf y = true.
Proof. destruct y; intros H; try reflexivity. congruence. Qed.

Lemma nle_PInf (x : num) : x <> NaN -> nle x PInf = true.
Proof. destruct x; intros H; try reflexivity. congruence. Qed.

Lemma nle_inv (x y : num) :
  nle x y = true ->
  (x = NInf /\ y <> NaN) \/ (y = PInf /\ x <> NaN) \/
  exists a b, x = Fin a /\ y = Fin b /\ (a <= b)%Qc.
Proof.
  destruct x as [| | |a], y as [| | |b]; intros H; try discriminate H.
  all: try (left; split; [reflexivity | discriminate]).
  all: try (right; left; split; [reflexivity | discriminate]).
  right; right. exists a, b. split; [reflexivity|]. split; [reflexivity|].
  apply nle_Fin. exact H.
Qed.

Lemma nle_not_NaN (x y : num) : nle x y = true -> x <> NaN /\ y <> NaN.
Proof.
  intros H. destruct (@nle_inv _ _ H) as [[-> Hy]|[[-> Hx]|(a & b & -> & -> & _)]];
    split; try assumption; discriminate.
Qed.

Lemma monotone_intro (f : num -> num) :
  f NInf = NInf -> f PInf = PInf ->
  (forall a b, (a <= b)%Qc -> nle (f (Fin a)) (f (Fin b)) = true) -> monotone f.
Proof.
  intros HN HP HF x y H.
  assert (NN : forall z, z <> NaN -> f z <> NaN).
  { intros [| | |q] Hz; [congruence | rewrite HP; discriminate | rewrite HN; discriminate |].
    pose proof (HF q q (Qcle_refl q)) as R. apply nle_not_NaN in R. apply R. }
  destruct (@nle_inv _ _ H) as [[-> Hy]|[[-> Hx]|(a & b & -> & -> & L)]].
  - rewrite HN. apply nle_NInf. apply NN. exact Hy.
  - rewrite HP. apply nle_PInf. apply NN. exact Hx.
  - apply HF. exact L.
Qed.

Lemma round64_monotone : monotone round64.
Proof.
  apply monotone_intro; [reflexivity | reflexivity |].
  intros a b L. pose proof (pow2_pos 1024) as P.
  assert (M : (nearest64 a <= nearest64 b)%Q) by (apply nearest64_mono; exact L).
  destruct (round64_cases a) as [[Ea Ca]|[[Ea Ca]|[Ea [Ca1 Ca2]]]];
    destruct (round64_cases b) as [[Eb Cb]|[[Eb Cb]|[Eb [Cb1 Cb2]]]];
    rewrite Ea, Eb; try reflexivity; try (exfalso; lra).
  apply nle_Fin. apply Qcle_Q2Qc. exact M.
Qed.

Lemma Qcinv_nonneg (d : Qc) : (0 < d)%Qc -> (0 <= / d)%Qc.
Proof.
  intros H. unfold Qcinv. change 0%Qc with (Q2Qc 0). apply Qcle_Q2Qc.
  apply Qinv_le_0_compat. apply Qlt_le_weak. exact H.
Qed.

Lemma nmul_monotone (d : Qc) : (0 < d)%Qc -> monotone (fun x => nmul x (Fin d)).
Proof.
  intros H.
  assert (S : Qcsgn d = Gt) by (unfold Qcsgn; apply Qcgt_alt; exact H).
  apply monotone_intro.
  - cbn [nmul]. rewrite S. reflexivity.
  - cbn [nmul]. rewrite S. reflexivity.
  - intros a b L. cbn [nmul]. apply nle_Fin.
    apply Qcmult_le_compat_r; [exact L|]. apply Qclt_le_weak. exact H.
Qed.

Lemma ndiv_monotone (d : Qc) : (0 < d)%Qc -> monotone (fun x => ndiv x (Fin d)).
Proof.
  intros H.
  assert (N : d <> 0%Qc) by (intros E; rewrite E in H; discriminate H).
  assert (S : Qcltb d 0 = false).
  { destruct (Qcltb d 0) eqn:E; [|reflexivity]. apply Qcltb_lt in E.
    exfalso. apply (Qclt_not_le _ _ E). apply Qclt_le_weak. exact H. }
  apply monotone_intro.
  - cbn [ndiv]. rewrite S. reflexivity.
  - cbn [ndiv]. rewrite S. reflexivity.
  - intros a b L. rewrite !(ndiv_Fin _ N). apply nle_Fin. unfold Qcdiv.
    apply Qcmult_le_compat_r; [exact L|]. apply Qcinv_nonneg. exact H.
Qed.

Lemma Math_round_monotone : monotone Math_round.
Proof.
  apply monotone_intro; [reflexivity | reflexivity |].
  intros a b L. cbn [Math_round].
  change (nle (of_Z (Qfloor (a + Q2Qc (1 # 2))%Qc)) (of_Z (Qfloor (b + Q2Qc (1 # 2))%Qc)))
    with (nge (of_Z (Qfloor (b + Q2Qc (1 # 2))%Qc)) (of_Z (Qfloor (a + Q2Qc (1 # 2))%Qc))).
  rewrite nge_of_Z. apply Z.leb_le. apply Qfloor_resp_le.
  apply (Qcplus_le_compat a b (Q2Qc (1 # 2)) (Q2Qc (1 # 2))); [exact L | apply Qcle_refl].
Qed.

Lemma qn_pos (n : nat) : 0 < n -> (0 < qn n)%Qc.
Proof.
  intros H. destruct (Qcle_lt_or_eq _ _ (qn_le (a := 0) (b := n) ltac:(lia))) as [L|E].
  - exact L.
  - exfalso. apply (qn_neq0 H). symmetry. exact E.
Qed.

Lemma fmul_monotone (n : nat) : 0 < n -> monotone (fun x => fmul x (of_nat n)).
Proof.
  intros H x y L. unfold fmul. apply round64_monotone.
  apply (@nmul_monotone _ (qn_pos H)). exact L.
Qed.

Lemma fdiv_monotone (n : nat) : 0 < n -> monotone (fun x => fdiv x (of_nat n)).
Proof.
  intros H x y L. unfold fdiv. apply round64_monotone.
  apply (@ndiv_monotone _ (qn_pos H)). exact L.
Qed.

(** Rounding to two decimals keeps the order. *)
Lemma round2_monotone : monotone Binary64.round2.
Proof.
  intros x y L. unfold Binary64.round2.
  apply (@fdiv_monotone 100); [lia|]. apply Math_round_monotone.
  apply (@fmul_monotone 100); [lia|]. exact L.
Qed.

Lemma nearest64_pow2_1024 : (nearest64 (pow2 1024) == pow2 1024)%Q.
Proof.
  apply (@nearest64_exact _ 1 1024); [lia | ring |].
  rewrite Qabs_pos by (apply Qlt_le_weak, pow2_pos).
  pose proof (pow2_plus 53 1024) as S. change (53 + 1024)%Z with (1024 + 53)%Z in S.
  rewrite S. pose proof (pow2_pos 1024) as P.
  assert (B : (1 < pow2 53)%Q) by reflexivity.
  apply Qlt_minus_iff.
  setoid_replace (pow2 53 * pow2 1024 + - pow2 1024)%Q
    with ((pow2 53 - 1) * pow2 1024)%Q by ring.
  apply Qmult_lt_0_compat; lra.
Qed.

(** A number of magnitude [2^1023] or more overflows when it is
    multiplied by 100. *)
Lemma round2_overflow (q : Qc) :
  (pow2 1024 <= 2 * q)%Q -> Binary64.round2 (Fin q) = PInf.
Proof.
  intros H. unfold Binary64.round2, fmul. rewrite of_nat_Fin. fold (qn 100).
  cbn [nmul]. pose proof (pow2_pos 1024) as P.
  assert (T : (this (q * qn 100)%Qc == this q * 100)%Q).
  { rewrite this_Qcmult, this_qn. reflexivity. }
  assert (L : (pow2 1024 <= this (q * qn 100)%Qc)%Q) by (rewrite T; lra).
  apply nearest64_mono in L. rewrite nearest64_pow2_1024 in L.
  destruct (round64_cases (q * qn 100)%Qc) as [[E _]|[[_ C]|[_ [_ C]]]];
    [|exfalso; lra|exfalso; lra].
  rewrite E. reflexivity.
Qed.

Lemma round2_underflow (q : Qc) :
  (2 * q <= - pow2 1024)%Q -> Binary64.round2 (Fin q) = NInf.
Proof.
  intros H. unfold Binary64.round2, fmul. rewrite of_nat_Fin. fold (qn 100).
  cbn [nmul]. pose proof (pow2_pos 1024) as P.
  assert (T : (this (q * qn 100)%Qc == this q * 100)%Q).
  { rewrite this_Qcmult, this_qn. reflexivity. }
  assert (L : (this (q * qn 100)%Qc <= - pow2 1024)%Q) by (rewrite T; lra).
  apply nearest64_mono in L. rewrite nearest64_opp, nearest64_pow2_1024 in L.
  destruct (round64_cases (q * qn 100)%Qc) as [[_ C]|[[E _]|[_ [C _]]]];
    [exfalso; lra| |exfalso; lra].
  rewrite E. reflexivity.
Qed.

(** Half the rounded double of a binary64 number rounds to two
    decimals as the number itself, also when the double overflows. *)
Lemma half_double_round2 (q : Qc) :
  binary64 (Fin q) = true ->
  Binary64.round2 (fdiv (round64 (Fin (q + q))) (of_nat 2)) = Binary64.round2 (Fin q).
Proof.
  intros B. pose proof (@binary64_Fin q B) as F.
  assert (T : (this (q + q)%Qc == 2 * this q)%Q) by (rewrite this_Qcplus; ring).
  assert (D : (nearest64 (q + q)%Qc == 2 * q)%Q).
  { rewrite (nearest64_comp T). apply nearest64_double. exact F. }
  destruct (round64_cases (q + q)%Qc) as [[E C]|[[E C]|[E _]]]; rewrite E.
  - rewrite D in C. rewrite (@round2_overflow q C). reflexivity.
  - rewrite D in C. rewrite (@round2_underflow q C). reflexivity.
  - assert (Q : Q2Qc (nearest64 (q + q)%Qc) = (q + q)%Qc).
    { apply Qc_is_canon. rewrite this_Q2Qc, D, T. reflexivity. }
    rewrite Q. unfold fdiv. rewrite of_nat_Fin. fold (qn 2).
    rewrite (ndiv_Fin _ (qn_neq0 (n := 2) ltac:(lia))).
    assert (Hh : ((q + q) / qn 2)%Qc = q).
    { unfold Qcdiv. rewrite qn_2, <- half_inv, Qcmult_comm. apply half_of_double. }
    rewrite Hh, (@binary64_round64 _ B). reflexivity.
Qed.

(** The median of binary64 numbers between [lo] and [hi], rounded to
    two decimals, lies between [lo] and [hi] rounded to two
    decimals. *)
Lemma median64_between (s : list num) (lo hi : Qc) :
  s <> [] ->
  (forall v, In v s -> exists q, v = Fin q /\ (lo <= q)%Qc /\ (q <= hi)%Qc) ->
  binary64 (Fin lo) = true -> binary64 (Fin hi) = true ->
  nle (Binary64.round2 (Fin lo)) (Binary64.round2 (Binary64.medianOf s)) = true /\
  nle (Binary64.round2 (Binary64.medianOf s)) (Binary64.round2 (Fin hi)) = true.
Proof.
  intros Ne Hs Blo Bhi.
  assert (Hn : 0 < List.length s) by (destruct s; [congruence | cbn; lia]).
  assert (I1 : List.length s / 2 < List.length s) by (apply Nat.div_lt; lia).
  assert (I0 : List.length s / 2 - 1 < List.length s) by lia.
  destruct (Hs _ (nth_In s NaN I1)) as (b & Eb & Lb & Ub).
  destruct (Hs _ (nth_In s NaN I0)) as (a & Ea & La & Ua).
  unfold Binary64.medianOf. destruct (List.length s mod 2 =? 0).
  - rewrite Ea, Eb. unfold fadd. cbn [nadd].
    set (H := fun x => Binary64.round2 (fdiv (round64 x) (of_nat 2))).
    assert (MH : monotone H).
    { intros x y L. unfold H. apply round2_monotone.
      apply (@fdiv_monotone 2); [lia|]. apply round64_monotone. exact L. }
    change (Binary64.round2 (fdiv (round64 (Fin (a + b))) (of_nat 2)))
      with (H (Fin (a + b)%Qc)).
    rewrite <- (@half_double_round2 lo Blo), <- (@half_double_round2 hi Bhi).
    change (Binary64.round2 (fdiv (round64 (Fin (lo + lo))) (of_nat 2)))
      with (H (Fin (lo + lo)%Qc)).
    change (Binary64.round2 (fdiv (round64 (Fin (hi + hi))) (of_nat 2)))
      with (H (Fin (hi + hi)%Qc)).
    split; apply MH; apply nle_Fin; apply Qcplus_le_compat; assumption.
  - rewrite Eb. split; apply round2_monotone; apply nle_Fin; assumption.
Qed.

(* ================================================================== *)
(** * calculateStatistics: count, and the order of its figures *)
(* ================================================================== *)

Section StatisticsOrder.
Context {host : Host}.

(** X11.  For records that carry metadata and a field with at least
    one finite value, [calculateStatistics] counts the finite values
    of the field; its minimum and maximum are the smallest and the
    largest of these values rounded to two decimals
    ([Math.round(x * 100) / 100]), and its median lies between its
    minimum and its maximum.  The values are binary64 numbers. *)
Theorem statistics_min_median_max (calls : list CallRecord) (fieldId : string) :
  Forall (fun c => has_metadata c = true) calls ->
  forallb binary64 (finiteValues calls fieldId) = true ->
  finiteValues calls fieldId <> [] ->
  exists s lo hi,
    Binary64.calculateStatistics calls fieldId = Ok (Some s) /\
    stat_count s = List.length (finiteValues calls fieldId) /\
    In (Fin lo) (finiteValues calls fieldId) /\
    In (Fin hi) (finiteValues calls fieldId) /\
    (forall q, In (Fin q) (finiteValues calls fieldId) -> (lo <= q)%Qc /\ (q <= hi)%Qc) /\
    stat_min s = Binary64.round2 (Fin lo) /\
    stat_max s = Binary64.round2 (Fin hi) /\
    nle (stat_min s) (median s) = true /\ nle (median s) (stat_max s) = true.
Proof.
  intros Hall Hbin Hne.
  pose proof (finiteValues_isFin calls fieldId) as Hfin.
  destruct (Math_min_Fin Hfin Hne) as [lo [Elo [Ilo Llo]]].
  destruct (Math_max_Fin Hfin Hne) as [hi [Ehi [Ihi Lhi]]].
  unfold Binary64.calculateStatistics.
  rewrite (numericValues_pure fieldId Hall). cbn [bind].
  set (vs := finiteValues calls fieldId) in *.
  assert (Hn : 0 < List.length vs) by (destruct vs; [congruence | cbn; lia]).
  replace (List.length vs =? 0) with false by (symmetry; apply Nat.eqb_neq; lia).
  pose proof (Array_sort_perm Binary64.ascending vs) as Pm.
  set (s := Array_sort Binary64.ascending vs) in *.
  assert (Sne : s <> []).
  { intros E. apply Permutation_length in Pm. rewrite E in Pm. cbn in Pm. lia. }
  rewrite forallb_forall in Hbin. rewrite Forall_forall in Hfin.
  destruct (@median64_between s lo hi Sne) as [L U].
  { intros v Hv. apply (Permutation_in _ Pm) in Hv.
    destruct (Hfin v Hv) as [q ->]. exists q. split; [reflexivity|]. split; auto. }
  { apply Hbin. exact Ilo. }
  { apply Hbin. exact Ihi. }
  eexists. exists lo, hi. split; [reflexivity|].
  cbn [stat_count stat_min stat_max median]. rewrite Elo, Ehi.
  repeat split; auto.
Qed.
End StatisticsOrder.

Lemma statistics_min_median_max_witness :
  exists s,
    @Binary64.calculateStatistics SampleHost.sample Samples.oneToTen "amount" = Ok (Some s) /\
    stat_count s = 10 /\
    nle (stat_min s) (median s) = true /\ nle (median s) (stat_max s) = true.
Proof.
  destruct (@statistics_min_median_max SampleHost.sample Samples.oneToTen "amount")
    as (s & lo & hi & Hs & Hc & _ & _ & _ & _ & _ & L & U).
  - repeat constructor.
  - vm_compute. reflexivity.
  - vm_compute. discriminate.
  - exists s. split; [exact Hs|]. split; [rewrite Hc; reflexivity|].
    split; assumption.
Defined.

(* ================================================================== *)
(** * A field without finite values *)
(* ================================================================== *)

Section NoValues.
Context {host : Host}.

(** X13.  For records that carry metadata, [calculatePercentile] and
    [calculateStatistics] return null exactly when the field has no
    finite value, whatever the percentile, and [generateHistogram]
    returns no bucket exactly when the field has no finite value or
    no bucket is asked for. *)
Theorem no_values_no_figures (calls : list CallRecord) (fieldId : string)
        (percentile : num) (buckets : nat) :
  Forall (fun c => has_metadata c = true) calls ->
  (calculatePercentile calls fieldId percentile = Ok None <->
   finiteValues calls fieldId = []) /\
  (calculateStatistics calls fieldId = Ok None <-> finiteValues calls fieldId = []) /\
  (generateHistogram calls fieldId buckets = Ok [] <->
   finiteValues calls fieldId = [] \/ buckets = 0).
Proof.
  intros Hall.
  rewrite (calculatePercentile_pure fieldId percentile Hall).
  rewrite (calculateStatistics_pure fieldId Hall).
  rewrite (generateHistogram_pure fieldId buckets Hall).
  set (vs := finiteValues calls fieldId).
  assert (L : List.length (Array_sort ascending vs) = List.length vs)
    by apply Array_sort_length.
  unfold interpolate, statisticsOf. rewrite L. cbv zeta.
  destruct vs as [|v vs]; cbn [List.length Nat.eqb].
  - repeat split; auto.
  - split; [|split].
    + destruct (nge _ _); [|destruct (nlt _ _)]; split; discriminate.
    + split; discriminate.
    + split.
      * intros H. right. injection H as H.
        apply (f_equal (@List.length _)) in H.
        rewrite length_map, length_seq in H. exact H.
      * intros [H|H]; [discriminate | rewrite H; reflexivity].
Qed.
End NoValues.

Lemma no_values_no_figures_witness :
  @calculatePercentile SampleHost.sample Samples.aab "amount" (of_nat 50) = Ok None /\
  @calculateStatistics SampleHost.sample Samples.aab "amount" = Ok None /\
  @generateHistogram SampleHost.sample Samples.aab "amount" 10 = Ok [].
Proof.
  destruct (@no_values_no_figures SampleHost.sample Samples.aab "amount" (of_nat 50) 10)
    as (Hp & Hs & Hh).
  - repeat constructor.
  - split; [apply Hp; reflexivity|]. split; [apply Hs; reflexivity|].
    apply Hh. left. reflexivity.
Defined.

(* ================================================================== *)
(** * detectSchema: when nothing is detected *)
(* ================================================================== *)

Section DetectionThreshold.
Variable Row : Type.
Variable calculateMatchScore : Row -> SchemaDefinition -> num.

(** X14.  [detectSchema] selects nothing for a file without rows, and
    for a file with rows exactly when no schema of the collection
    scores above 30 on the first row.  A schema it selects belongs to
    the collection, scores above 30, and no schema of the collection
    scores higher. *)
Theorem detection_threshold (row : Row) (rest : list Row)
        (schemas : list SchemaDefinition) :
  detectSchema calculateMatchScore [] schemas = None /\
  (detectSchema calculateMatchScore (row :: rest) schemas = None <->
   forall s, In s schemas -> ngt (calculateMatchScore row s) (of_nat 30) = false) /\
  (forall w,
      detectSchema calculateMatchScore (row :: rest) schemas = Some w ->
      In w schemas /\
      ngt (calculateMatchScore row w) (of_nat 30) = true /\
      forall s, In s schemas ->
                ngt (calculateMatchScore row s) (calculateMatchScore row w) = false).
Proof.
  split; [reflexivity|].
  rewrite detectSchema_cons.
  destruct (bestMatch_top calculateMatchScore row schemas)
    as [[E Low]|[w [Hw [E [Pos Top]]]]]; rewrite E; cbn [schema score].
  - split.
    + split; [|reflexivity]. intros _ s Hs.
      destruct (ngt (calculateMatchScore row s) (of_nat 30)) eqn:G; [|reflexivity].
      unfold ngt in *. rewrite <- (Low s Hs). symmetry.
      apply (nlt_trans zero (of_nat 30)); [reflexivity | exact G].
    + discriminate.
  - split.
    + split.
      * intros H s Hs.
        destruct (ngt (calculateMatchScore row w) (of_nat 30)) eqn:G; [discriminate|].
        destruct (ngt (calculateMatchScore row s) (of_nat 30)) eqn:Gs; [|reflexivity].
        unfold ngt in *.
        assert (N : isNaN (calculateMatchScore row w) = false)
          by (apply (nlt_not_NaN _ _ Pos)).
        specialize (Top s Hs).
        rewrite (nlt_below _ _ _ Gs G N) in Top. discriminate.
      * intros H. rewrite (H w Hw). reflexivity.
    + intros w'. destruct (ngt (calculateMatchScore row w) (of_nat 30)) eqn:G;
        [|discriminate].
      intros H. injection H as <-. auto.
Qed.
End DetectionThreshold.

Lemma detection_threshold_witness :
  detectSchema Samples.headerMatchScore [Samples.headerRow]
    [ {| schema_id := "inventory"; schema_name := "Inventory"; version := "1.0.0";
         fields := [Samples.field "sku" "text" None; Samples.field "stock" "number" None];
         updatedAt := None |} ] = None.
Proof.
  apply (proj1 (proj2 (@detection_threshold Metadata Samples.headerMatchScore
                         Samples.headerRow [] _))).
  intros s [<-|[]]. vm_compute. reflexivity.
Defined.

(* ================================================================== *)
(** * calculateAgentPerformance *)
(* ================================================================== *)

Lemma sameValueZero_refl (v : value) : Analytics.sameValueZero v v = true.
Proof.
  destruct v as [| |b|n|s]; cbn; try reflexivity.
  - destruct b; reflexivity.
  - destruct n; cbn; try reflexivity. apply Qceqb_refl.
  - apply String.eqb_refl.
Qed.

Lemma sameValueZero_eq (a b : value) : Analytics.sameValueZero a b = true -> a = b.
Proof.
  destruct a as [| |x|[| | |x]|x], b as [| |y|[| | |y]|y]; cbn; intros H;
    try discriminate H; try reflexivity.
  - apply Bool.eqb_prop in H. congruence.
  - apply Qceqb_eq in H. congruence.
  - apply String.eqb_eq in H. congruence.
Qed.

Lemma map_push_keys {A : Type} (groups : list (value * list A)) (key : value) (a : A) :
  forall k, In k (map fst (Analytics.map_push groups key a))
            <-> k = key \/ In k (map fst groups).
Proof.
  induction groups as [|[k0 xs] rest IH]; intros k; cbn [Analytics.map_push map fst In].
  - intuition.
  - destruct (Analytics.sameValueZero k0 key) eqn:E; cbn [map fst In].
    + apply sameValueZero_eq in E. subst k0. intuition congruence.
    + rewrite IH. intuition congruence.
Qed.

Lemma map_push_NoDup {A : Type} (groups : list (value * list A)) (key : value) (a : A) :
  NoDup (map fst groups) -> NoDup (map fst (Analytics.map_push groups key a)).
Proof.
  induction groups as [|[k0 xs] rest IH]; cbn [Analytics.map_push map fst]; intros N.
  - constructor; [intros [] | constructor].
  - inversion N as [|? ? Hk Hrest]; subst.
    destruct (Analytics.sameValueZero k0 key) eqn:E; cbn [map fst].
    + exact N.
    + constructor; [|apply IH; exact Hrest].
      intros H. apply map_push_keys in H. destruct H as [H|H]; [|contradiction].
      subst k0. rewrite sameValueZero_refl in E. discriminate.
Qed.

Lemma map_push_sizes {A : Type} (groups : list (value * list A)) (key : value) (a : A) :
  list_sum (map (fun g => List.length (snd g)) (Analytics.map_push groups key a))
  = S (list_sum (map (fun g => List.length (snd g)) groups)).
Proof.
  induction groups as [|[k0 xs] rest IH]; cbn [Analytics.map_push map snd].
  - reflexivity.
  - destruct (Analytics.sameValueZero k0 key); cbn [map snd].
    + change (list_sum (?x :: ?l)) with (x + list_sum l).
      rewrite length_app. cbn [List.length]. lia.
    + change (list_sum (?x :: ?l)) with (x + list_sum l).
      rewrite IH. lia.
Qed.

Lemma map_push_nonempty {A : Type} (groups : list (value * list A)) (key : value) (a : A) :
  Forall (fun g => snd g <> []) groups ->
  Forall (fun g => snd g <> []) (Analytics.map_push groups key a).
Proof.
  induction 1 as [|[k xs] rest Hk Hrest IH]; cbn [Analytics.map_push].
  - constructor; [discriminate | constructor].
  - destruct (Analytics.sameValueZero k key).
    + constructor; [|exact Hrest]. cbn [snd]. destruct xs; discriminate.
    + constructor; [exact Hk | exact IH].
Qed.

Lemma agents_from (calls : list Analytics.EvaluatedCall)
      (acc : list (value * list Analytics.EvaluatedCall)) :
  foldM (fun agentMap call =>
           if Analytics.evaluated call then
             agent <- prop (Analytics.record call) "agentName" ;;
             Ok (Analytics.map_push agentMap agent call)
           else Ok agentMap)
        calls acc
  = if existsb (fun c => Analytics.evaluated c && negb (has_metadata (Analytics.record c)))
               calls
    then Throw TypeError
    else Ok (fold_left (fun agentMap c =>
                          if Analytics.evaluated c
                          then Analytics.map_push agentMap (agentOf c) c
                          else agentMap) calls acc).
Proof.
  revert acc. induction calls as [|c calls IH]; intros acc; cbn [foldM existsb fold_left].
  - reflexivity.
  - destruct (Analytics.evaluated c); cbn [andb orb].
    + destruct (has_metadata (Analytics.record c)) eqn:M; cbn [negb orb].
      * rewrite (prop_valueOf _ _ M). cbn [bind]. apply IH.
      * rewrite (prop_throws _ _ M). reflexivity.
    + apply IH.
Qed.

Lemma agentsOf_facts (calls : list Analytics.EvaluatedCall) :
  NoDup (map fst (agentsOf calls)) /\
  list_sum (map (fun g => List.length (snd g)) (agentsOf calls))
  = List.length (filter Analytics.evaluated calls) /\
  Forall (fun g => snd g <> []) (agentsOf calls) /\
  (forall c, In c calls -> Analytics.evaluated c = true ->
             In (agentOf c) (map fst (agentsOf calls))).
Proof.
  unfold agentsOf.
  apply (fold_left_seen
           (fun agentMap c =>
              if Analytics.evaluated c then Analytics.map_push agentMap (agentOf c) c
              else agentMap)
           (fun seen agentMap =>
              NoDup (map fst agentMap) /\
              list_sum (map (fun g => List.length (snd g)) agentMap)
              = List.length (filter Analytics.evaluated seen) /\
              Forall (fun g => snd g <> []) agentMap /\
              (forall c, In c seen -> Analytics.evaluated c = true ->
                         In (agentOf c) (map fst agentMap)))).
  - repeat split; try constructor. intros c [].
  - intros seen agentMap c (N & Z & E & K).
    rewrite filter_snoc, length_app.
    destruct (Analytics.evaluated c) eqn:V.
    + split; [apply map_push_NoDup; exact N|].
      split; [rewrite map_push_sizes, Z; cbn; lia|].
      split; [apply map_push_nonempty; exact E|].
      intros c' Hc' V'. apply map_push_keys.
      apply in_app_or in Hc'. destruct Hc' as [Hc'|[<-|[]]].
      * right. apply K; assumption.
      * left. reflexivity.
    + cbn [List.length]. rewrite Nat.add_0_r.
      split; [exact N|]. split; [exact Z|]. split; [exact E|].
      intros c' Hc' V'. apply in_app_or in Hc'. destruct Hc' as [Hc'|[<-|[]]].
      * apply K; assumption.
      * congruence.
Qed.

Lemma calculateAgentPerformance_cases (calls : list Analytics.EvaluatedCall) :
  Analytics.calculateAgentPerformance calls
  = if existsb (fun c => Analytics.evaluated c && negb (has_metadata (Analytics.record c)))
               calls
    then Throw TypeError
    else Ok (Array_sort Analytics.byAveragePercentageDesc
               (map (fun g => Analytics.agentPerformance (fst g) (snd g))
                    (agentsOf calls))).
Proof.
  unfold Analytics.calculateAgentPerformance. rewrite agents_from.
  destruct (existsb _ calls); [reflexivity|].
  fold (agentsOf calls). cbn [bind]. do 2 f_equal.
  apply map_ext. intros [k g]. reflexivity.
Qed.

Lemma agent_performance_inv (calls : list Analytics.EvaluatedCall)
      (perfs : list Analytics.AgentPerformance) (p : Analytics.AgentPerformance) :
  Analytics.calculateAgentPerformance calls = Ok perfs -> In p perfs ->
  exists k g, In (k, g) (agentsOf calls) /\ g <> [] /\
              p = Analytics.agentPerformance k g.
Proof.
  rewrite calculateAgentPerformance_cases.
  destruct (existsb _ calls); [discriminate|].
  intros H Hp. injection H as <-. apply Array_sort_In in Hp.
  apply in_map_iff in Hp. destruct Hp as [[k g] [<- Hg]].
  exists k, g. split; [exact Hg|]. split; [|reflexivity].
  destruct (agentsOf_facts calls) as (_ & _ & E & _).
  rewrite Forall_forall in E. apply (E _ Hg).
Qed.

(** X15.  [calculateAgentPerformance] throws a TypeError when an
    evaluated call has no metadata.  Otherwise it returns one entry
    per agent of the evaluated calls: no agent has two entries, every
    entry counts at least one call, the entries count every evaluated
    call once, and calls that are not evaluated are not counted. *)
Theorem agent_performance_per_agent (calls : list Analytics.EvaluatedCall) :
  ((exists c, In c calls /\ Analytics.evaluated c = true /\
              has_metadata (Analytics.record c) = false) ->
   Analytics.calculateAgentPerformance calls = Throw TypeError) /\
  ((forall c, In c calls -> Analytics.evaluated c = true ->
              has_metadata (Analytics.record c) = true) ->
   exists perfs,
     Analytics.calculateAgentPerformance calls = Ok perfs /\
     NoDup (map Analytics.agentName perfs) /\
     Forall (fun p => 1 <= Analytics.totalCalls p) perfs /\
     list_sum (map Analytics.totalCalls perfs)
     = List.length (filter Analytics.evaluated calls) /\
     (forall c, In c calls -> Analytics.evaluated c = true ->
                exists p, In p perfs /\ Analytics.agentName p = agentOf c)).
Proof.
  rewrite calculateAgentPerformance_cases. split.
  - intros [c [Hc [V M]]].
    replace (existsb _ calls) with true; [reflexivity|].
    symmetry. apply existsb_exists. exists c. rewrite V, M. auto.
  - intros Hall.
    replace (existsb _ calls) with false.
    2:{ symmetry. apply not_true_is_false. intros E.
        apply existsb_exists in E. destruct E as [c [Hc E]].
        apply andb_true_iff in E. destruct E as [V M].
        rewrite (Hall c Hc V) in M. discriminate. }
    eexists. split; [reflexivity|].
    destruct (agentsOf_facts calls) as (N & Z & E & K).
    set (rows := map (fun g => Analytics.agentPerformance (fst g) (snd g))
                     (agentsOf calls)).
    assert (P : Permutation (Array_sort Analytics.byAveragePercentageDesc rows) rows)
      by apply Array_sort_perm.
    split; [|split; [|split]].
    + apply (Permutation_NoDup (l := map Analytics.agentName rows)).
      * apply Permutation_map. symmetry. exact P.
      * unfold rows. rewrite map_map. exact N.
    + rewrite Forall_forall. intros p Hp. apply Array_sort_In in Hp.
      unfold rows in Hp. apply in_map_iff in Hp. destruct Hp as [g [<- Hg]].
      cbn [Analytics.agentPerformance Analytics.totalCalls].
      rewrite Forall_forall in E. specialize (E g Hg).
      destruct (snd g); [congruence | cbn; lia].
    + rewrite (Permutation_list_sum (Permutation_map Analytics.totalCalls P)).
      unfold rows. rewrite map_map. exact Z.
    + intros c Hc V. specialize (K c Hc V).
      apply in_map_iff in K. destruct K as [g [Eg Hg]].
      exists (Analytics.agentPerformance (fst g) (snd g)). split.
      * apply Array_sort_In. unfold rows.
        apply (in_map (fun g => Analytics.agentPerformance (fst g) (snd g)) _ _ Hg).
      * exact Eg.
Qed.

Lemma agent_performance_per_agent_witness :
  exists perfs,
    Analytics.calculateAgentPerformance Samples.team = Ok perfs /\
    NoDup (map Analytics.agentName perfs) /\
    list_sum (map Analytics.totalCalls perfs) = 3.
Proof.
  destruct (agent_performance_per_agent Samples.team) as [_ H].
  destruct H as (perfs & Hp & N & _ & Z & _).
  - intros c [<-|[<-|[<-|[<-|[]]]]]; (reflexivity || discriminate).
  - exists perfs. split; [exact Hp|]. split; [exact N|]. rewrite Z. reflexivity.
Defined.

(* ------------------------------------------------------------------ *)

Lemma no_jump (r : num) :
  ngt r (nadd r (of_nat 5)) = false /\ nlt r (nsub r (of_nat 5)) = false.
Proof.
  destruct r as [| | |q]; try (split; reflexivity).
  rewrite of_nat_Fin. fold (qn 5). unfold ngt. cbn [nadd nsub nneg nlt].
  split; apply not_true_is_false; intros E; apply Qcltb_lt in E;
    apply Qclt_minus_iff in E.
  - replace (q + - (q + qn 5))%Qc with (- qn 5)%Qc in E by ring.
    revert E. unfold Qclt. cbn. discriminate.
  - replace (q + - qn 5 + - q)%Qc with (- qn 5)%Qc in E by ring.
    revert E. unfold Qclt. cbn. discriminate.
Qed.

Lemma trend_stable_few (agentCalls : list Analytics.EvaluatedCall) :
  List.length agentCalls <= 5 -> Analytics.trendOf agentCalls = Analytics.stable.
Proof.
  intros H. unfold Analytics.trendOf, Analytics.slice_front.
  replace (List.length agentCalls - 5) with 0 by lia.
  cbn [firstn List.length Nat.ltb Nat.leb]. cbv zeta.
  match goal with
  | |- (if ngt ?r (nadd ?r _) then _ else _) = _ =>
      destruct (no_jump r) as [-> ->]
  end.
  reflexivity.
Qed.

(** X16.  An agent with at most five evaluated calls has the trend
    'stable': with no older calls to compare with, the average of the
    recent calls is compared with itself. *)
Theorem trend_stable_up_to_five_calls (calls : list Analytics.EvaluatedCall)
        (perfs : list Analytics.AgentPerformance) (p : Analytics.AgentPerformance) :
  Analytics.calculateAgentPerformance calls = Ok perfs ->
  In p perfs ->
  Analytics.totalCalls p <= 5 ->
  Analytics.trend p = Analytics.stable.
Proof.
  intros H Hp L. destruct (@agent_performance_inv calls perfs p H Hp) as (k & g & _ & _ & ->).
  cbn [Analytics.agentPerformance Analytics.trend Analytics.totalCalls] in *.
  apply trend_stable_few. exact L.
Qed.

Lemma trend_stable_up_to_five_calls_witness :
  exists perfs,
    Analytics.calculateAgentPerformance Samples.team = Ok perfs /\
    Forall (fun p => Analytics.trend p = Analytics.stable) perfs.
Proof.
  destruct (Analytics.calculateAgentPerformance Samples.team) as [perfs|e] eqn:E;
    [|vm_compute in E; discriminate].
  exists perfs. split; [reflexivity|].
  rewrite Forall_forall. intros p Hp.
  apply (@trend_stable_up_to_five_calls Samples.team perfs p E Hp).
  destruct (@agent_performance_inv Samples.team perfs p E Hp) as (k & g & Hg & _ & ->).
  cbn [Analytics.agentPerformance Analytics.totalCalls].
  vm_compute in Hg. destruct Hg as [Hg|[Hg|[]]]; injection Hg as _ <-; cbn; lia.
Defined.

(* ------------------------------------------------------------------ *)

Lemma firstn_In_le {A : Type} (a b : nat) (l : list A) (x : A) :
  a <= b -> In x (firstn a l) -> In x (firstn b l).
Proof.
  revert a b. induction l as [|y l IH]; intros a b Hab.
  - rewrite !firstn_nil. auto.
  - destruct a as [|a]; [intros []|]. destruct b as [|b]; [lia|].
    cbn [firstn In]. intros [H|H]; [left; exact H | right].
    apply (IH a b); [lia | exact H].
Qed.

Lemma NoDup_app_keys {A B : Type} (f : A -> B) (l1 l2 : list A) (x y : A) :
  NoDup (map f (l1 ++ l2)) -> In x l1 -> In y l2 -> f x <> f y.
Proof.
  induction l1 as [|z l1 IH]; cbn [app map]; intros N Hx Hy; [destruct Hx|].
  inversion N as [|? ? Hz N']; subst. destruct Hx as [->|Hx].
  - intros E. apply Hz. rewrite E. apply in_map. apply in_or_app. right. exact Hy.
  - apply IH; assumption.
Qed.

Lemma StronglySorted_app_order {A : Type} (R : A -> A -> Prop) (l1 l2 : list A) (x y : A) :
  StronglySorted R (l1 ++ l2) -> In x l1 -> In y l2 -> R x y.
Proof.
  induction l1 as [|z l1 IH]; cbn [app]; intros Hs Hx Hy; [destruct Hx|].
  apply StronglySorted_inv in Hs. destruct Hs as [Hs F]. destruct Hx as [->|Hx].
  - rewrite Forall_forall in F. apply F. apply in_or_app. right. exact Hy.
  - apply IH; assumption.
Qed.

Lemma NoDup_keys_unique {A B : Type} (l : list (A * B)) (k : A) (a b : B) :
  NoDup (map fst l) -> In (k, a) l -> In (k, b) l -> a = b.
Proof.
  induction l as [|[k0 v0] l IH]; cbn [map fst In]; intros N Ha Hb; [destruct Ha|].
  inversion N as [|? ? Hk N']; subst.
  destruct Ha as [Ha|Ha], Hb as [Hb|Hb].
  - congruence.
  - injection Ha as -> ->. exfalso. apply Hk.
    apply (in_map fst _ _ Hb).
  - injection Hb as -> ->. exfalso. apply Hk.
    apply (in_map fst _ _ Ha).
  - apply IH; assumption.
Qed.

Lemma criteria_ids : map criterion_id EVALUATION_CRITERIA = seq 1 10.
Proof. reflexivity. Qed.

Lemma criteriaScores_ids (g : list Analytics.EvaluatedCall) :
  map fst (map (Analytics.criterionScore g) EVALUATION_CRITERIA) = seq 1 10.
Proof. rewrite map_map. reflexivity. Qed.

(** The ids among the first three and the last three sorted criteria
    are ids of criteria. *)
Lemma top_ids_in_range (g : list Analytics.EvaluatedCall) (i : nat) :
  let sorted := Array_sort Analytics.byScoreDesc
                           (map (Analytics.criterionScore g) EVALUATION_CRITERIA) in
  In i (map fst (firstn 3 sorted) ++ map fst (Analytics.slice_last 3 sorted)) ->
  1 <= i <= 10.
Proof.
  intros sorted Hi. rewrite <- map_app in Hi. apply in_map_iff in Hi.
  destruct Hi as [x [<- Hx]].
  assert (Hs : In x sorted).
  { apply in_app_or in Hx. destruct Hx as [Hx|Hx].
    - apply (In_firstn 3 sorted x Hx).
    - unfold Analytics.slice_last in Hx.
      rewrite <- (firstn_skipn (List.length sorted - 3) sorted).
      apply in_or_app. right. exact Hx. }
  apply Array_sort_In in Hs. apply (in_map fst) in Hs.
  rewrite criteriaScores_ids in Hs. apply in_seq in Hs. lia.
Qed.

(** X17.  The three strengths and the three weaknesses of an agent are
    six different criteria out of the ten.  When every average of the
    agent is a finite number, no weakness has a higher average than a
    strength. *)
Theorem strengths_and_weaknesses_differ (calls : list Analytics.EvaluatedCall)
        (perfs : list Analytics.AgentPerformance) (p : Analytics.AgentPerformance) :
  Analytics.calculateAgentPerformance calls = Ok perfs ->
  In p perfs ->
  List.length (Analytics.topStrengths p) = 3 /\
  List.length (Analytics.topWeaknesses p) = 3 /\
  NoDup (Analytics.topStrengths p ++ Analytics.topWeaknesses p) /\
  (forall i, In i (Analytics.topStrengths p ++ Analytics.topWeaknesses p) ->
             1 <= i <= 10) /\
  (Forall (fun e => isFinite (snd e) = true) (Analytics.criteriaScores p) ->
   forall i j a b,
     In i (Analytics.topStrengths p) -> In j (Analytics.topWeaknesses p) ->
     In (i, a) (Analytics.criteriaScores p) ->
     In (j, b) (Analytics.criteriaScores p) ->
     nge a b = true).
Proof.
  intros H Hp. destruct (@agent_performance_inv calls perfs p H Hp) as (k & g & _ & _ & ->).
  cbn [Analytics.agentPerformance Analytics.topStrengths Analytics.topWeaknesses
       Analytics.criteriaScores].
  set (cs := map (Analytics.criterionScore g) EVALUATION_CRITERIA).
  set (sorted := Array_sort Analytics.byScoreDesc cs).
  assert (Len : List.length sorted = 10).
  { unfold sorted. rewrite Array_sort_length. unfold cs. rewrite length_map. reflexivity. }
  assert (P : Permutation sorted cs) by apply Array_sort_perm.
  assert (Ncs : NoDup (map fst cs)).
  { unfold cs. rewrite criteriaScores_ids. apply seq_NoDup. }
  assert (N : NoDup (map fst sorted)).
  { apply (Permutation_NoDup (l := map fst cs)); [|exact Ncs].
    apply Permutation_map. symmetry. exact P. }
  assert (Split : sorted = firstn 7 sorted ++ skipn 7 sorted)
    by (symmetry; apply firstn_skipn).
  unfold Analytics.slice_last. rewrite Len. change (10 - 3) with 7.
  split; [rewrite length_map, length_firstn, Len; reflexivity|].
  split; [rewrite length_map, length_skipn, Len; reflexivity|].
  split; [|split].
  - rewrite <- map_app, map_app. apply NoDup_app.
    + rewrite map_firstn. apply NoDup_firstn. exact N.
    + rewrite Split, map_app in N. apply NoDup_app_remove_l in N. exact N.
    + intros i Hi Hj.
      apply in_map_iff in Hi. destruct Hi as [x [Ex Hx]].
      apply in_map_iff in Hj. destruct Hj as [y [Ey Hy]].
      rewrite Split in N.
      apply (@NoDup_app_keys _ _ fst (firstn 7 sorted) (skipn 7 sorted) x y N).
      * apply (firstn_In_le (a := 3)); [lia | exact Hx].
      * exact Hy.
      * congruence.
  - intros i Hi. apply (top_ids_in_range g i).
    unfold Analytics.slice_last. fold cs sorted. rewrite Len. exact Hi.
  - intros F i j a b Hi Hj Ha Hb.
    assert (F' : Forall (fun e : nat * num => isFin (snd e)) cs).
    { rewrite Forall_forall in *. intros e He. apply isFinite_isFin. apply F. exact He. }
    assert (S : StronglySorted (fun u v : nat * num => nle (snd v) (snd u) = true)
                               sorted)
      by (apply (Array_sort_desc (fun e : nat * num => snd e) F')).
    rewrite Split in S.
    apply in_map_iff in Hi. destruct Hi as [[i' a'] [Ei Hx]]. cbn [fst] in Ei. subst i'.
    apply in_map_iff in Hj. destruct Hj as [[j' b'] [Ej Hy]]. cbn [fst] in Ej. subst j'.
    assert (Hx7 : In (i, a') (firstn 7 sorted))
      by (apply (firstn_In_le (a := 3)); [lia | exact Hx]).
    pose proof (StronglySorted_app_order _ _ _ _ S Hx7 Hy) as R. cbn [snd] in R.
    assert (Ea : a' = a).
    { apply (@NoDup_keys_unique nat num cs i a' a Ncs); [|exact Ha].
      apply (Permutation_in _ P). apply (In_firstn 3 sorted _ Hx). }
    assert (Eb : b' = b).
    { apply (@NoDup_keys_unique nat num cs j b' b Ncs); [|exact Hb].
      apply (Permutation_in _ P). rewrite Split. apply in_or_app. right. exact Hy. }
    subst a' b'. exact R.
Qed.

Lemma strengths_and_weaknesses_differ_witness :
  exists perfs,
    Analytics.calculateAgentPerformance Samples.team = Ok perfs /\
    Forall (fun p => NoDup (Analytics.topStrengths p ++ Analytics.topWeaknesses p)) perfs.
Proof.
  destruct (Analytics.calculateAgentPerformance Samples.team) as [perfs|e] eqn:E;
    [|vm_compute in E; discriminate].
  exists perfs. split; [reflexivity|].
  rewrite Forall_forall. intros p Hp.
  apply (@strengths_and_weaknesses_differ Samples.team perfs p E Hp).
Defined.

(* ================================================================== *)
(** * calculateCriteriaAnalytics *)
(* ================================================================== *)

Lemma found_length {A B : Type} (f : A -> option B) (l : list A) :
  List.length (flat_map (fun r => match r with Some r' => [r'] | None => [] end) (map f l))
  <= List.length l.
Proof.
  induction l as [|a l IH]; cbn [map flat_map List.length]; [lia|].
  rewrite length_app. destruct (f a); cbn [List.length]; lia.
Qed.

Lemma found_In {A B : Type} (f : A -> option B) (l : list A) (b : B) :
  In b (flat_map (fun r => match r with Some r' => [r'] | None => [] end) (map f l)) ->
  exists a, In a l /\ f a = Some b.
Proof.
  intros H. apply in_flat_map in H. destruct H as [o [Ho Hb]].
  apply in_map_iff in Ho. destruct Ho as [a [<- Ha]].
  destruct (f a) as [b'|] eqn:E; [|destruct Hb].
  destruct Hb as [<-|[]]. exists a. split; [exact Ha | exact E].
Qed.

Lemma filter_length_le {A : Type} (p : A -> bool) (l : list A) :
  List.length (filter p l) <= List.length l.
Proof.
  induction l as [|a l IH]; cbn [filter List.length]; [lia|].
  destruct (p a); cbn [List.length]; lia.
Qed.

Lemma mean_between (t lo hi : Qc) (n : nat) :
  0 < n -> (qn n * lo <= t)%Qc -> (t <= qn n * hi)%Qc ->
  (lo <= t / qn n)%Qc /\ (t / qn n <= hi)%Qc.
Proof.
  intros Hn L U.
  pose proof (qn_neq0 Hn) as N.
  assert (P : (0 < qn n)%Qc).
  { destruct (Qcle_lt_or_eq _ _ (qn_le (a := 0) (b := n) ltac:(lia))) as [H|H].
    - exact H.
    - exfalso. apply N. symmetry. exact H. }
  split.
  - apply (Qcmult_lt_0_le_reg_r _ _ (qn n) P).
    replace (t / qn n * qn n)%Qc with t by (field; exact N).
    rewrite Qcmult_comm. exact L.
  - apply (Qcmult_lt_0_le_reg_r _ _ (qn n) P).
    replace (t / qn n * qn n)%Qc with t by (field; exact N).
    rewrite (Qcmult_comm hi). exact U.
Qed.

Lemma rate_bounds (p t : nat) :
  p <= t -> 0 < t ->
  (0 <= qn p / qn t * qn 100)%Qc /\ (qn p / qn t * qn 100 <= qn 100)%Qc.
Proof.
  intros Hp Ht.
  assert (H100 : (0 <= qn 100)%Qc) by (apply (qn_le (a := 0)); lia).
  destruct (@mean_between (qn p) 0%Qc 1%Qc t Ht) as [L U].
  - rewrite Qcmult_0_r. apply (qn_le (a := 0)). lia.
  - rewrite Qcmult_1_r. apply qn_le. exact Hp.
  - split.
    + apply Qcmult_nonneg; assumption.
    + pose proof (Qcmult_le_compat_r _ _ _ U H100) as H.
      rewrite Qcmult_1_l in H. exact H.
Qed.

Lemma criteria_analytics_ids (calls : list Analytics.EvaluatedCall)
      (a : Analytics.CriteriaAnalytics) :
  In a (Analytics.calculateCriteriaAnalytics calls) ->
  exists c, In c EVALUATION_CRITERIA /\
            Analytics.analytics_criterionId a = criterion_id c.
Proof.
  intros Ha. apply in_map_iff in Ha. destruct Ha as [c [<- Hc]].
  exists c. split; [exact Hc | reflexivity].
Qed.

(** X18.  [calculateCriteriaAnalytics] returns one row per criterion,
    in the order of the ten criteria.  A row counts at most one result
    per evaluated call; its pass rate is a number between 0 and 100,
    and is 0, like the average score, when no call has a result for
    the criterion; its issues are at most three non-empty reasonings
    of failed results of the criterion. *)
Theorem criteria_analytics_rows (calls : list Analytics.EvaluatedCall) :
  map Analytics.analytics_criterionId (Analytics.calculateCriteriaAnalytics calls)
  = seq 1 10 /\
  forall a, In a (Analytics.calculateCriteriaAnalytics calls) ->
    exists criterion,
      In criterion EVALUATION_CRITERIA /\
      Analytics.analytics_criterionId a = criterion_id criterion /\
      Analytics.totalEvaluations a <= List.length (filter Analytics.evaluated calls) /\
      (exists q, Analytics.passRate a = Fin q /\ (0 <= q)%Qc /\ (q <= qn 100)%Qc) /\
      (Analytics.totalEvaluations a = 0 ->
       Analytics.passRate a = zero /\ Analytics.analytics_averageScore a = zero /\
       Analytics.commonIssues a = []) /\
      List.length (Analytics.commonIssues a) <= 3 /\
      (forall s, In s (Analytics.commonIssues a) ->
                 s <> "" /\
                 exists c r, In c calls /\ Analytics.findResult criterion c = Some r /\
                             Analytics.passed r = false /\ Analytics.reasoning r = s).
Proof.
  unfold Analytics.calculateCriteriaAnalytics. split.
  - rewrite map_map. reflexivity.
  - intros a Ha. apply in_map_iff in Ha. destruct Ha as [criterion [<- Hc]].
    exists criterion. split; [exact Hc|]. split; [reflexivity|].
    cbn [Analytics.criterionAnalytics Analytics.totalEvaluations Analytics.passRate
         Analytics.analytics_averageScore Analytics.commonIssues].
    set (evaluatedCalls := filter Analytics.evaluated calls).
    set (results := flat_map (fun r => match r with Some r' => [r'] | None => [] end)
                             (map (Analytics.findResult criterion) evaluatedCalls)).
    split; [apply found_length|].
    split.
    { destruct (Nat.ltb_spec 0 (List.length results)) as [Pos|Zero].
      - rewrite (percentage_Fin _ Pos). eexists. split; [reflexivity|].
        apply rate_bounds; [apply filter_length_le | exact Pos].
      - exists 0%Qc. split; [reflexivity|]. split; [apply Qcle_refl|].
        apply (qn_le (a := 0)). lia. }
    split.
    { intros Z. rewrite Z. cbn [Nat.ltb Nat.leb].
      apply length_zero_iff_nil in Z. rewrite Z. auto. }
    split; [apply firstn_le_length|].
    intros s Hs. apply In_firstn in Hs. apply filter_In in Hs. destruct Hs as [Hs Ne].
    split.
    { intros ->. discriminate. }
    apply in_map_iff in Hs. destruct Hs as [r [<- Hr]].
    apply filter_In in Hr. destruct Hr as [Hr Failed].
    apply found_In in Hr. destruct Hr as [c [Hc' Found]].
    exists c, r. split; [apply (proj1 (proj1 (filter_In _ _ _) Hc'))|].
    split; [exact Found|]. split; [|reflexivity].
    apply negb_true_iff. exact Failed.
Qed.

(* ================================================================== *)
(** * getPerformanceTrend *)
(* ================================================================== *)

Lemma total_push_keys (m : list (string * (num * nat))) (key : string) (p : num) :
  forall k, In k (map fst (Analytics.total_push m key p)) <-> k = key \/ In k (map fst m).
Proof.
  induction m as [|[k0 [t n]] rest IH]; intros k; cbn [Analytics.total_push map fst In].
  - intuition.
  - destruct (String.eqb_spec k0 key) as [->|Ne]; cbn [map fst In].
    + intuition congruence.
    + rewrite IH. intuition congruence.
Qed.

Lemma total_push_NoDup (m : list (string * (num * nat))) (key : string) (p : num) :
  NoDup (map fst m) -> NoDup (map fst (Analytics.total_push m key p)).
Proof.
  induction m as [|[k0 [t n]] rest IH]; cbn [Analytics.total_push map fst]; intros N.
  - constructor; [intros [] | constructor].
  - inversion N as [|? ? Hk Hrest]; subst.
    destruct (String.eqb_spec k0 key) as [->|Ne]; cbn [map fst].
    + exact N.
    + constructor; [|apply IH; exact Hrest].
      intros H. apply total_push_keys in H. destruct H as [H|H]; [|contradiction].
      congruence.
Qed.

Lemma total_push_counts (m : list (string * (num * nat))) (key : string) (p : num) :
  list_sum (map (fun e => snd (snd e)) (Analytics.total_push m key p))
  = S (list_sum (map (fun e => snd (snd e)) m)) /\
  (Forall (fun e => 1 <= snd (snd e)) m ->
   Forall (fun e => 1 <= snd (snd e)) (Analytics.total_push m key p)).
Proof.
  induction m as [|[k0 [t n]] rest [IHs IHp]]; cbn [Analytics.total_push map snd].
  - split; [reflexivity|]. intros _. constructor; [cbn; lia | constructor].
  - destruct (String.eqb k0 key); cbn [map snd];
      change (list_sum (?x :: ?l)) with (x + list_sum l).
    + split; [lia|]. intros F. inversion F; subst.
      constructor; [cbn; lia | assumption].
    + split; [rewrite IHs; lia|]. intros F. inversion F; subst.
      constructor; [assumption | apply IHp; assumption].
Qed.

Lemma filterM_metadata {A : Type} (rec : A -> CallRecord) (p : A -> res bool)
      (q : A -> bool) (l : list A) :
  (forall a, has_metadata (rec a) = true -> p a = Ok (q a)) ->
  (forall a, has_metadata (rec a) = false -> p a = Throw TypeError) ->
  Analytics.filterM p l
  = if existsb (fun a => negb (has_metadata (rec a))) l
    then Throw TypeError else Ok (filter q l).
Proof.
  intros Hok Hthrow. induction l as [|a l IH]; cbn [Analytics.filterM existsb filter].
  - reflexivity.
  - destruct (has_metadata (rec a)) eqn:M; cbn [negb orb].
    + rewrite (Hok a M), IH. cbn [bind].
      destruct (existsb _ l); [reflexivity|]. cbn [bind].
      destruct (q a); reflexivity.
    + rewrite (Hthrow a M). reflexivity.
Qed.

Section PerformanceTrend.
Context {host : Host}.

Lemma dates_from (calls : list Analytics.EvaluatedCall)
      (acc : list (string * (num * nat))) :
  foldM (fun dateMap call =>
           iso <- match Date_toISOString (VStr (createdAt (Analytics.record call))) with
                  | Some s => Ok s
                  | None => Throw RangeError
                  end ;;
           Ok (Analytics.total_push dateMap (before_T iso) (Analytics.percentageOf call)))
        calls acc
  = if existsb (fun c => match creationDate c with None => true | Some _ => false end) calls
    then Throw RangeError
    else Ok (fold_left (fun dateMap c =>
                          match creationDate c with
                          | Some d => Analytics.total_push dateMap d (Analytics.percentageOf c)
                          | None => dateMap
                          end) calls acc).
Proof.
  revert acc. induction calls as [|c calls IH]; intros acc; cbn [foldM existsb fold_left].
  - reflexivity.
  - unfold creationDate.
    destruct (Date_toISOString (VStr (createdAt (Analytics.record c))));
      cbn [bind option_map orb].
    + apply IH.
    + reflexivity.
Qed.

Lemma totalsOf_facts (calls : list Analytics.EvaluatedCall) :
  (forall c, In c calls -> creationDate c <> None) ->
  NoDup (map fst (totalsOf calls)) /\
  list_sum (map (fun e => snd (snd e)) (totalsOf calls)) = List.length calls /\
  Forall (fun e => 1 <= snd (snd e)) (totalsOf calls).
Proof.
  unfold totalsOf.
  apply (fold_left_seen
           (fun dateMap c =>
              match creationDate c with
              | Some d => Analytics.total_push dateMap d (Analytics.percentageOf c)
              | None => dateMap
              end)
           (fun seen dateMap =>
              (forall c, In c seen -> creationDate c <> None) ->
              NoDup (map fst dateMap) /\
              list_sum (map (fun e => snd (snd e)) dateMap) = List.length seen /\
              Forall (fun e => 1 <= snd (snd e)) dateMap)).
  - intros _. repeat split; constructor.
  - intros seen dateMap c IH V.
    destruct IH as (N & Z & F).
    { intros c' Hc'. apply V. apply in_or_app. left. exact Hc'. }
    destruct (creationDate c) as [d|] eqn:D.
    + destruct (total_push_counts dateMap d (Analytics.percentageOf c)) as [Es Ep].
      split; [apply total_push_NoDup; exact N|].
      split; [rewrite Es, Z, length_app; cbn; lia|].
      apply Ep. exact F.
    + exfalso. apply (V c); [apply in_or_app; right; left; reflexivity | exact D].
Qed.

Lemma getPerformanceTrend_selected (calls : list Analytics.EvaluatedCall)
      (agentName : option string) :
  (forall a, agentName = Some a -> a <> "" ->
             forall c, In c calls -> has_metadata (Analytics.record c) = true) ->
  Analytics.getPerformanceTrend calls agentName
  = if existsb (fun c => match creationDate c with None => true | Some _ => false end)
               (filter (selected agentName) calls)
    then Throw RangeError
    else Ok (Array_sort (fun a b => localeCompare (Analytics.point_date a)
                                                  (Analytics.point_date b))
                        (map Analytics.trendPointOf
                             (totalsOf (filter (selected agentName) calls)))).
Proof.
  intros Hall. unfold Analytics.getPerformanceTrend. cbv zeta.
  assert (E : match agentName with
              | Some a =>
                  if negb (String.eqb a "") then
                    Analytics.filterM
                      (fun c => agent <- prop (Analytics.record c) "agentName" ;;
                                Ok (strict_eq agent (VStr a) && Analytics.evaluated c))
                      calls
                  else Ok (filter Analytics.evaluated calls)
              | None => Ok (filter Analytics.evaluated calls)
              end = Ok (filter (selected agentName) calls)).
  { destruct agentName as [a|]; [|reflexivity]. cbn [selected].
    destruct (String.eqb_spec a "") as [->|Ne]; cbn [negb]; [reflexivity|].
    rewrite (filterM_metadata Analytics.record
               (fun c => agent <- prop (Analytics.record c) "agentName" ;;
                         Ok (strict_eq agent (VStr a) && Analytics.evaluated c))
               (fun c => strict_eq (agentOf c) (VStr a) && Analytics.evaluated c)).
    - replace (existsb _ calls) with false.
      { f_equal. apply filter_ext. intros c. unfold selected.
        rewrite (proj2 (String.eqb_neq a "") Ne). reflexivity. }
      symmetry. apply not_true_is_false. intros X.
      apply existsb_exists in X. destruct X as [c [Hc X]].
      rewrite (Hall a eq_refl Ne c Hc) in X. discriminate.
    - intros c M. rewrite (prop_valueOf _ _ M). reflexivity.
    - intros c M. rewrite (prop_throws _ _ M). reflexivity. }
  rewrite E. cbn [bind]. rewrite dates_from.
  destruct (existsb _ (filter (selected agentName) calls)); reflexivity.
Qed.
End PerformanceTrend.

Section PerformanceTrendOrder.
Context {host : Host}.

(** X19.  [getPerformanceTrend] selects the evaluated calls, or with a
    non-empty agent name the evaluated calls of that agent.  With an
    agent name it throws a TypeError when some call, evaluated or
    not, has no metadata; without one it never reads the metadata.
    It throws a RangeError when a selected call has a creation time
    that is not a date.  Otherwise it returns one point per calendar
    date, in strictly ascending order of date, every point counting at
    least one call and the counts adding up to the number of selected
    calls. *)
Theorem performance_trend_by_date (calls : list Analytics.EvaluatedCall)
        (agentName : option string) :
  (forall a, agentName = Some a -> a <> "" ->
             (exists c, In c calls /\ has_metadata (Analytics.record c) = false) ->
             Analytics.getPerformanceTrend calls agentName = Throw TypeError) /\
  ((forall a, agentName = Some a -> a <> "" ->
              forall c, In c calls -> has_metadata (Analytics.record c) = true) ->
   ((exists c, In c calls /\ selected agentName c = true /\ creationDate c = None) ->
    Analytics.getPerformanceTrend calls agentName = Throw RangeError) /\
   ((forall c, In c calls -> selected agentName c = true -> creationDate c <> None) ->
    exists points,
      Analytics.getPerformanceTrend calls agentName = Ok points /\
      StronglySorted (fun a b => String.compare (Analytics.point_date a)
                                                (Analytics.point_date b) = Lt) points /\
      Forall (fun p => 1 <= Analytics.point_count p) points /\
      list_sum (map Analytics.point_count points)
      = List.length (filter (selected agentName) calls))).
Proof.
  split.
  - intros a -> Ne [c [Hc M]]. unfold Analytics.getPerformanceTrend. cbv zeta.
    rewrite (proj2 (String.eqb_neq a "") Ne). cbn [negb].
    rewrite (filterM_metadata Analytics.record
               (fun c => agent <- prop (Analytics.record c) "agentName" ;;
                         Ok (strict_eq agent (VStr a) && Analytics.evaluated c))
               (fun c => strict_eq (agentOf c) (VStr a) && Analytics.evaluated c)).
    + replace (existsb _ calls) with true; [reflexivity|].
      symmetry. apply existsb_exists. exists c. rewrite M. auto.
    + intros c' M'. rewrite (prop_valueOf _ _ M'). reflexivity.
    + intros c' M'. rewrite (prop_throws _ _ M'). reflexivity.
  - intros Hall. rewrite (@getPerformanceTrend_selected host calls agentName Hall). split.
    + intros [c [Hc [Sel D]]].
      replace (existsb _ (filter (selected agentName) calls)) with true; [reflexivity|].
      symmetry. apply existsb_exists. exists c. split.
      * apply filter_In. auto.
      * rewrite D. reflexivity.
    + intros V.
      assert (V' : forall c, In c (filter (selected agentName) calls) ->
                             creationDate c <> None).
      { intros c Hc. apply filter_In in Hc. apply V; tauto. }
      replace (existsb _ (filter (selected agentName) calls)) with false.
      2:{ symmetry. apply not_true_is_false. intros X.
          apply existsb_exists in X. destruct X as [c [Hc X]].
          destruct (creationDate c) eqn:D; [discriminate|]. apply (V' c Hc D). }
      eexists. split; [reflexivity|].
      destruct (totalsOf_facts _ V') as (N & Z & F).
      set (points := map Analytics.trendPointOf
                         (totalsOf (filter (selected agentName) calls))).
      set (cmp := fun a b : Analytics.TrendPoint =>
                    localeCompare (Analytics.point_date a) (Analytics.point_date b)).
      assert (P : Permutation (Array_sort cmp points) points) by apply Array_sort_perm.
      assert (Dates : map Analytics.point_date points
                      = map fst (totalsOf (filter (selected agentName) calls))).
      { unfold points. rewrite map_map. apply map_ext. intros [d [t n]]. reflexivity. }
      assert (Counts : map Analytics.point_count points
                       = map (fun e => snd (snd e))
                             (totalsOf (filter (selected agentName) calls))).
      { unfold points. rewrite map_map. apply map_ext. intros [d [t n]]. reflexivity. }
      split; [|split].
      * assert (ND : NoDup (map Analytics.point_date (Array_sort cmp points))).
        { apply (Permutation_NoDup (l := map Analytics.point_date points)).
          - apply Permutation_map. symmetry. exact P.
          - rewrite Dates. exact N. }
        pose proof (StronglySorted_distinct Analytics.point_date
                      (Array_sort_localeCompare Analytics.point_date points) ND) as S.
        apply (StronglySorted_weaken
                 (R := fun a b : Analytics.TrendPoint =>
                         String.compare (Analytics.point_date a) (Analytics.point_date b)
                         <> Gt /\ Analytics.point_date a <> Analytics.point_date b));
          [|exact S].
        intros a b _ _ [G D].
        destruct (String.compare (Analytics.point_date a) (Analytics.point_date b)) eqn:C;
          try congruence.
        apply String.compare_eq_iff in C. congruence.
      * apply (Permutation_Forall (Permutation_sym P)).
        unfold points. rewrite Forall_map.
        apply (Forall_impl _ (P := fun e : string * (num * nat) => 1 <= snd (snd e)));
          [|exact F].
        intros [d [t n]] H. exact H.
      * rewrite (Permutation_list_sum (Permutation_map Analytics.point_count P)).
        rewrite Counts. exact Z.
Qed.
End PerformanceTrendOrder.

Lemma performance_trend_by_date_witness :
  exists points,
    @Analytics.getPerformanceTrend SampleHost.sample Samples.team None = Ok points /\
    StronglySorted (fun a b => String.compare (Analytics.point_date a)
                                              (Analytics.point_date b) = Lt) points /\
    list_sum (map Analytics.point_count points) = 3.
Proof.
  destruct (@performance_trend_by_date SampleHost.sample Samples.team None) as [_ H].
  destruct H as [_ H].
  - intros a E. discriminate E.
  - destruct H as (points & Hp & Hs & _ & Hc).
    + intros c [<-|[<-|[<-|[<-|[]]]]] _; vm_compute; discriminate.
    + exists points. split; [exact Hp|]. split; [exact Hs|].
      rewrite Hc. reflexivity.
Defined.

(* ================================================================== *)
(** * Audio storage keys *)
(* ================================================================== *)

Lemma noSlash_app_slash (a c : string) : noSlash (a ++ String "/" c) = false.
Proof.
  induction a as [|x a IH]; cbn [append noSlash].
  - reflexivity.
  - rewrite IH. apply andb_false_r.
Qed.

Lemma slash_split_unique (a b c1 c2 : string) :
  noSlash c1 = true -> noSlash c2 = true ->
  (a ++ String "/" c1)%string = (b ++ String "/" c2)%string -> a = b /\ c1 = c2.
Proof.
  intros H1 H2. revert b. induction a as [|x a IH]; intros [|y b]; cbn [append]; intros E.
  - injection E as E. auto.
  - injection E as _ E. rewrite E, (noSlash_app_slash b c2) in H1. discriminate.
  - injection E as _ E. rewrite <- E, (noSlash_app_slash a c1) in H2. discriminate.
  - injection E as -> E. destruct (IH b E) as [-> ->]. auto.
Qed.

Lemma getStorageKey_schemaPart (callId : string) (schemaId : option string) :
  getStorageKey callId schemaId
  = if String.eqb (schemaPart schemaId) "" then callId
    else (schemaPart schemaId ++ String "/" callId)%string.
Proof.
  destruct schemaId as [s|]; cbn [getStorageKey schemaPart]; [|reflexivity].
  destruct (String.eqb s ""); reflexivity.
Qed.

(** X20.  Storage keys of call ids without a ['/'] do not collide: two
    calls get the same key only if they have the same id and the same
    schema id (a missing schema id and an empty one both giving the
    bare call id). *)
Theorem storage_keys_do_not_collide (callId1 callId2 : string)
        (schemaId1 schemaId2 : option string) :
  noSlash callId1 = true -> noSlash callId2 = true ->
  getStorageKey callId1 schemaId1 = getStorageKey callId2 schemaId2 ->
  callId1 = callId2 /\ schemaPart schemaId1 = schemaPart schemaId2.
Proof.
  intros H1 H2. rewrite !getStorageKey_schemaPart.
  destruct (String.eqb_spec (schemaPart schemaId1) "") as [E1|N1];
    destruct (String.eqb_spec (schemaPart schemaId2) "") as [E2|N2]; intros E.
  - split; congruence.
  - rewrite E, noSlash_app_slash in H1. discriminate.
  - rewrite <- E, noSlash_app_slash in H2. discriminate.
  - destruct (@slash_split_unique _ _ callId1 callId2 H1 H2 E) as [-> ->]. auto.
Qed.

Lemma storage_keys_do_not_collide_witness :
  getStorageKey "import-17-0" (Some "debt-collection")
  <> getStorageKey "import-17-0" (Some "survey") /\
  getStorageKey "import-17-0" (Some "survey") <> getStorageKey "import-17-0" None.
Proof.
  split; intros E.
  - destruct (@storage_keys_do_not_collide "import-17-0" "import-17-0"
                (Some "debt-collection") (Some "survey") eq_refl eq_refl E) as [_ H].
    discriminate H.
  - destruct (@storage_keys_do_not_collide "import-17-0" "import-17-0"
                (Some "survey") None eq_refl eq_refl E) as [_ H].
    discriminate H.
Defined.

(** With a ['/'] in a call id two different calls can share a key. *)
Example storage_key_collision :
  getStorageKey "b/c" (Some "a") = getStorageKey "c" (Some "a/b").
Proof. reflexivity. Qed.

(* ================================================================== *)
(** * Audio URLs of imported records *)
(* ================================================================== *)

Lemma prefix_app (p q s : string) :
  String.prefix (p ++ q) s = true -> String.prefix p s = true.
Proof.
  revert s. induction p as [|c p IH]; intros s; [destruct s; reflexivity|].
  destruct s as [|d s]; cbn [append String.prefix]; [discriminate|].
  destruct (ascii_dec c d); [apply IH | discriminate].
Qed.

Lemma includes_app (s p q : string) :
  includes s (p ++ q) = true -> includes s p = true.
Proof.
  induction s as [|c s IH]; cbn [includes]; intros H.
  - apply orb_true_iff in H. destruct H as [H|H]; [|discriminate].
    rewrite (prefix_app _ _ _ H). reflexivity.
  - apply orb_true_iff in H. destruct H as [H|H].
    + rewrite (prefix_app _ _ _ H). reflexivity.
    + rewrite (IH H). apply orb_true_r.
Qed.

Lemma endsWith_app (p suffix : string) : endsWith (p ++ suffix) suffix = true.
Proof.
  induction p as [|c p IH].
  - cbn [append]. destruct suffix; cbn [endsWith]; rewrite String.eqb_refl; reflexivity.
  - cbn [append endsWith]. rewrite IH. apply orb_true_r.
Qed.

Lemma find_ext {A : Type} (f g : A -> bool) (l : list A) :
  (forall a, f a = g a) -> find f l = find g l.
Proof.
  intros E. induction l as [|a l IH]; cbn [find]; [reflexivity|].
  rewrite E, IH. reflexivity.
Qed.

Section ImportFacts.
Context {host : Host}.

(** X21.  The audio field of an import is the first field of the
    schema whose lower-cased name contains "audiourl", "audio_url" or
    "file"; the tests for "filetag" and "file_tag" never decide.  The
    audio URL of a record is the folder, one ['/'] and the file name:
    a folder given with its trailing ['/'] and the same folder given
    without it yield the same URL, and a record whose cell is empty
    or missing gets no URL. *)
Theorem audio_url_of_import (targetSchema : SchemaDefinition) (folder : string)
        (field : option FieldDefinition) (metadata : Metadata) :
  audioUrlField targetSchema
  = find (fun f => includes (toLowerCase (name f)) "audiourl" ||
                   includes (toLowerCase (name f)) "audio_url" ||
                   includes (toLowerCase (name f)) "file")
         (fields targetSchema) /\
  endsWith (basePath folder) "/" = true /\
  basePath (basePath folder) = basePath folder /\
  (endsWith folder "/" = false ->
   audioUrl (folder ++ "/") field metadata = audioUrl folder field metadata) /\
  (forall f url,
      field = Some f -> audioUrl folder field metadata = Some url ->
      truthy (md_get metadata (name f)) = true /\
      url = (basePath folder ++ String_ (md_get metadata (name f)))%string) /\
  (forall f, field = Some f -> md_get metadata (name f) = VUndefined \/
                               md_get metadata (name f) = VStr "" ->
             audioUrl folder field metadata = None).
Proof.
  assert (B : endsWith (basePath folder) "/" = true).
  { unfold basePath. destruct (endsWith folder "/") eqn:E; [exact E|].
    apply endsWith_app. }
  split; [|split; [exact B|split; [|split; [|split]]]].
  - unfold audioUrlField. apply find_ext. intros f. unfold isAudioField.
    destruct (includes (toLowerCase (name f)) "audiourl"); [reflexivity|].
    destruct (includes (toLowerCase (name f)) "audio_url"); [reflexivity|].
    cbn [orb].
    destruct (includes (toLowerCase (name f)) "file") eqn:F.
    + destruct (includes _ "filetag"), (includes _ "file_tag"); reflexivity.
    + destruct (includes (toLowerCase (name f)) "filetag") eqn:F1.
      { rewrite (includes_app _ "file" "tag" F1) in F. discriminate. }
      destruct (includes (toLowerCase (name f)) "file_tag") eqn:F2.
      { rewrite (includes_app _ "file" "_tag" F2) in F. discriminate. }
      reflexivity.
  - unfold basePath at 1. rewrite B. reflexivity.
  - intros E. unfold audioUrl.
    replace (basePath (folder ++ "/")) with (basePath folder); [reflexivity|].
    unfold basePath. rewrite E, endsWith_app. reflexivity.
  - intros f url -> H. unfold audioUrl in H.
    destruct (truthy (md_get metadata (name f))); [|discriminate].
    injection H as <-. split; reflexivity.
  - intros f -> H. unfold audioUrl. destruct H as [-> | ->]; reflexivity.
Qed.
End ImportFacts.

Lemma audio_url_of_import_witness :
  @audioUrl SampleHost.sample "/audio/debt-collection/"
    (Some (Samples.field "fileTag" "text" None)) [("fileTag", VStr "call-17.wav")]
  = @audioUrl SampleHost.sample "/audio/debt-collection"
      (Some (Samples.field "fileTag" "text" None)) [("fileTag", VStr "call-17.wav")] /\
  @audioUrl SampleHost.sample "/audio/debt-collection"
    (Some (Samples.field "fileTag" "text" None)) [("fileTag", VStr "call-17.wav")]
  = Some "/audio/debt-collection/call-17.wav".
Proof.
  split; [|reflexivity].
  apply (proj1 (proj2 (proj2 (proj2
           (@audio_url_of_import SampleHost.sample Samples.callSchema
              "/audio/debt-collection" (Some (Samples.field "fileTag" "text" None))
              [("fileTag", VStr "call-17.wav")]))))).
  reflexivity.
Defined.

(* ================================================================== *)
(** * Results that do not depend on the order of the records *)
(* ================================================================== *)

Lemma filter_perm {A : Type} (p : A -> bool) (l l' : list A) :
  Permutation l l' -> Permutation (filter p l) (filter p l').
Proof.
  induction 1 as [|a l l' _ IH|a b l|l1 l2 l3 _ IH1 _ IH2]; cbn [filter].
  - constructor.
  - destruct (p a); [constructor|]; exact IH.
  - destruct (p a), (p b); try reflexivity. constructor.
  - exact (Permutation_trans IH1 IH2).
Qed.

(** Two ascending arrangements of the same finite numbers are equal. *)
Lemma ascending_unique (l l' : list num) :
  Forall isFin l ->
  StronglySorted (fun u v => nle u v = true) l ->
  StronglySorted (fun u v => nle u v = true) l' ->
  Permutation l l' -> l = l'.
Proof.
  intros F S. revert l'. induction S as [|a l S IH Ha]; intros l' S' P.
  - apply Permutation_nil in P. subst l'. reflexivity.
  - destruct S' as [|b l' S' Hb].
    + symmetry in P. apply Permutation_nil in P. discriminate.
    + inversion F as [|? ? [qa Ea] F']; subst.
      assert (Fb : isFin b).
      { rewrite Forall_forall in F. apply F.
        apply (Permutation_in _ (Permutation_sym P)). left. reflexivity. }
      destruct Fb as [qb ->].
      assert (Eab : qa = qb).
      { apply Qcle_antisym.
        - assert (I : In (Fin qb) (Fin qa :: l))
            by (apply (Permutation_in _ (Permutation_sym P)); left; reflexivity).
          destruct I as [I|I]; [apply Fin_inj in I; subst; apply Qcle_refl|].
          rewrite Forall_forall in Ha. apply nle_Fin. apply Ha. exact I.
        - assert (I : In (Fin qa) (Fin qb :: l'))
            by (apply (Permutation_in _ P); left; reflexivity).
          destruct I as [I|I]; [apply Fin_inj in I; subst; apply Qcle_refl|].
          rewrite Forall_forall in Hb. apply nle_Fin. apply Hb. exact I. }
      subst qb. f_equal. apply (IH F' l' S').
      apply (Permutation_cons_inv P).
Qed.

Lemma ascending_perm (vs vs' : list num) :
  Forall isFin vs -> Permutation vs vs' ->
  Array_sort ascending vs = Array_sort ascending vs'.
Proof.
  intros F P.
  assert (F' : Forall isFin vs') by (apply (Permutation_Forall P); exact F).
  apply ascending_unique.
  - apply (Permutation_Forall (Permutation_sym (Array_sort_perm ascending vs))). exact F.
  - apply (ascending_sorted F).
  - apply (ascending_sorted F').
  - rewrite (Array_sort_perm ascending vs), (Array_sort_perm ascending vs'). exact P.
Qed.

Lemma Math_min_perm (vs vs' : list num) :
  Forall isFin vs -> Permutation vs vs' -> Math_min vs = Math_min vs'.
Proof.
  intros F P.
  assert (F' : Forall isFin vs') by (apply (Permutation_Forall P); exact F).
  destruct vs as [|v vs].
  - apply Permutation_nil in P. subst vs'. reflexivity.
  - assert (N' : vs' <> []).
    { intros ->. symmetry in P. apply Permutation_nil in P. discriminate. }
    destruct (@Math_min_Fin (v :: vs) F) as (m & -> & Im & Lm); [discriminate|].
    destruct (Math_min_Fin F' N') as (m' & -> & Im' & Lm').
    f_equal. apply Qcle_antisym.
    + apply Lm. apply (Permutation_in _ (Permutation_sym P)). exact Im'.
    + apply Lm'. apply (Permutation_in _ P). exact Im.
Qed.

Lemma Math_max_perm (vs vs' : list num) :
  Forall isFin vs -> Permutation vs vs' -> Math_max vs = Math_max vs'.
Proof.
  intros F P.
  assert (F' : Forall isFin vs') by (apply (Permutation_Forall P); exact F).
  destruct vs as [|v vs].
  - apply Permutation_nil in P. subst vs'. reflexivity.
  - assert (N' : vs' <> []).
    { intros ->. symmetry in P. apply Permutation_nil in P. discriminate. }
    destruct (@Math_max_Fin (v :: vs) F) as (m & -> & Im & Lm); [discriminate|].
    destruct (Math_max_Fin F' N') as (m' & -> & Im' & Lm').
    f_equal. apply Qcle_antisym.
    + apply Lm'. apply (Permutation_in _ P). exact Im.
    + apply Lm. apply (Permutation_in _ (Permutation_sym P)). exact Im'.
Qed.

Section OrderIndependence.
Context {host : Host}.

Lemma finiteValues_perm (calls calls' : list CallRecord) (f : string) :
  Permutation calls calls' ->
  Permutation (finiteValues calls f) (finiteValues calls' f).
Proof.
  intros P. unfold finiteValues. apply filter_perm. apply Permutation_map. exact P.
Qed.

Lemma without_metadata_dec (calls : list CallRecord) :
  Forall (fun c => has_metadata c = true) calls \/
  exists c, In c calls /\ has_metadata c = false.
Proof.
  induction calls as [|c calls [IH|[d [Hd Md]]]].
  - left. constructor.
  - destruct (has_metadata c) eqn:M.
    + left. constructor; assumption.
    + right. exists c. split; [left; reflexivity | exact M].
  - right. exists d. split; [right; exact Hd | exact Md].
Qed.

Lemma histogramBucket64_perm (vs vs' : list num) (buckets i : nat) :
  Forall isFin vs -> Permutation vs vs' ->
  Binary64.histogramBucket vs buckets i = Binary64.histogramBucket vs' buckets i.
Proof.
  intros F P. unfold Binary64.histogramBucket, Binary64.bucketSizeOf.
  rewrite <- (Permutation_length P), <- (Math_min_perm F P), <- (Math_max_perm F P).
  rewrite <- (Permutation_length (filter_perm _ P)). reflexivity.
Qed.

(** X23.  [calculatePercentile] and [generateHistogram] do not depend
    on the order of the records: they sort the values, or use only
    their smallest and largest and count them, so rearranging the
    records changes neither the result nor whether an exception is
    thrown.  The values are binary64 numbers. *)
Theorem percentile_histogram_order_free (calls calls' : list CallRecord)
        (fieldId : string) (percentile : num) (buckets : nat) :
  Permutation calls calls' ->
  forallb binary64 (finiteValues calls fieldId) = true ->
  Binary64.calculatePercentile calls fieldId percentile
  = Binary64.calculatePercentile calls' fieldId percentile /\
  Binary64.generateHistogram calls fieldId buckets
  = Binary64.generateHistogram calls' fieldId buckets.
Proof.
  intros P B.
  destruct (without_metadata_dec calls) as [Hall|[c [Hc Mc]]].
  - assert (Hall' : Forall (fun c => has_metadata c = true) calls')
      by (apply (Permutation_Forall P); exact Hall).
    pose proof (finiteValues_isFin calls fieldId) as F.
    pose proof (finiteValues_isFin calls' fieldId) as F'.
    pose proof (finiteValues_perm fieldId P) as Pv.
    pose proof (forallb_perm _ Pv B) as B'.
    unfold Binary64.calculatePercentile, Binary64.generateHistogram.
    rewrite (numericValues_pure fieldId Hall), (numericValues_pure fieldId Hall').
    cbn [bind].
    rewrite (ascending64_sort F B), (ascending64_sort F' B').
    rewrite <- (ascending_perm F Pv), <- (Permutation_length Pv).
    split; [reflexivity|].
    destruct (List.length (finiteValues calls fieldId) =? 0); [reflexivity|].
    f_equal. apply map_ext. intros i. apply (histogramBucket64_perm buckets i F Pv).
  - assert (T : numericValues calls fieldId = Throw TypeError)
      by (apply numericValues_throws_without_metadata; eauto).
    assert (T' : numericValues calls' fieldId = Throw TypeError).
    { apply numericValues_throws_without_metadata. exists c.
      split; [apply (Permutation_in _ P Hc) | exact Mc]. }
    unfold Binary64.calculatePercentile, Binary64.generateHistogram.
    rewrite T, T'. split; reflexivity.
Qed.
End OrderIndependence.

Lemma percentile_histogram_order_free_witness :
  @Binary64.calculatePercentile SampleHost.sample (rev Samples.oneToTen) "amount" (of_nat 90)
  = @Binary64.calculatePercentile SampleHost.sample Samples.oneToTen "amount" (of_nat 90) /\
  @Binary64.generateHistogram SampleHost.sample (rev Samples.oneToTen) "amount" 5
  = @Binary64.generateHistogram SampleHost.sample Samples.oneToTen "amount" 5.
Proof.
  apply (@percentile_histogram_order_free SampleHost.sample (rev Samples.oneToTen)
           Samples.oneToTen "amount" (of_nat 90) 5).
  - symmetry. apply Permutation_rev.
  - vm_compute. reflexivity.
Defined.


(* ================================================================== *)
(** * Looking criteria up *)
(* ================================================================== *)

Lemma neqb_of_nat_refl (n : nat) : neqb (of_nat n) (of_nat n) = true.
Proof. rewrite neqb_of_nat. apply Nat.eqb_refl. Qed.

(** X24.  [getCriterionById] returns the criterion with the given id
    and nothing when no criterion has it; the ids of the criteria are
    pairwise different, so every criterion is found under its own id.
    Every criterion id that [calculateCriteriaAnalytics] and
    [calculateAgentPerformance] report resolves to a criterion. *)
Theorem criteria_ids_resolve (id : num) (calls : list Analytics.EvaluatedCall) :
  match getCriterionById id with
  | Some c => In c EVALUATION_CRITERIA /\ of_nat (criterion_id c) = id
  | None => forall c, In c EVALUATION_CRITERIA -> of_nat (criterion_id c) <> id
  end /\
  NoDup (map criterion_id EVALUATION_CRITERIA) /\
  (forall c, In c EVALUATION_CRITERIA ->
             getCriterionById (of_nat (criterion_id c)) = Some c) /\
  (forall a, In a (Analytics.calculateCriteriaAnalytics calls) ->
             getCriterionById (of_nat (Analytics.analytics_criterionId a)) <> None) /\
  (forall perfs p i,
      Analytics.calculateAgentPerformance calls = Ok perfs -> In p perfs ->
      In i (Analytics.topStrengths p ++ Analytics.topWeaknesses p) ->
      getCriterionById (of_nat i) <> None).
Proof.
  assert (Own : forall c, In c EVALUATION_CRITERIA ->
                          getCriterionById (of_nat (criterion_id c)) = Some c).
  { intros c Hc. unfold getCriterionById.
    repeat (destruct Hc as [<-|Hc];
            [cbn [find criterion_id criterion EVALUATION_CRITERIA];
             rewrite ?neqb_of_nat; reflexivity|]).
    destruct Hc. }
  assert (Range : forall i, 1 <= i <= 10 -> getCriterionById (of_nat i) <> None).
  { intros i Hi.
    assert (I : In i (map criterion_id EVALUATION_CRITERIA))
      by (rewrite criteria_ids; apply in_seq; lia).
    apply in_map_iff in I. destruct I as [c [<- Hc]].
    rewrite (Own c Hc). discriminate. }
  split; [|split; [|split; [exact Own|split]]].
  - unfold getCriterionById.
    destruct (find _ EVALUATION_CRITERIA) as [c|] eqn:E.
    + apply find_some in E. destruct E as [Hc E]. split; [exact Hc|].
      apply neqb_eq. exact E.
    + intros c Hc Eq. pose proof (find_none _ _ E c Hc) as N. cbv beta in N.
      rewrite <- Eq, neqb_of_nat_refl in N. discriminate.
  - rewrite criteria_ids. apply seq_NoDup.
  - intros a Ha.
    destruct (@criteria_analytics_ids calls a Ha) as (c & Hc & ->).
    rewrite (Own c Hc). discriminate.
  - intros perfs p i H Hp Hi. apply Range.
    destruct (@agent_performance_inv calls perfs p H Hp) as (k & g & _ & _ & ->).
    apply (top_ids_in_range g i). exact Hi.
Qed.

Example getMaxScore_is_100 : getMaxScore = of_nat 100.
Proof. closed_num. Qed.

(* ================================================================== *)
(** * Counting by dimension and the top values agree *)
(* ================================================================== *)

Lemma sort_insert_map {A B : Type} (f : A -> B) (cmp : A -> A -> num)
      (cmp' : B -> B -> num) (a : A) (l : list A) :
  (forall u v, cmp' (f u) (f v) = cmp u v) ->
  sort_insert cmp' (f a) (map f l) = map f (sort_insert cmp a l).
Proof.
  intros E. induction l as [|e l IH]; cbn [map sort_insert]; [reflexivity|].
  rewrite E. destruct (nlt (cmp a e) zero); cbn [map]; [reflexivity|].
  rewrite IH. reflexivity.
Qed.

Lemma Array_sort_map {A B : Type} (f : A -> B) (cmp : A -> A -> num)
      (cmp' : B -> B -> num) (l : list A) :
  (forall u v, cmp' (f u) (f v) = cmp u v) ->
  Array_sort cmp' (map f l) = map f (Array_sort cmp l).
Proof.
  intros E. unfold Array_sort.
  assert (G : forall acc,
             fold_left (fun acc x => sort_insert cmp' x acc) (map f l) (map f acc)
             = map f (fold_left (fun acc x => sort_insert cmp x acc) l acc)).
  { induction l as [|a l IH]; intros acc; cbn [map fold_left]; [reflexivity|].
    rewrite (sort_insert_map f cmp cmp' a acc E). apply IH. }
  apply (G []).
Qed.

Section CountAndTop.
Context {host : Host}.

Lemma count_view_measure (schema : SchemaDefinition) (view : AnalyticsView)
      (n : nat) (g : string * list CallRecord) :
  measureField view = None \/ aggregation view = agg_count ->
  measure (groupResult schema view n g) = of_nat (List.length (snd g)).
Proof.
  intros V. cbn [groupResult measure]. unfold measureOf. destruct V as [V|V].
  - rewrite V. cbn [findFieldOpt]. reflexivity.
  - destruct (findFieldOpt schema (measureField view)); [|reflexivity].
    destruct (measureField view); [|reflexivity].
    rewrite V. reflexivity.
Qed.

(** X25.  Counting by a dimension and asking for the top values of the
    same field agree: when the view has no measure field or aggregates
    by count, and [limit] is at least the number of distinct values,
    [aggregateByDimension] and [getTopValues] return the same values
    with the same counts and percentages, in the same order. *)
Theorem count_view_agrees_with_top_values (calls : list CallRecord)
        (schema : SchemaDefinition) (view : AnalyticsView) (fd : FieldDefinition)
        (limit : nat) :
  findField schema (dimensionField view) = Some fd ->
  measureField view = None \/ aggregation view = agg_count ->
  List.length (firstSeen (keysOf (dimensionField view) calls)) <= limit ->
  exists results top,
    aggregateByDimension calls schema view = Ok results /\
    getTopValues calls (dimensionField view) limit = Ok top /\
    map (fun r => (dimension r, count r, percentage r)) results
    = map (fun v => (top_value v, top_count v, top_percentage v)) top.
Proof.
  intros Hd V L.
  rewrite (@aggregateByDimension_pure host calls schema view fd Hd), getTopValues_pure.
  eexists. eexists. split; [reflexivity|]. split; [reflexivity|].
  set (d := dimensionField view) in *.
  set (n := List.length calls).
  set (groups := groupsOf d calls).
  set (cmp := fun a b : string * list CallRecord =>
                nsub (of_nat (List.length (snd b))) (of_nat (List.length (snd a)))).
  rewrite (Array_sort_map (groupResult schema view n) cmp byMeasureDesc groups).
  2:{ intros u v. unfold byMeasureDesc. rewrite (@count_view_measure schema view n u V),
        (@count_view_measure schema view n v V).
      reflexivity. }
  rewrite countsOf_groupsOf. fold groups.
  rewrite (map_map sizeOf (topValueOf n) groups).
  rewrite (Array_sort_map (fun g : string * list CallRecord => topValueOf n (sizeOf g))
                          cmp byCountDesc groups)
    by (intros u v; reflexivity).
  rewrite firstn_all2.
  2:{ rewrite length_map, Array_sort_length. unfold groups.
      rewrite <- groupsOf_firstSeen, length_map in L. exact L. }
  rewrite !map_map. apply map_ext_in. intros g Hg.
  apply Array_sort_In in Hg.
  cbn [groupResult dimension count percentage topValueOf sizeOf top_value top_count
       top_percentage fst snd].
  replace (0 <? n) with true; [reflexivity|].
  symmetry. apply Nat.ltb_lt. unfold n. destruct calls as [|c calls']; [|cbn; lia].
  destruct Hg.
Qed.
End CountAndTop.

Lemma count_view_agrees_with_top_values_witness :
  exists results top,
    @aggregateByDimension SampleHost.sample Samples.week Samples.callSchema
      Samples.byAgent = Ok results /\
    @getTopValues SampleHost.sample Samples.week "agent" 10 = Ok top /\
    map (fun r => (dimension r, count r, percentage r)) results
    = map (fun v => (top_value v, top_count v, top_percentage v)) top.
Proof.
  apply (@count_view_agrees_with_top_values SampleHost.sample Samples.week
           Samples.callSchema Samples.byAgent
           (Samples.field "agent" "text" (Some "participant_1")) 10).
  - reflexivity.
  - left. reflexivity.
  - vm_compute. lia.
Defined.

(* ================================================================== *)
(** * Rounding in the results: evaluations *)
(* ================================================================== *)

(** The rounded operations agree with the processor's binary64
    operations on the numbers of the examples: 0.07 and its sums of
    squares, the percentages of 2 and of 1 out of 3, a bucket bound,
    an overflow and two subnormal quotients. *)
Module ProcessorChecks.
Import PrimFloat.
Local Open Scope float_scope.

Example round64_agrees_with_the_processor :
  let same (f : float) (x : num) := neqb (Processor.of_float f) x in
  let c := lit64 7 100 in
  same (7 / 100) c = true /\
  same (7 / 100 * (7 / 100)) (fmul c c) = true /\
  same (3 * (7 / 100 * (7 / 100) + 7 / 100 * (7 / 100) + 7 / 100 * (7 / 100))
        - (7 / 100 + 7 / 100 + 7 / 100) * (7 / 100 + 7 / 100 + 7 / 100))
       (fsub (fmul (of_nat 3) (fadd (fadd (fmul c c) (fmul c c)) (fmul c c)))
             (fmul (fadd (fadd c c) c) (fadd (fadd c c) c))) = true /\
  same (2 / 3 * 100) (Binary64.percentageOf 2 3) = true /\
  same (1 / 3 * 100) (Binary64.percentageOf 1 3) = true /\
  same (2 / 3 * 100 + 1 / 3 * 100)
       (fadd (Binary64.percentageOf 2 3) (Binary64.percentageOf 1 3)) = true /\
  same (0 + 3 * ((1 - 0) / 10))
       (Binary64.rangeStart (Fin (Q2Qc 0)) (fdiv (of_nat 1) (of_nat 10)) 3) = true /\
  same (0x1.1ccf385ebc8ap+1023) (round64 (of_Z (10 ^ 308))) = true /\
  Processor.of_float (0x1.1ccf385ebc8ap+1023 - -0x1.1ccf385ebc8ap+1023) = PInf /\
  fsub (round64 (of_Z (10 ^ 308))) (round64 (of_Z (- 10 ^ 308))) = PInf /\
  same (0x0.0000000000001p-1022 / 2) (fdiv (Fin (Q2Qc (pow2 (-1074)))) (of_nat 2)) = true /\
  same (0x0.0000000000003p-1022 / 2)
       (fdiv (Fin (Q2Qc (3 * pow2 (-1074))%Q)) (of_nat 2)) = true.
Proof. vm_compute. repeat split; reflexivity. Qed.
End ProcessorChecks.

(** Three amounts 0.1: the percentile 10 is above the largest value,
    and the percentile 50 is that value. *)
Example percentile_above_maximum :
  let calls := Samples.amounts [lit64 1 10; lit64 1 10; lit64 1 10] in
  match @Binary64.calculatePercentile SampleHost.sample calls "amount" (of_nat 10),
        @Binary64.calculatePercentile SampleHost.sample calls "amount" (of_nat 50)
  with
  | Ok (Some p10), Ok (Some p50) => nlt (lit64 1 10) p10 && neqb p50 (lit64 1 10)
  | _, _ => false
  end = true.
Proof. vm_compute. reflexivity. Qed.

(** Seven amounts 26.705: minimum, median and maximum are 26.71 and
    the mean is 26.7. *)
Example mean_below_minimum :
  match @Binary64.calculateStatistics SampleHost.sample
          (Samples.amounts (repeat (lit64 26705 1000) 7)) "amount"
  with
  | Ok (Some s) =>
      neqb (stat_min s) (lit64 2671 100) && neqb (median s) (lit64 2671 100)
      && neqb (stat_max s) (lit64 2671 100) && neqb (mean s) (lit64 267 10)
  | _ => false
  end = true.
Proof. vm_compute. reflexivity. Qed.

(** The amounts 0.1, 0.7, 0.2 and 0.005 have the sum 1, and in the
    opposite order the sum 1.01. *)
Example sum_depends_on_order :
  let cells := [lit64 1 10; lit64 7 10; lit64 2 10; lit64 5 1000] in
  match @Binary64.calculateStatistics SampleHost.sample (Samples.amounts cells) "amount",
        @Binary64.calculateStatistics SampleHost.sample (Samples.amounts (rev cells))
          "amount"
  with
  | Ok (Some s), Ok (Some s') =>
      neqb (stat_sum s) (of_nat 1) && neqb (stat_sum s') (lit64 101 100)
  | _, _ => false
  end = true.
Proof. vm_compute. reflexivity. Qed.
